(** * Layout extraction and reconstruction: a shallow embedding

    The development follows [pdf_to_json.py] (class [PDFExtractor]) and
    [json_to_pdf.py].  Python strings are sequences of Unicode code points,
    Python [int]s are [Z], dictionaries with a fixed set of keys are records,
    and [try]/[except] is an explicit error monad over the calls into the
    PDF, imaging and OCR libraries.

    Page coordinates and font sizes are rationals: a double is the rational
    that it stands for.  Comparisons, [min], [max] and [abs] are exact in
    Python as they are here.  A sum, a difference, a product and a quotient
    are rounded to the nearest double in Python.  The modules [PdfToJson]
    and [PdfImages] compute with the exact results.  The modules [Rounded],
    [JsonToPdf], [JsonImages] and [JsonPages] take the rounding as a
    parameter [fl], applied to the result of every such operation of the
    source; [Binary64.round64] is the rounding of Python, and with the
    identity the arithmetic is exact. *)

From Stdlib Require Import ZArith NArith QArith Qabs Qminmax Qround.
From Stdlib Require Import List Bool String Ascii Lia Lqa.
From Stdlib Require Import Sorting.Permutation Sorting.Sorted.
From Stdlib Require Import DecimalString.
From Stdlib Require DecimalNat.
Import ListNotations.

Set Implicit Arguments.

(* ================================================================== *)
(** * Python strings *)
(* ================================================================== *)

Module Py.

(** A [str] is a list of code points. *)
Definition str := list N.

Definition SP : N := 0x20%N.

(** A literal written in ASCII. *)
Definition lit (s : string) : str := map N_of_ascii (list_ascii_of_string s).

Definition str_eqb (a b : str) : bool :=
  if list_eq_dec N.eq_dec a b then true else false.

(** [Py_UNICODE_ISSPACE]: the code points for which [str.isspace], [str.strip]
    and the regular expression class [\s] agree. *)
Definition isspace (c : N) : bool :=
  (((0x09 <=? c) && (c <=? 0x0D)) || ((0x1C <=? c) && (c <=? 0x20))
  || (c =? 0x85) || (c =? 0xA0) || (c =? 0x1680)
  || ((0x2000 <=? c) && (c <=? 0x200A))
  || (c =? 0x2028) || (c =? 0x2029) || (c =? 0x202F) || (c =? 0x205F)
  || (c =? 0x3000))%N.

(** [s.lstrip(chars)], [s.rstrip(chars)] and [s.strip(chars)], the stripped
    set given as a predicate. *)
Fixpoint lstrip_by (p : N -> bool) (s : str) : str :=
  match s with
  | [] => []
  | c :: t => if p c then lstrip_by p t else s
  end.

Fixpoint rstrip_by (p : N -> bool) (s : str) : str :=
  match s with
  | [] => []
  | c :: t =>
      match rstrip_by p t with
      | [] => if p c then [] else [c]
      | t' => c :: t'
      end
  end.

Definition strip_by (p : N -> bool) (s : str) : str :=
  lstrip_by p (rstrip_by p s).

(** [s.strip()] *)
Definition strip (s : str) : str := strip_by isspace s.

(** [re.sub(r'[class]+', r, s)]: every maximal run of characters of the class
    is replaced by [r]; [in_run] tells that the previous character was in the
    class. *)
Fixpoint sub_runs (p : N -> bool) (r : str) (in_run : bool) (s : str) : str :=
  match s with
  | [] => []
  | c :: t =>
      if p c
      then (if in_run then sub_runs p r true t else r ++ sub_runs p r true t)
      else c :: sub_runs p r false t
  end.

Definition re_sub_plus (p : N -> bool) (r : str) (s : str) : str :=
  sub_runs p r false s.

(** [re.sub(r'[class]', r, s)] with a one character replacement, and
    [s.replace(c, r)] for a single character [c]. *)
Definition re_sub_char (p : N -> bool) (r : N) (s : str) : str :=
  map (fun c => if p c then r else c) s.

(** [re.sub(r'[class]', '', s)] *)
Definition re_remove (p : N -> bool) (s : str) : str :=
  filter (fun c => negb (p c)) s.

(** [sep.join(parts)] *)
Fixpoint join (sep : str) (parts : list str) : str :=
  match parts with
  | [] => []
  | [w] => w
  | w :: ws => w ++ sep ++ join sep ws
  end.

(** [s.split()]: the maximal runs of non-whitespace characters.  [fields]
    cuts at every whitespace character. *)
Fixpoint fields (s : str) : list str :=
  match s with
  | [] => [[]]
  | c :: t =>
      if isspace c then [] :: fields t
      else match fields t with
           | w :: ws => (c :: w) :: ws
           | [] => [[c]]
           end
  end.

Definition nonempty (w : str) : bool :=
  match w with [] => false | _ => true end.

Definition split (s : str) : list str := filter nonempty (fields s).

(** [str(n)] for a natural number. *)
Definition of_nat (n : nat) : str :=
  lit (NilEmpty.string_of_uint (Nat.to_uint n)).

Definition in_chars (c : N) (cs : str) : bool := existsb (N.eqb c) cs.

Definition starts_with_space (s : str) : bool :=
  match s with c :: _ => isspace c | [] => false end.

Definition ends_with_space (s : str) : bool := starts_with_space (rev s).

(** A word list as [split] returns it. *)
Definition words_ok (l : list str) : Prop :=
  forall w, In w l -> w <> [] /\ forall c, In c w -> isspace c = false.

(** [s.endswith(a)] for a character [a] *)
Definition ends_with_char (a : N) (s : str) : bool :=
  match rev s with
  | c :: _ => (c =? a)%N
  | [] => false
  end.

(** Two adjacent occurrences of the character [a]. *)
Fixpoint adjacent (a : N) (s : str) : bool :=
  match s with
  | [] => false
  | x :: t =>
      match t with
      | [] => false
      | y :: _ => ((x =? a)%N && (y =? a)%N) || adjacent a t
      end
  end.

End Py.

(* ================================================================== *)
(** * Numbers and the [try]/[except] monad *)
(* ================================================================== *)

Module Num.

(** [a < b] on rationals *)
Definition Qltb (a b : Q) : bool := negb (Qle_bool b a).

(** [round(q, 1)]: to one decimal, a tie going to the even neighbour. *)
Definition round1 (q : Q) : Q :=
  let t := (q * 10)%Q in
  let n := Qfloor t in
  let frac := (t - inject_Z n)%Q in
  let up :=
    if Qltb (1 # 2) frac then true
    else if Qltb frac (1 # 2) then false
    else Z.odd n in
  (inject_Z (if up then n + 1 else n) / 10)%Q.

(** Lexicographic [a < b] on pairs of numbers, as Python compares tuples:
    the first position where the two differ decides. *)
Definition pair_ltb (a b : Q * Q) : bool :=
  let '(a1, a2) := a in
  let '(b1, b2) := b in
  if negb (Qeq_bool a1 b1) then Qltb a1 b1 else Qltb a2 b2.

(** A strict weak order, as far as the scan for a minimum needs it. *)
Definition cotransitive {A : Type} (lt : A -> A -> bool) : Prop :=
  forall a b c, lt a b = true -> lt c b = false -> lt a c = true.

Definition transitive {A : Type} (lt : A -> A -> bool) : Prop :=
  forall a b c, lt a b = true -> lt b c = true -> lt a c = true.

End Num.

Module Binary64.
Import Num.

(** The integer nearest to [q], a tie going to the even one. *)
Definition round_half_even (q : Q) : Z :=
  let n := Qfloor q in
  let frac := (q - inject_Z n)%Q in
  if Qltb (1 # 2) frac then (n + 1)%Z
  else if Qltb frac (1 # 2) then n
  else if Z.even n then n else (n + 1)%Z.

(** [2 ^ k] for an integer [k] of either sign. *)
Definition pow2 (k : Z) : Q :=
  match k with
  | Z0 => 1
  | Zpos p => inject_Z (2 ^ Zpos p)
  | Zneg p => 1 # (2 ^ p)
  end.

(** The integer [e] with [2 ^ e <= q < 2 ^ (e + 1)], for a positive [q]. *)
Definition floor_log2 (q : Q) : Z :=
  let e := (Z.log2 (Qnum q) - Z.log2 (Zpos (Qden q)))%Z in
  if Qle_bool (pow2 e) q then e else (e - 1)%Z.

(** The double nearest to [q], a tie going to the even significand: a
    significand of 53 bits, and multiples of [2 ^ -1074] below the least
    exponent.  This is the result that Python gives for an operation whose
    exact result is [q], and the value of a decimal literal [q].  Numbers
    beyond the largest double are not met here. *)
Definition round64 (q : Q) : Q :=
  if Qeq_bool q 0 then 0%Q
  else
    let e := floor_log2 (Qabs q) in
    let k := Z.max (e - 52) (-1074) in
    Qred (inject_Z (round_half_even (q / pow2 k)) * pow2 k).

(** The exact arithmetic. *)
Definition exact (q : Q) : Q := q.

End Binary64.

Module Exc.

(** An exception value; only its presence matters here. *)
Definition exn := Py.str.

Inductive Result (A : Type) : Type :=
| Ok (a : A)
| Raise (e : exn).
Arguments Ok {A} a.
Arguments Raise {A} e.

Definition bind {A B : Type} (m : Result A) (k : A -> Result B) : Result B :=
  match m with
  | Ok a => k a
  | Raise e => Raise e
  end.

(** [try: body  except Exception as e: handler e] *)
Definition try_except {A : Type} (body : Result A) (handler : exn -> Result A)
  : Result A :=
  match body with
  | Ok a => Ok a
  | Raise e => handler e
  end.

Definition raises {A : Type} (m : Result A) : Prop :=
  exists e, m = Raise e.

End Exc.

Declare Scope exc_scope.
Notation "x <- m ;; k" := (Exc.bind m (fun x => k))
  (at level 61, m at next level, right associativity) : exc_scope.

(* ================================================================== *)
(** * pdf_to_json.py: class PDFExtractor *)
(* ================================================================== *)

Module PdfToJson.
Import Py Num Exc.
Local Open Scope exc_scope.

(** ** Geometry and text blocks *)

(** A bounding box [(x0, y0, x1, y1)]. *)
Definition BBox : Type := (Q * Q * Q * Q)%type.

Definition is_inside_bbox (text_bbox table_bbox : BBox) : bool :=
  let '(tx0, ty0, tx1, ty1) := text_bbox in
  let '(rx0, ry0, rx1, ry1) := table_bbox in
  Qle_bool rx0 tx0 && Qle_bool tx1 rx1 && Qle_bool ry0 ty0 && Qle_bool ty1 ry1.

(** The dictionary of a text block.  The keys [spans] and [whitespace_info]
    are not read by any function below and are left out. *)
Record TextBlock : Type := mkTextBlock {
  tb_id : str;
  tb_text : str;
  tb_x0 : Q;
  tb_y0 : Q;
  tb_x1 : Q;
  tb_y1 : Q;
  tb_font : str;
  tb_is_bold : bool;
  tb_size : Q;
  tb_level : Z;
  tb_parent_id : option str
}.

Definition set_text (b : TextBlock) (t : str) : TextBlock :=
  mkTextBlock (tb_id b) t (tb_x0 b) (tb_y0 b) (tb_x1 b) (tb_y1 b)
    (tb_font b) (tb_is_bold b) (tb_size b) (tb_level b) (tb_parent_id b).

Definition set_hierarchy (b : TextBlock) (lvl : Z) (parent : option str)
  : TextBlock :=
  mkTextBlock (tb_id b) (tb_text b) (tb_x0 b) (tb_y0 b) (tb_x1 b) (tb_y1 b)
    (tb_font b) (tb_is_bold b) (tb_size b) lvl parent.

(** ** [list.sort(key=...)] and [sorted]: a stable sort.  [lt a b] is the
    comparison [key(a) < key(b)]; an element goes in front of the first
    element of the sorted tail that is not smaller than it. *)
Fixpoint insert_by {A : Type} (lt : A -> A -> bool) (x : A) (l : list A)
  : list A :=
  match l with
  | [] => [x]
  | y :: t => if lt y x then y :: insert_by lt x t else x :: l
  end.

Fixpoint sort_by {A : Type} (lt : A -> A -> bool) (l : list A) : list A :=
  match l with
  | [] => []
  | x :: t => insert_by lt x (sort_by lt t)
  end.

(** [key=lambda b: (b["y0"], b["x0"])] *)
Definition yx_lt (a b : TextBlock) : bool :=
  pair_ltb (tb_y0 a, tb_x0 a) (tb_y0 b, tb_x0 b).

(** [key=lambda b: b["x0"]] *)
Definition x_lt (a b : TextBlock) : bool := Qltb (tb_x0 a) (tb_x0 b).

(** [key=lambda b: (round(b["y0"], 1), round(b["x0"], 1))] *)
Definition round_yx_lt (a b : TextBlock) : bool :=
  pair_ltb (round1 (tb_y0 a), round1 (tb_x0 a))
           (round1 (tb_y0 b), round1 (tb_x0 b)).

(** ** [_infer_hierarchy] *)

(** [set(...)]: one representative of every value. *)
Fixpoint distinct (l : list Q) : list Q :=
  match l with
  | [] => []
  | x :: t => x :: filter (fun y => negb (Qeq_bool y x)) (distinct t)
  end.

(** [sorted(set(b["size"] for b in sorted_blocks), reverse=True)] *)
Definition font_sizes_of (sorted_blocks : list TextBlock) : list Q :=
  sort_by (fun a b => Qltb b a) (distinct (map tb_size sorted_blocks)).

(** [l.index(x) if x in l else len(l)] *)
Fixpoint index_or_len (x : Q) (l : list Q) : Z :=
  match l with
  | [] => 0
  | y :: t => if Qeq_bool y x then 0 else 1 + index_or_len x t
  end%Z.

(** The level that font size and boldness give to a block. *)
Definition size_level (font_sizes : list Q) (block : TextBlock) : Z :=
  let level :=
    match font_sizes with
    | [] => 0%Z
    | _ => index_or_len (tb_size block) font_sizes
    end in
  if tb_is_bold block then Z.max 0 (level - 1) else level.

(** The loop over [sorted_blocks]; [last_block] is the block appended in the
    previous iteration, with the level it was given. *)
Fixpoint infer_loop (font_sizes : list Q) (last_block : option TextBlock)
  (blocks : list TextBlock) : list TextBlock :=
  match blocks with
  | [] => []
  | block :: rest =>
      let level := size_level font_sizes block in
      let block' :=
        match last_block with
        | Some last =>
            if Qltb (tb_x0 last + 5) (tb_x0 block)
            then set_hierarchy block (tb_level last + 1) (Some (tb_id last))
            else set_hierarchy block level None
        | None => set_hierarchy block level None
        end in
      block' :: infer_loop font_sizes (Some block') rest
  end.

Definition infer_hierarchy (text_blocks : list TextBlock) : list TextBlock :=
  match text_blocks with
  | [] => []
  | _ =>
      let sorted_blocks := sort_by yx_lt text_blocks in
      let font_sizes := font_sizes_of sorted_blocks in
      infer_loop font_sizes None sorted_blocks
  end.

(** ** [_clean_table_data] and [_optimize_table_structure] *)

(** The inner loop of [_clean_table_data] over the cells of a row; a cell is
    [None] or a string. *)
Fixpoint clean_row (row : list (option str)) : list str :=
  match row with
  | [] => []
  | None :: rest => clean_row rest
  | Some cell :: rest =>
      match strip cell with
      | [] => clean_row rest
      | stripped => stripped :: clean_row rest
      end
  end.

Fixpoint clean_table_data (raw_data : list (list (option str)))
  : list (list str) :=
  match raw_data with
  | [] => []
  | row :: rest =>
      match clean_row row with
      | [] => clean_table_data rest
      | cleaned_row => cleaned_row :: clean_table_data rest
      end
  end.

(** The dictionary returned by [_optimize_table_structure], one constructor
    for each value of its ["type"] key. *)
Inductive StructuredData : Type :=
| SD_empty
| SD_key_value (structure : str) (data : list (str * str))
| SD_structured_table (structure : str) (headers : list str)
    (rows : list (list str))
| SD_single_row (structure : str) (data : list str)
| SD_unknown (data : list (list str)).

Definition sd_type (d : StructuredData) : str :=
  match d with
  | SD_empty => lit "empty"
  | SD_key_value _ _ => lit "key_value"
  | SD_structured_table _ _ _ => lit "structured_table"
  | SD_single_row _ _ => lit "single_row"
  | SD_unknown _ => lit "unknown"
  end.

(** [max(len(row) for row in raw_data)] *)
Definition max_cols (raw_data : list (list str)) : nat :=
  fold_right (fun row m => Nat.max (List.length row) m) 0%nat raw_data.

Fixpoint key_value_pairs (raw_data : list (list str)) : list (str * str) :=
  match raw_data with
  | [] => []
  | row :: rest =>
      match row with
      | k :: v :: _ => (k, v) :: key_value_pairs rest
      | [k] => (k, []) :: key_value_pairs rest
      | [] => key_value_pairs rest
      end
  end.

Definition optimize_table_structure (raw_data : list (list str))
  : StructuredData :=
  match raw_data with
  | [] => SD_empty
  | potential_header :: rest =>
      if (max_cols raw_data =? 2)%nat
      then SD_key_value (lit "2_column") (key_value_pairs raw_data)
      else
        match rest with
        | _ :: _ =>
            SD_structured_table (of_nat (max_cols raw_data) ++ lit "_column")
              potential_header rest
        | [] =>
            SD_single_row (of_nat (max_cols raw_data) ++ lit "_column")
              potential_header
        end
  end.

(** ** [_sanitize_filename]

    The class body defines the method twice; the second definition is the
    one that is bound, and the one followed here. *)

Definition UNDERSCORE : N := 0x5F%N.
Definition HYPHEN : N := 0x2D%N.

(** [Py_UNICODE_ISALNUM] on ASCII. *)
Definition isalnum_ascii (c : N) : bool :=
  (((0x30 <=? c) && (c <=? 0x39)) || ((0x41 <=? c) && (c <=? 0x5A))
   || ((0x61 <=? c) && (c <=? 0x7A)))%N.

(** The characters that the third substitution replaces: less-than,
    greater-than, colon, double quote, slash, backslash, bar, question mark
    and asterisk. *)
Definition unsafe_chars : str :=
  lit "<>:" ++ [0x22%N] ++ lit "/\|?*".

Section Sanitize.

(** [Py_UNICODE_ISALNUM] outside ASCII: the table of the Unicode database. *)
Variable isalnum_nonascii : N -> bool.

(** The class [\w]. *)
Definition isword (c : N) : bool :=
  if (c <? 0x80)%N then isalnum_ascii c || (c =? UNDERSCORE)%N
  else isalnum_nonascii c.

Definition sanitize_filename (filename : str) : str :=
  match filename with
  | [] => lit "unnamed"
  | _ =>
      let filename := re_sub_plus isspace (lit " ") (strip filename) in
      let filename :=
        re_remove (fun c => in_chars c [0x0A; 0x0D; 0x09]%N) filename in
      let filename :=
        re_sub_char (fun c => in_chars c unsafe_chars) UNDERSCORE filename in
      let filename :=
        re_sub_char (fun c => negb (isword c || isspace c || (c =? HYPHEN)%N))
          UNDERSCORE filename in
      let filename := re_sub_plus (N.eqb UNDERSCORE) (lit "_") filename in
      let filename := re_sub_char (N.eqb SP) UNDERSCORE filename in
      let filename := strip_by (N.eqb UNDERSCORE) filename in
      let filename := firstn 50 filename in
      match filename with
      | [] => lit "unnamed"
      | _ => filename
      end
  end.

End Sanitize.

(** The table that knows no letter or digit beyond ASCII. *)
Definition ascii_only_alnum (c : N) : bool := false.

(** ** [min(iterable, key=...)]

    The first element is the first candidate; a later element replaces the
    current one only when its key is strictly smaller. *)
Fixpoint min_from {A : Type} (lt : A -> A -> bool) (best : A) (l : list A)
  : A :=
  match l with
  | [] => best
  | x :: t => min_from lt (if lt x best then x else best) t
  end.

Definition py_min {A : Type} (lt : A -> A -> bool) (l : list A) : option A :=
  match l with
  | [] => None
  | x :: t => Some (min_from lt x t)
  end.

(** ** [_find_table_caption] *)

Record Candidate : Type := mkCandidate {
  c_text : str;
  c_normalized_text : str;
  c_distance : Q;
  c_x_distance : Q;
  c_priority : Z
}.

(** [(c["priority"], c["distance"], c["x_distance"])] compared as tuples. *)
Definition candidate_lt (a b : Candidate) : bool :=
  if negb (c_priority a =? c_priority b)%Z
  then (c_priority a <? c_priority b)%Z
  else pair_ltb (c_distance a, c_x_distance a) (c_distance b, c_x_distance b).

Record ImageCandidate : Type := mkImageCandidate {
  ic_text : str;
  ic_distance : Q;
  ic_priority : Z
}.

(** [(c["priority"], c["distance"])] compared as tuples. *)
Definition image_candidate_lt (a b : ImageCandidate) : bool :=
  if negb (ic_priority a =? ic_priority b)%Z
  then (ic_priority a <? ic_priority b)%Z
  else Qltb (ic_distance a) (ic_distance b).

Section Captions.

(** [caption_pattern.match(s)] for the compiled patterns of
    [_find_table_caption] and [_find_image_caption]: the matcher of the [re]
    module, whose Unicode tables for [\d] and for case folding are not part
    of this program. *)
Variable table_caption_match : str -> bool.
Variable image_caption_match : str -> bool.

(** One iteration of the loop over [text_blocks]: the candidate that the
    block contributes, if it passes every [continue]. *)
Definition table_candidate (page_height : Q) (table_bbox : BBox)
  (block : TextBlock) : option Candidate :=
  let '(x0, y0, x1, y1) := table_bbox in
  let proximity_threshold := (page_height * (15 # 100))%Q in
  let table_center_x := ((x0 + x1) / 2)%Q in
  let bx0 := tb_x0 block in
  let bx1 := tb_x1 block in
  let by1 := tb_y1 block in
  let text := strip (tb_text block) in
  match text with
  | [] => None
  | _ =>
      let is_above := Qle_bool by1 y0 in
      if negb is_above then None
      else
        let block_center_x := ((bx0 + bx1) / 2)%Q in
        let x_distance := Qabs (block_center_x - table_center_x) in
        if Qltb ((x1 - x0) / 2) x_distance then None
        else
          let y_distance := (y0 - by1)%Q in
          if Qltb proximity_threshold y_distance then None
          else
            let normalized_text := re_sub_plus isspace (lit " ") (strip text) in
            let priority :=
              if table_caption_match normalized_text then (-1)%Z else 0%Z in
            let priority :=
              if tb_is_bold block then (priority - 1)%Z else priority in
            Some (mkCandidate text normalized_text y_distance x_distance
                    priority)
  end.

Fixpoint table_caption_candidates (page_height : Q) (table_bbox : BBox)
  (text_blocks : list TextBlock) : list Candidate :=
  match text_blocks with
  | [] => []
  | block :: rest =>
      match table_candidate page_height table_bbox block with
      | Some c => c :: table_caption_candidates page_height table_bbox rest
      | None => table_caption_candidates page_height table_bbox rest
      end
  end.

Definition find_table_caption (page_height : Q)
  (text_blocks : list TextBlock) (table_bbox : BBox) : option str :=
  match text_blocks with
  | [] => None
  | _ =>
      let caption_candidates :=
        table_caption_candidates page_height table_bbox text_blocks in
      match py_min candidate_lt caption_candidates with
      | Some selected => Some (c_text selected)
      | None => None
      end
  end.

(** ** [_find_image_caption] *)

Definition image_candidate (page_height : Q) (table_bboxes : list BBox)
  (image_bbox : BBox) (block : TextBlock) : option ImageCandidate :=
  let '(x0, y0, x1, y1) := image_bbox in
  let proximity_threshold := (page_height * (1 # 10))%Q in
  let bx0 := tb_x0 block in
  let by0 := tb_y0 block in
  let bx1 := tb_x1 block in
  let by1 := tb_y1 block in
  let text := strip (tb_text block) in
  match text with
  | [] => None
  | _ =>
      let is_table_caption :=
        existsb (is_inside_bbox (bx0, by0, bx1, by1)) table_bboxes in
      if is_table_caption then None
      else
        let is_near_y :=
          (Qle_bool (y0 - proximity_threshold) by1
           && Qle_bool by1 (y1 + proximity_threshold))
          || (Qle_bool (y0 - proximity_threshold) by0
              && Qle_bool by0 (y1 + proximity_threshold)) in
        if negb is_near_y then None
        else
          let distance := Qmin (Qabs (by1 - y0)) (Qabs (y1 - by0)) in
          let priority := if image_caption_match text then (-1)%Z else 0%Z in
          Some (mkImageCandidate text distance priority)
  end.

Fixpoint image_caption_candidates (page_height : Q) (table_bboxes : list BBox)
  (image_bbox : BBox) (text_blocks : list TextBlock) : list ImageCandidate :=
  match text_blocks with
  | [] => []
  | block :: rest =>
      match image_candidate page_height table_bboxes image_bbox block with
      | Some c =>
          c :: image_caption_candidates page_height table_bboxes image_bbox rest
      | None =>
          image_caption_candidates page_height table_bboxes image_bbox rest
      end
  end.

Definition find_image_caption (page_height : Q)
  (text_blocks : list TextBlock) (table_bboxes : list BBox)
  (image_bbox : BBox) : option str :=
  match text_blocks with
  | [] => None
  | _ =>
      let caption_candidates :=
        image_caption_candidates page_height table_bboxes image_bbox
          text_blocks in
      match py_min image_candidate_lt caption_candidates with
      | Some selected => Some (ic_text selected)
      | None => None
      end
  end.

End Captions.

(** ** Text extraction: what [fitz] returns for a page *)

Record Span : Type := mkSpan {
  span_text : str;
  span_bbox : BBox;
  span_font : str;
  span_size : Q;
  span_flags : Z
}.

Record Line : Type := mkLine {
  line_bbox : BBox;
  line_spans : list Span
}.

Record Block : Type := mkBlock {
  block_type : Z;
  block_bbox : BBox;
  block_lines : list Line
}.

Definition NEWLINE : N := 0x0A%N.

(** [s.lower()] on the ASCII letters; no other code point lowers to one of
    the letters of the word looked for below. *)
Definition lower (s : str) : str :=
  map (fun c => if ((0x41 <=? c) && (c <=? 0x5A))%N then (c + 32)%N else c) s.

Fixpoint startswith (prefix s : str) : bool :=
  match prefix, s with
  | [], _ => true
  | _ :: _, [] => false
  | a :: p', b :: s' => (a =? b)%N && startswith p' s'
  end.

(** [sub in s] for a non-empty [sub] *)
Fixpoint contains (sub s : str) : bool :=
  match s with
  | [] => false
  | _ :: t => startswith sub s || contains sub t
  end.

(** An instance of the matchers on ASCII text without newlines: one of the
    words in any case, whitespace, a digit. *)
Definition ascii_caption_match (words : list str) (s : str) : bool :=
  existsb
    (fun w =>
       startswith w (lower s)
       && match lstrip_by isspace (skipn (List.length w) s) with
          | d :: _ => ((0x30 <=? d) && (d <=? 0x39))%N
          | [] => false
          end)
    words.

Definition ascii_table_caption_match : str -> bool :=
  ascii_caption_match [lit "table"; lit "figure"; lit "fig."].

Definition ascii_image_caption_match : str -> bool :=
  ascii_caption_match [lit "figure"; lit "table"; lit "image"; lit "fig."].

(** [_get_main_font]: the counter is a dictionary in insertion order. *)
Fixpoint add_count (font : str) (n : nat) (counts : list (str * nat))
  : list (str * nat) :=
  match counts with
  | [] => [(font, n)]
  | (f, k) :: t =>
      if str_eqb f font then (f, (k + n)%nat) :: t
      else (f, k) :: add_count font n t
  end.

Definition font_counts (spans_info : list Span) : list (str * nat) :=
  fold_left
    (fun counts span =>
       add_count (span_font span) (List.length (span_text span)) counts)
    spans_info [].

(** [max(font_counts.items(), key=lambda x: x[1])]: the first item with the
    largest count, found by the same scan with the comparison reversed. *)
Definition get_main_font (spans_info : list Span) : str :=
  match py_min (fun a b => (snd b <? snd a)%nat) (font_counts spans_info) with
  | Some (f, _) => f
  | None => lit "Unknown"
  end.

(** [_check_bold] *)
Definition check_bold (spans_info : list Span) : bool :=
  existsb
    (fun span =>
       negb (Z.land (span_flags span) 16 =? 0)%Z
       || contains (lit "bold") (lower (span_font span)))
    spans_info.

(** [_get_average_size] *)
Definition get_average_size (spans_info : list Span) : Q :=
  match spans_info with
  | [] => 10
  | _ =>
      let total_size :=
        fold_right
          (fun span acc =>
             (span_size span
              * inject_Z (Z.of_nat (List.length (span_text span))) + acc)%Q)
          0%Q spans_info in
      let total_chars :=
        fold_right
          (fun span acc => (List.length (span_text span) + acc)%nat)
          0%nat spans_info in
      if (0 <? total_chars)%nat
      then (total_size / inject_Z (Z.of_nat total_chars))%Q
      else 10
  end.

(** [_merge_line_blocks] *)
Fixpoint merge_line_loop (current : TextBlock) (blocks : list TextBlock)
  : list TextBlock :=
  match blocks with
  | [] => [current]
  | block :: rest =>
      let gap := (tb_x0 block - tb_x1 current)%Q in
      let char_width := (tb_size current * (1 # 2))%Q in
      if Qle_bool gap (char_width * (3 # 2))
      then
        merge_line_loop
          (mkTextBlock (tb_id current)
             (tb_text current ++ lit " " ++ tb_text block)
             (tb_x0 current) (tb_y0 current) (tb_x1 block)
             (Qmax (tb_y1 current) (tb_y1 block))
             (tb_font current) (tb_is_bold current) (tb_size current)
             (tb_level current) (tb_parent_id current))
          rest
      else current :: merge_line_loop block rest
  end.

Definition merge_line_blocks (line_blocks : list TextBlock)
  : list TextBlock :=
  match sort_by x_lt line_blocks with
  | [] => []
  | first :: rest => merge_line_loop first rest
  end.

(** The first loop of [_merge_text_blocks]: blocks whose [y0] is within the
    tolerance of the first block of the current line join that line. *)
Fixpoint group_lines (current_y : Q) (current_line : list TextBlock)
  (blocks : list TextBlock) : list TextBlock :=
  match blocks with
  | [] => merge_line_blocks current_line
  | block :: rest =>
      if Qle_bool (Qabs (tb_y0 block - current_y)) 2
      then group_lines current_y (current_line ++ [block]) rest
      else merge_line_blocks current_line
           ++ group_lines (tb_y0 block) [block] rest
  end.

(** The test that ends a paragraph between two consecutive blocks. *)
Definition paragraph_break (prev block : TextBlock) : bool :=
  Qltb 2 (tb_y0 block - tb_y1 prev)
  || negb (Qeq_bool (tb_size block) (tb_size prev))
  || xorb (tb_is_bold block) (tb_is_bold prev)
  || negb (tb_level block =? tb_level prev)%Z.

(** The second loop of [_merge_text_blocks]. *)
Fixpoint add_newlines (prev_block : option TextBlock)
  (merged : list TextBlock) : list TextBlock :=
  match merged with
  | [] => []
  | block :: rest =>
      let block' :=
        match prev_block with
        | Some prev =>
            if paragraph_break prev block
            then set_text block (NEWLINE :: tb_text block)
            else block
        | None => block
        end in
      block' :: add_newlines (Some block') rest
  end.

Definition merge_text_blocks (text_blocks : list TextBlock)
  : list TextBlock :=
  match sort_by yx_lt text_blocks with
  | [] => []
  | first :: rest =>
      add_newlines None (group_lines (tb_y0 first) [first] rest)
  end.

(** The text of a page: the texts of its blocks, a newline between two
    blocks at a paragraph break. *)
Fixpoint page_text_of (blocks : list TextBlock) : str :=
  match blocks with
  | [] => []
  | block :: rest =>
      tb_text block
      ++ match rest with
         | next_block :: _ =>
             if paragraph_break block next_block then [NEWLINE] else []
         | [] => []
         end
      ++ page_text_of rest
  end.

(** The spans of a line that have text ([spans_info] at the end of the loop
    over the spans of the line). *)
Definition spans_info_of (line : Line) : list Span :=
  filter (fun span => nonempty (span_text span)) (line_spans line).

(** [block_lines]: the lines that have text, each with its bounding box. *)
Fixpoint block_lines_of (lines : list Line) : list (str * BBox) :=
  match lines with
  | [] => []
  | line :: rest =>
      match spans_info_of line with
      | [] => block_lines_of rest
      | spans_info =>
          (List.concat (map span_text spans_info), line_bbox line)
          :: block_lines_of rest
      end
  end.

(** [spans_info] is reset for every line, so after the loop over the lines
    it holds the spans of the last line. *)
Definition last_spans_info (lines : list Line) : list Span :=
  fold_left (fun _ line => spans_info_of line) lines [].

(** [merged_text]: a newline after a line that the next line follows at a
    vertical distance of more than 2. *)
Fixpoint merged_text_of (block_lines : list (str * BBox)) : str :=
  match block_lines with
  | [] => []
  | (line_text, curr_bbox) :: rest =>
      line_text
      ++ match rest with
         | (_, next_bbox) :: _ =>
             let '(_, next_y0, _, _) := next_bbox in
             let '(_, _, _, curr_y1) := curr_bbox in
             if Qltb 2 (next_y0 - curr_y1) then [NEWLINE] else []
         | [] => []
         end
      ++ merged_text_of rest
  end.

Definition text_id (page_number block_idx : nat) : str :=
  lit "text_" ++ of_nat page_number ++ lit "_" ++ of_nat block_idx.

(** The loop of [extract_text_enhanced] over [raw_dict["blocks"]]. *)
Fixpoint build_text_blocks (page_number : nat) (table_bboxes : list BBox)
  (block_idx : nat) (blocks : list Block) : list TextBlock :=
  match blocks with
  | [] => []
  | block :: rest =>
      if negb (block_type block =? 0)%Z
      then build_text_blocks page_number table_bboxes block_idx rest
      else if existsb (is_inside_bbox (block_bbox block)) table_bboxes
      then build_text_blocks page_number table_bboxes block_idx rest
      else
        match block_lines_of (block_lines block) with
        | [] => build_text_blocks page_number table_bboxes block_idx rest
        | block_lines' =>
            let spans_info := last_spans_info (block_lines block) in
            let '(bx0, by0, bx1, by1) := block_bbox block in
            mkTextBlock (text_id page_number block_idx)
              (merged_text_of block_lines') bx0 by0 bx1 by1
              (get_main_font spans_info) (check_bold spans_info)
              (get_average_size spans_info) 0%Z None
            :: build_text_blocks page_number table_bboxes (S block_idx) rest
        end
  end.

(** ** Pages *)

Record Table : Type := mkTable {
  t_id : str;
  t_bbox : BBox;
  t_caption : option str;
  t_raw_data : list (list str);
  t_structured_data : StructuredData
}.

(** [page_data]; the keys [images] and [lines] play no part below. *)
Record PageData : Type := mkPageData {
  pd_page_number : nat;
  pd_width : Q;
  pd_height : Q;
  pd_text_blocks : list TextBlock;
  pd_tables : list Table;
  pd_text : str
}.

Definition set_text_blocks (page_data : PageData) (blocks : list TextBlock)
  (page_text : str) : PageData :=
  mkPageData (pd_page_number page_data) (pd_width page_data)
    (pd_height page_data) blocks (pd_tables page_data) page_text.

Definition set_tables (page_data : PageData) (tables : list Table)
  : PageData :=
  mkPageData (pd_page_number page_data) (pd_width page_data)
    (pd_height page_data) (pd_text_blocks page_data) tables
    (pd_text page_data).

(** [s.split(sep)] for a one character separator *)
Fixpoint split_on (sep : N) (s : str) : list str :=
  match s with
  | [] => [[]]
  | c :: t =>
      if (c =? sep)%N then [] :: split_on sep t
      else match split_on sep t with
           | w :: ws => (c :: w) :: ws
           | [] => [[c]]
           end
  end.

(** The text blocks made from the lines of the recognised text. *)
Fixpoint ocr_blocks (page_number : nat) (page_width y_step : Q) (i : nat)
  (lines : list str) : list TextBlock :=
  match lines with
  | [] => []
  | line :: rest =>
      match strip line with
      | [] => ocr_blocks page_number page_width y_step (S i) rest
      | stripped =>
          let x_center := (page_width / 2)%Q in
          mkTextBlock
            (lit "text_" ++ of_nat page_number ++ lit "_ocr_" ++ of_nat i)
            stripped
            (x_center - 100)%Q
            (inject_Z (Z.of_nat i) * y_step)%Q
            (x_center + 100)%Q
            ((inject_Z (Z.of_nat i) + 1) * y_step)%Q
            (lit "Unknown") false 10 0%Z None
          :: ocr_blocks page_number page_width y_step (S i) rest
      end
  end.

(** *** The line based method, [extract_text_line_based] *)

(** The extent of the spans of a line; [None] stands for the initial
    [(inf, inf, -inf, -inf)], which no block keeps. *)
Definition spans_extent (spans : list Span) : option BBox :=
  fold_left
    (fun acc span =>
       let '(sx0, sy0, sx1, sy1) := span_bbox span in
       match acc with
       | None => Some (sx0, sy0, sx1, sy1)
       | Some (x0, y0, x1, y1) =>
           Some (Qmin x0 sx0, Qmin y0 sy0, Qmax x1 sx1, Qmax y1 sy1)
       end)
    spans None.

Definition line_block (page_number block_idx : nat) (line : Line)
  : option TextBlock :=
  let merged_text := join (lit " ") (map span_text (spans_info_of line)) in
  match merged_text, line_spans line, spans_extent (line_spans line) with
  | _ :: _, first_span :: _, Some (x0, y0, x1, y1) =>
      let font_name := span_font first_span in
      let font_size :=
        fold_left (fun acc span => Qmax acc (span_size span))
          (line_spans line) 0%Q in
      Some (mkTextBlock (text_id page_number block_idx) merged_text
              x0 y0 x1 y1 font_name
              (contains (lit "bold") (lower font_name)) font_size 0%Z None)
  | _, _, _ => None
  end.

Fixpoint build_line_blocks (page_number : nat) (table_bboxes : list BBox)
  (block_idx : nat) (lines : list Line) : list TextBlock :=
  match lines with
  | [] => []
  | line :: rest =>
      if existsb (is_inside_bbox (line_bbox line)) table_bboxes
      then build_line_blocks page_number table_bboxes block_idx rest
      else
        match line_block page_number block_idx line with
        | Some blk =>
            blk :: build_line_blocks page_number table_bboxes (S block_idx) rest
        | None => build_line_blocks page_number table_bboxes block_idx rest
        end
  end.

(** The key [(blk["text"], round(blk["x0"], 1), round(blk["y0"], 1))] *)
Definition same_key (a b : TextBlock) : bool :=
  str_eqb (tb_text a) (tb_text b)
  && Qeq_bool (round1 (tb_x0 a)) (round1 (tb_x0 b))
  && Qeq_bool (round1 (tb_y0 a)) (round1 (tb_y0 b)).

Fixpoint unique_blocks (seen : list TextBlock) (blocks : list TextBlock)
  : list TextBlock :=
  match blocks with
  | [] => []
  | blk :: rest =>
      if negb (existsb (same_key blk) seen) && nonempty (tb_text blk)
      then blk :: unique_blocks (blk :: seen) rest
      else unique_blocks seen rest
  end.

(** *** Tables as [pdfplumber] finds them *)

Record PlumberTable : Type := mkPlumberTable {
  (** [table.bbox], [None] when there is none *)
  pt_bbox : option BBox;
  (** rasterising the region and writing the image file *)
  pt_image : Result unit;
  (** [table.extract()] *)
  pt_extract : Result (list (list (option str)))
}.

Record PlumberPage : Type := mkPlumberPage {
  pl_width : Q;
  pl_height : Q;
  find_tables : Result (list PlumberTable)
}.

Section Extraction.

Variable table_caption_match : str -> bool.

(** The page image and the imaging and recognition libraries. *)
Variable Pixmap : Type.
Variable preprocess : Pixmap -> Result Pixmap.
Variable image_to_string : Pixmap -> Result str.

Record FitzPage : Type := mkFitzPage {
  (** [fitz_page.get_text("rawdict")["blocks"]] *)
  get_text_rawdict : Result (list Block);
  (** [fitz_page.get_text("dict")["blocks"]] *)
  get_text_dict : Result (list Block);
  (** [fitz_page.get_pixmap(dpi=300)] *)
  get_pixmap : Result Pixmap
}.

(** [extract_text_ocr]; the log sink is total. *)
Definition extract_text_ocr (fitz_page : FitzPage) : Result str :=
  try_except
    (pix <- get_pixmap fitz_page ;;
     img <- preprocess pix ;;
     text <- image_to_string img ;;
     Ok text)
    (fun e => Ok []).

Definition extract_text_line_based (fitz_page : FitzPage)
  (page_data : PageData) : PageData :=
  match get_text_dict fitz_page with
  | Ok blocks =>
      let table_bboxes := map t_bbox (pd_tables page_data) in
      let lines :=
        flat_map
          (fun b => if (block_type b =? 0)%Z then block_lines b else [])
          blocks in
      let text_blocks_line :=
        build_line_blocks (pd_page_number page_data) table_bboxes 0 lines in
      let unique := sort_by yx_lt (unique_blocks [] text_blocks_line) in
      set_text_blocks page_data unique (page_text_of unique)
  | Raise e => page_data
  end.

Definition extract_text_enhanced (fitz_page : FitzPage)
  (page_data : PageData) : PageData :=
  match get_text_rawdict fitz_page with
  | Ok raw_blocks =>
      let table_bboxes := map t_bbox (pd_tables page_data) in
      let text_blocks :=
        build_text_blocks (pd_page_number page_data) table_bboxes 0
          raw_blocks in
      let merged_blocks :=
        sort_by round_yx_lt (merge_text_blocks text_blocks) in
      let page_data :=
        set_text_blocks page_data merged_blocks (page_text_of merged_blocks) in
      match merged_blocks with
      | [] =>
          match extract_text_ocr fitz_page with
          | Ok [] => page_data
          | Ok ocr_text =>
              let lines := split_on NEWLINE ocr_text in
              let y_step :=
                (pd_height page_data
                 / inject_Z (Z.of_nat (Nat.max 1 (List.length lines))))%Q in
              set_text_blocks page_data
                (text_blocks
                 ++ ocr_blocks (pd_page_number page_data)
                      (pd_width page_data) y_step 0 lines)
                ocr_text
          | Raise e => extract_text_line_based fitz_page page_data
          end
      | _ => page_data
      end
  | Raise e => extract_text_line_based fitz_page page_data
  end.

(** [extract_tables]: a table whose image or cells cannot be produced is
    skipped. *)
Fixpoint tables_loop (page_num : nat) (page_data : PageData) (t_idx : nat)
  (plumber_tables : list PlumberTable) : list Table :=
  match plumber_tables with
  | [] => []
  | table :: rest =>
      let rest' := tables_loop page_num page_data (S t_idx) rest in
      match pt_bbox table with
      | None => rest'
      | Some table_bbox =>
          let attempt :=
            _ <- pt_image table ;;
            let caption :=
              find_table_caption table_caption_match (pd_height page_data)
                (pd_text_blocks page_data) table_bbox in
            raw_extracted_data <- pt_extract table ;;
            let cleaned_data := clean_table_data raw_extracted_data in
            Ok (mkTable (lit "table_" ++ of_nat page_num ++ lit "_"
                           ++ of_nat t_idx)
                  table_bbox caption cleaned_data
                  (optimize_table_structure cleaned_data)) in
          match attempt with
          | Ok t => t :: rest'
          | Raise e => rest'
          end
      end
  end.

Definition extract_tables (plumber_page : PlumberPage) (page_num : nat)
  (page_data : PageData) : PageData :=
  match find_tables plumber_page with
  | Ok plumber_tables =>
      set_tables page_data (tables_loop page_num page_data 0 plumber_tables)
  | Raise e => page_data
  end.

(** The steps of [extract] for one page, in the order of the calls:
    text, then tables, then the hierarchy. *)
Definition extract_page (plumber_page : PlumberPage) (fitz_page : FitzPage)
  (page_number : nat) : PageData :=
  let page_data :=
    mkPageData page_number (pl_width plumber_page) (pl_height plumber_page)
      [] [] [] in
  let page_data := extract_text_enhanced fitz_page page_data in
  let page_data := extract_tables plumber_page page_number page_data in
  set_text_blocks page_data (infer_hierarchy (pd_text_blocks page_data))
    (pd_text page_data).

End Extraction.

End PdfToJson.

(* ================================================================== *)
(** * pdf_to_json.py: the tests on rounded numbers *)
(* ================================================================== *)

Module Rounded.
Import Py Num Exc PdfToJson.

(** Where a test of the source compares the result of an arithmetic
    operation, its outcome can depend on the rounding of that result: the
    double of 0.7 plus 5 is rounded to the double of 5.7, so that a block
    at 5.7 does not start more than 5 to the right of a block at 0.7,
    though the one double exceeds the other by a little more than 5.  The
    functions below apply the rounding [fl] to the result of every
    operation of the source.  Sorting, the set of the font sizes and the
    ranking of the candidates compare numbers as they are and are taken
    from [PdfToJson]. *)

Section ExtractArithmetic.

Variable fl : Q -> Q.

(** ** [_infer_hierarchy] *)

Fixpoint infer_loop (font_sizes : list Q) (last_block : option TextBlock)
  (blocks : list TextBlock) : list TextBlock :=
  match blocks with
  | [] => []
  | block :: rest =>
      let level := size_level font_sizes block in
      let block' :=
        match last_block with
        | Some last =>
            if Qltb (fl (tb_x0 last + 5)) (tb_x0 block)
            then set_hierarchy block (tb_level last + 1) (Some (tb_id last))
            else set_hierarchy block level None
        | None => set_hierarchy block level None
        end in
      block' :: infer_loop font_sizes (Some block') rest
  end.

Definition infer_hierarchy (text_blocks : list TextBlock) : list TextBlock :=
  match text_blocks with
  | [] => []
  | _ =>
      let sorted_blocks := sort_by yx_lt text_blocks in
      let font_sizes := font_sizes_of sorted_blocks in
      infer_loop font_sizes None sorted_blocks
  end.

(** ** [_find_table_caption] *)

Section RoundedCaptions.

Variable table_caption_match : str -> bool.
Variable image_caption_match : str -> bool.

Definition table_candidate (page_height : Q) (table_bbox : BBox)
  (block : TextBlock) : option Candidate :=
  let '(x0, y0, x1, y1) := table_bbox in
  let proximity_threshold := fl (page_height * fl (15 # 100)) in
  let table_center_x := fl (fl (x0 + x1) / 2) in
  let bx0 := tb_x0 block in
  let bx1 := tb_x1 block in
  let by1 := tb_y1 block in
  let text := strip (tb_text block) in
  match text with
  | [] => None
  | _ =>
      let is_above := Qle_bool by1 y0 in
      if negb is_above then None
      else
        let block_center_x := fl (fl (bx0 + bx1) / 2) in
        let x_distance := Qabs (fl (block_center_x - table_center_x)) in
        if Qltb (fl (fl (x1 - x0) / 2)) x_distance then None
        else
          let y_distance := fl (y0 - by1) in
          if Qltb proximity_threshold y_distance then None
          else
            let normalized_text := re_sub_plus isspace (lit " ") (strip text) in
            let priority :=
              if table_caption_match normalized_text then (-1)%Z else 0%Z in
            let priority :=
              if tb_is_bold block then (priority - 1)%Z else priority in
            Some (mkCandidate text normalized_text y_distance x_distance
                    priority)
  end.

Fixpoint table_caption_candidates (page_height : Q) (table_bbox : BBox)
  (text_blocks : list TextBlock) : list Candidate :=
  match text_blocks with
  | [] => []
  | block :: rest =>
      match table_candidate page_height table_bbox block with
      | Some c => c :: table_caption_candidates page_height table_bbox rest
      | None => table_caption_candidates page_height table_bbox rest
      end
  end.

Definition find_table_caption (page_height : Q)
  (text_blocks : list TextBlock) (table_bbox : BBox) : option str :=
  match text_blocks with
  | [] => None
  | _ =>
      let caption_candidates :=
        table_caption_candidates page_height table_bbox text_blocks in
      match py_min candidate_lt caption_candidates with
      | Some selected => Some (c_text selected)
      | None => None
      end
  end.

(** ** [_find_image_caption] *)

Definition image_candidate (page_height : Q) (table_bboxes : list BBox)
  (image_bbox : BBox) (block : TextBlock) : option ImageCandidate :=
  let '(x0, y0, x1, y1) := image_bbox in
  let proximity_threshold := fl (page_height * fl (1 # 10)) in
  let bx0 := tb_x0 block in
  let by0 := tb_y0 block in
  let bx1 := tb_x1 block in
  let by1 := tb_y1 block in
  let text := strip (tb_text block) in
  match text with
  | [] => None
  | _ =>
      let is_table_caption :=
        existsb (is_inside_bbox (bx0, by0, bx1, by1)) table_bboxes in
      if is_table_caption then None
      else
        let is_near_y :=
          (Qle_bool (fl (y0 - proximity_threshold)) by1
           && Qle_bool by1 (fl (y1 + proximity_threshold)))
          || (Qle_bool (fl (y0 - proximity_threshold)) by0
              && Qle_bool by0 (fl (y1 + proximity_threshold))) in
        if negb is_near_y then None
        else
          let distance :=
            Qmin (Qabs (fl (by1 - y0))) (Qabs (fl (y1 - by0))) in
          let priority := if image_caption_match text then (-1)%Z else 0%Z in
          Some (mkImageCandidate text distance priority)
  end.

Fixpoint image_caption_candidates (page_height : Q) (table_bboxes : list BBox)
  (image_bbox : BBox) (text_blocks : list TextBlock) : list ImageCandidate :=
  match text_blocks with
  | [] => []
  | block :: rest =>
      match image_candidate page_height table_bboxes image_bbox block with
      | Some c =>
          c :: image_caption_candidates page_height table_bboxes image_bbox rest
      | None =>
          image_caption_candidates page_height table_bboxes image_bbox rest
      end
  end.

Definition find_image_caption (page_height : Q)
  (text_blocks : list TextBlock) (table_bboxes : list BBox)
  (image_bbox : BBox) : option str :=
  match text_blocks with
  | [] => None
  | _ =>
      let caption_candidates :=
        image_caption_candidates page_height table_bboxes image_bbox
          text_blocks in
      match py_min image_candidate_lt caption_candidates with
      | Some selected => Some (ic_text selected)
      | None => None
      end
  end.

End RoundedCaptions.

End ExtractArithmetic.

End Rounded.

(* ================================================================== *)
(** * json_to_pdf.py *)
(* ================================================================== *)

Module JsonToPdf.
Import Py Num Exc.

(** ** [clean_text_for_pdf] *)

(** The loop over the characters of the text. *)
Fixpoint cleaned_chars (text : str) : str :=
  match text with
  | [] => []
  | char :: rest =>
      if ((0xD800 <=? char) && (char <=? 0xDFFF))%N then cleaned_chars rest
      else if (char <? 32)%N && negb (in_chars char [0x09; 0x0A; 0x0D]%N)
      then cleaned_chars rest
      else char :: cleaned_chars rest
  end.

Definition clean_text_for_pdf (text : str) : str :=
  match text with
  | [] => []
  | _ =>
      let text := re_remove (N.eqb 0x00) text in
      let text := cleaned_chars text in
      let text := re_sub_plus isspace (lit " ") text in
      strip text
  end.

(** The general category [Cc] of Unicode: the control characters. *)
Definition is_control (c : N) : bool :=
  ((c <=? 0x1F) || ((0x7F <=? c) && (c <=? 0x9F)))%N.

(** ** The document read from JSON *)

Definition Rect : Type := (Q * Q * Q * Q)%type.

Record CellInfo : Type := mkCellInfo {
  cell_text : str;
  (** [None] when the key is absent *)
  cell_bbox : option Rect
}.

Record TableInfo : Type := mkTableInfo {
  (** [tbl["image"]["base64"]], empty when absent *)
  tbl_base64 : str;
  (** [None] when the key is absent *)
  tbl_bbox : option Rect;
  tbl_cells : list CellInfo
}.

(** Of an image, [render_text_enhanced] reads the bounding box, a list of
    any length. *)
Record ImageInfo : Type := mkImageInfo {
  img_bbox : list Q
}.

Record BlockInfo : Type := mkBlockInfo {
  blk_text : str;
  blk_x0 : Q;
  blk_y0 : Q;
  blk_x1 : Q;
  blk_y1 : Q
}.

Record PageInfo : Type := mkPageInfo {
  pg_tables : list TableInfo;
  pg_images : list ImageInfo;
  pg_text_blocks : list BlockInfo
}.

(** What reaches the canvas.  A drawing call of the PDF library that fails
    is caught and logged; the operations below are the calls attempted. *)
Inductive DrawOp : Type :=
| TableImage (tbl_idx : nat) (x y width height : Q)
| CellText (tbl_idx cell_idx : nat) (text : str)
| BlockText (blk_idx : nat) (text : str).

Section RenderArithmetic.

(** The rounding of the arithmetic. *)
Variable fl : Q -> Q.

(** ** [render_text_enhanced] *)

(** The test of [is_inside_any_table_or_image_or_cell] against one box. *)
Definition overlaps (margin x0 y0 x1 y1 : Q) (box : list Q) : bool :=
  match box with
  | [bx0; by0; bx1; by1] =>
      Qltb x0 (fl (bx1 + margin)) && Qltb (fl (bx0 - margin)) x1
      && Qltb y0 (fl (by1 + margin)) && Qltb (fl (by0 - margin)) y1
  | _ => false
  end.

Definition is_inside_any_table_or_image_or_cell
  (table_boxes cell_bboxes image_boxes : list (list Q)) (x0 y0 x1 y1 : Q)
  : bool :=
  existsb (overlaps 1 x0 y0 x1 y1) (table_boxes ++ cell_bboxes ++ image_boxes).

Definition image_boxes_of (images : list ImageInfo) : list (list Q) :=
  filter (fun box => (List.length box =? 4)%nat) (map img_bbox images).

Fixpoint render_text_loop (table_boxes cell_bboxes image_boxes : list (list Q))
  (blk_idx : nat) (text_blocks : list BlockInfo) : list DrawOp :=
  match text_blocks with
  | [] => []
  | blk :: rest =>
      let rest' :=
        render_text_loop table_boxes cell_bboxes image_boxes (S blk_idx) rest in
      match blk_text blk with
      | [] => rest'
      | text =>
          if is_inside_any_table_or_image_or_cell table_boxes cell_bboxes
               image_boxes (blk_x0 blk) (blk_y0 blk) (blk_x1 blk) (blk_y1 blk)
          then rest'
          else
            let text := clean_text_for_pdf text in
            match strip text with
            | [] => rest'
            | _ => BlockText blk_idx text :: rest'
            end
      end
  end.

Definition render_text_enhanced (page_info : PageInfo)
  (rendered_tables : list (list Q) * list (list Q)) : list DrawOp :=
  let '(table_boxes, cell_bboxes) := rendered_tables in
  render_text_loop table_boxes cell_bboxes
    (image_boxes_of (pg_images page_info)) 0 (pg_text_blocks page_info).

(** ** [draw_tables_enhanced] *)

(** The loop over the cells of a table.  The sign of a difference of two
    doubles is the sign of the exact difference, and no other use is made
    of the width and the height of a cell. *)
Fixpoint draw_cells (tbl_idx : nat) (table_bbox : Rect) (cell_idx : nat)
  (cells : list CellInfo) : list DrawOp * list (list Q) :=
  match cells with
  | [] => ([], [])
  | cell :: rest =>
      let '(ops, boxes) := draw_cells tbl_idx table_bbox (S cell_idx) rest in
      match cell_text cell with
      | [] => (ops, boxes)
      | text =>
          let '(cx0, cy0, cx1, cy1) :=
            match cell_bbox cell with
            | Some b => b
            | None => table_bbox
            end in
          let cell_width := (cx1 - cx0)%Q in
          let cell_height := (cy1 - cy0)%Q in
          let boxes := [cx0; cy0; cx1; cy1] :: boxes in
          if Qle_bool cell_width 0 || Qle_bool cell_height 0
          then (ops, boxes)
          else
            let text := clean_text_for_pdf text in
            match strip text with
            | [] => (ops, boxes)
            | _ => (CellText tbl_idx cell_idx text :: ops, boxes)
            end
      end
  end.

Section Tables.

(** The imaging calls of the inner [try] of a table: decoding the base64
    text, opening the image and drawing it; the size of the image in pixels,
    or an exception. *)
Variable open_image : str -> Result (Z * Z).

Definition draw_table (page_w page_h : Q) (tbl_idx : nat) (tbl : TableInfo)
  : list DrawOp * list (list Q) * list (list Q) :=
  let '(x0, y0, x1, y1) :=
    match tbl_bbox tbl with
    | Some b => b
    | None => (0, 0, page_w, page_h)%Q
    end in
  let '(x0, x1) := (Qmin x0 x1, Qmax x0 x1) in
  let '(y0, y1) := (Qmin y0 y1, Qmax y0 y1) in
  let w := fl (x1 - x0) in
  let h := fl (y1 - y0) in
  let y_new := fl (page_h - y1) in
  let min_dimension := 10%Q in
  let '(w, x1) :=
    if Qle_bool w 0 then (min_dimension, fl (x0 + min_dimension))
    else (w, x1) in
  let '(h, y1, y_new) :=
    if Qle_bool h 0
    then (min_dimension, fl (y0 + min_dimension),
          fl (page_h - fl (y0 + min_dimension)))
    else (h, y1, y_new) in
  let '(image_ops, rendered) :=
    match tbl_base64 tbl with
    | [] => ([], [])
    | base64_str =>
        match open_image base64_str with
        | Ok (orig_w, orig_h) =>
            let scale_x :=
              if (0 <? orig_w)%Z then fl (w / inject_Z orig_w) else 1%Q in
            let scale_y :=
              if (0 <? orig_h)%Z then fl (h / inject_Z orig_h) else 1%Q in
            let scale := Qmin scale_x scale_y in
            let new_w := fl (inject_Z orig_w * scale) in
            let new_h := fl (inject_Z orig_h * scale) in
            let new_w :=
              if Qltb page_w (fl (x0 + new_w)) then fl (fl (page_w - x0) - 5)
              else new_w in
            let new_h :=
              if Qltb page_h (fl (y_new + new_h))
              then fl (fl (page_h - y_new) - 5)
              else new_h in
            ([TableImage tbl_idx x0 y_new new_w new_h],
             [[x0; y0; fl (x0 + new_w); fl (y0 + new_h)]])
        | Raise e => ([], [])
        end
    end in
  let '(cell_ops, cell_bboxes) :=
    draw_cells tbl_idx (x0, y0, x1, y1) 0 (tbl_cells tbl) in
  (image_ops ++ cell_ops, rendered, cell_bboxes).

Fixpoint draw_tables_loop (page_w page_h : Q) (tbl_idx : nat)
  (tables : list TableInfo) : list DrawOp * list (list Q) * list (list Q) :=
  match tables with
  | [] => ([], [], [])
  | tbl :: rest =>
      let '(ops, rendered, cells) := draw_table page_w page_h tbl_idx tbl in
      let '(ops', rendered', cells') :=
        draw_tables_loop page_w page_h (S tbl_idx) rest in
      (ops ++ ops', rendered ++ rendered', cells ++ cells')
  end.

Definition draw_tables_enhanced (page_info : PageInfo) (page_w page_h : Q)
  : list DrawOp * (list (list Q) * list (list Q)) :=
  let '(ops, rendered_tables, cell_bboxes) :=
    draw_tables_loop page_w page_h 0 (pg_tables page_info) in
  (ops, (rendered_tables, cell_bboxes)).

End Tables.

End RenderArithmetic.

End JsonToPdf.

(* ================================================================== *)
(** * Concrete pages and documents *)
(* ================================================================== *)

Module Examples.
Import Py Num Exc.





(** [png_100_by_50] stands for the base64 text of an image of 100 by 50
    pixels, which is what opening it gives. *)
Definition png_100_by_50 : str := lit "iVBORw0KGgoAAAANSUhEUgAAAGQAAAAy".

Definition wide_image (base64_str : str) : Result (Z * Z) := Ok (100, 50)%Z.

(** A source page of 200 by 200: one text block with the single word
    [ID] at [(10, 10, 50, 20)], and one ruled table at [(0, 0, 100, 100)]
    around it, whose only row holds that word and a value.  No page image is
    needed; asking for one would fail. *)
Definition id_span : PdfToJson.Span :=
  PdfToJson.mkSpan (lit "ID") (10, 10, 50, 20)%Q (lit "Arial") 10 0%Z.

Definition id_block : PdfToJson.Block :=
  PdfToJson.mkBlock 0%Z (10, 10, 50, 20)%Q
    [PdfToJson.mkLine (10, 10, 50, 20)%Q [id_span]].

Definition fitz_page_with_table : PdfToJson.FitzPage unit :=
  PdfToJson.mkFitzPage (Ok [id_block]) (Ok [id_block])
    (Raise (lit "no pixmap")).

Definition plumber_page_with_table : PdfToJson.PlumberPage :=
  PdfToJson.mkPlumberPage 200 200
    (Ok [PdfToJson.mkPlumberTable (Some (0, 0, 100, 100)%Q) (Ok tt)
           (Ok [[Some (lit "ID"); Some (lit "TE02.03.01")]])]).

(** A scanned page: no text block, no table, and a recognition that
    fails. *)
Definition fitz_page_scanned : PdfToJson.FitzPage unit :=
  PdfToJson.mkFitzPage (Ok []) (Ok []) (Ok tt).

Definition plumber_page_scanned : PdfToJson.PlumberPage :=
  PdfToJson.mkPlumberPage 200 200 (Ok []).

Definition preprocess_ok (pix : unit) : Result unit := Ok pix.

Definition tesseract_missing (img : unit) : Result str :=
  Raise (lit "tesseract is not installed").

End Examples.

(* ================================================================== *)
(** * The properties stated of the extraction *)
(* ================================================================== *)

Module Spec.
Import Py Num Exc PdfToJson.

(** ** Caption resolution *)

(** [sel] is the first smallest element of [l]: every element before it is
    strictly larger, no element after it is strictly smaller. *)
Definition first_min {A : Type} (lt : A -> A -> bool) (l : list A) (sel : A)
  : Prop :=
  exists pre post,
    l = pre ++ sel :: post
    /\ (forall x, In x pre -> lt sel x = true)
    /\ (forall x, In x post -> lt x sel = false).


(** ** The hierarchy *)

(** [a] may stand before [b]: [b] is not smaller than [a]. *)
Definition not_after {A : Type} (lt : A -> A -> bool) (a b : A) : Prop :=
  lt b a = false.

Definition descending (l : list Q) : Prop :=
  StronglySorted (fun a b => (b < a)%Q) l.

Definition pairwise_distinct (l : list Q) : Prop :=
  ForallOrdPairs (fun a b => ~ (a == b)%Q) l.

Definition size_gt (a b : Q) : bool := Qltb b a.

(** The rank of a size in a list of sizes: the number of the sizes above
    it. *)
Definition rank (q : Q) (sizes : list Q) : Z :=
  Z.of_nat (List.length (filter (fun s => Qltb q s) sizes)).

(** The level that the size and the boldness of a block give: the rank of
    the size, one less, but not below 0, for a bold block. *)
Definition base_level (font_sizes : list Q) (block : TextBlock) : Z :=
  if tb_is_bold block
  then Z.max 0 (rank (tb_size block) font_sizes - 1)
  else rank (tb_size block) font_sizes.

(** ** The sanitized file name *)

(** The characters of a sanitized name: word characters and hyphens. *)
Definition safe (isalnum_nonascii : N -> bool) (c : N) : bool :=
  isword isalnum_nonascii c || (c =? HYPHEN)%N.

Definition all_safe (isalnum_nonascii : N -> bool) (s : str) : Prop :=
  forall c, In c s -> safe isalnum_nonascii c = true.

(** The shape of what [sanitize_filename] returns. *)
Record sanitized (isalnum_nonascii : N -> bool) (o : str) : Prop :=
  mkSanitized {
  san_safe : all_safe isalnum_nonascii o;
  san_head : match o with c :: _ => c <> UNDERSCORE | [] => False end;
  san_length : (List.length o <= 50)%nat
}.

(** ** The OCR fallback *)

(** One of the three steps of the recognition raises. *)
Definition ocr_fails {Pixmap : Type} (preprocess : Pixmap -> Result Pixmap)
  (image_to_string : Pixmap -> Result str) (fitz_page : FitzPage Pixmap)
  : Prop :=
  raises (get_pixmap fitz_page)
  \/ (exists pix, get_pixmap fitz_page = Ok pix /\ raises (preprocess pix))
  \/ (exists pix img,
        get_pixmap fitz_page = Ok pix /\ preprocess pix = Ok img
        /\ raises (image_to_string img)).

End Spec.

(* ================================================================== *)
(** * The properties stated of the reconstruction *)
(* ================================================================== *)

Module RenderSpec.
Import Py Num Exc JsonToPdf.

Definition is_block_text (op : DrawOp) : bool :=
  match op with
  | BlockText _ _ => true
  | _ => false
  end.

End RenderSpec.

(* ================================================================== *)
(** * pdf_to_json.py: the images of a page *)
(* ================================================================== *)

Module PdfImages.
Import Py Num Exc PdfToJson.

(** An entry of [plumber_page.images]; a missing key reads as 0. *)
Record PlumberImage : Type := mkPlumberImage {
  pi_x0 : Q;
  pi_x1 : Q;
  pi_top : Q;
  pi_bottom : Q
}.

(** An entry of [page_data["images"]]. *)
Record ImageRecord : Type := mkImageRecord {
  im_image_id : str;
  im_base64 : str;
  im_file_path : str;
  im_bbox : BBox;
  im_width : Q;
  im_height : Q;
  im_caption : option str
}.

(** The box of a detected image: the corners put in order, and a box
    without width or height given the least size in both directions. *)
Definition image_box (img : PlumberImage) : BBox * Q * Q :=
  let x0 := pi_x0 img in
  let x1 := pi_x1 img in
  let top := pi_top img in
  let bottom := pi_bottom img in
  let '(x0, x1) := if Qltb x1 x0 then (x1, x0) else (x0, x1) in
  let '(top, bottom) :=
    if Qltb bottom top then (bottom, top) else (top, bottom) in
  let w := (x1 - x0)%Q in
  let h := (bottom - top)%Q in
  let min_size := 10%Q in
  if Qle_bool w 0 || Qle_bool h 0
  then
    let w := Qmax w min_size in
    let h := Qmax h min_size in
    ((x0, top, (x0 + w)%Q, (top + h)%Q), w, h)
  else ((x0, top, x1, bottom), w, h).

(** [fitz.Rect.is_empty] and [fitz.Rect.is_valid], as PyMuPDF documents
    them. *)
Definition rect_is_empty (r : BBox) : bool :=
  let '(x0, y0, x1, y1) := r in Qle_bool x1 x0 || Qle_bool y1 y0.

Definition rect_is_valid (r : BBox) : bool :=
  let '(x0, y0, x1, y1) := r in Qle_bool x0 x1 && Qle_bool y0 y1.

Definition default_image_name (page_number idx : nat) : str :=
  lit "img_page" ++ of_nat page_number ++ lit "_" ++ of_nat idx ++ lit ".png".

Section Images.

Variable isalnum_nonascii : N -> bool.
Variable image_caption_match : str -> bool.

(** Rasterising a clip region of the page, twice enlarged, and encoding the
    bytes in base64; writing the bytes under a file name of the image
    directory that is free, which gives the path written. *)
Variable render_clip : BBox -> Result str.
Variable save_file : str -> Result str.

(** The body of the loop for the image of index [idx]: the record appended,
    or nothing when an exception ends the iteration. *)
Definition extract_image (page_data : PageData) (idx : nat)
  (img_info : PlumberImage) : option ImageRecord :=
  let '(clip_rect, w, h) := image_box img_info in
  if rect_is_empty clip_rect || negb (rect_is_valid clip_rect) then None
  else
    match render_clip clip_rect with
    | Raise e => None
    | Ok b64_str =>
        let caption :=
          find_image_caption image_caption_match (pd_height page_data)
            (pd_text_blocks page_data) (map t_bbox (pd_tables page_data))
            clip_rect in
        let default_name :=
          default_image_name (pd_page_number page_data) idx in
        let filename :=
          match caption with
          | Some (c :: t) =>
              sanitize_filename isalnum_nonascii (c :: t) ++ lit ".png"
          | _ => default_name
          end in
        let saved :=
          match save_file filename with
          | Ok image_path => Ok image_path
          | Raise e => save_file default_name
          end in
        match saved with
        | Raise e2 => None
        | Ok image_path =>
            Some (mkImageRecord
                    (lit "img_" ++ of_nat (pd_page_number page_data)
                     ++ lit "_" ++ of_nat idx)
                    (lit "data:image/png;base64," ++ b64_str)
                    image_path clip_rect w h caption)
        end
    end.



End Images.

End PdfImages.

(* ================================================================== *)
(** * json_to_pdf.py: fonts and images *)
(* ================================================================== *)

Module Fonts.
Import Py Num Exc.

(** [is_korean_text] *)
Definition is_korean_text (text : str) : bool :=
  existsb (fun char => ((0xAC00 <=? char) && (char <=? 0xD7A3))%N) text.

(** The set [special_chars] of [has_special_characters], in the order of
    the source. *)
Definition special_chars : str :=
  [0x00B7; 0x25CB; 0x25A1; 0x25C7; 0x25C6; 0x2605; 0x2606; 0x25B2; 0x25BC;
   0x2660; 0x2663; 0x2665; 0x2666;
   0x203B; 0x25A3; 0x25CE; 0x261E; 0x25B6; 0x25C0; 0x25BD; 0x25B3; 0x25C1;
   0x25B7; 0x25CA; 0x2668;
   0x2103; 0x2109; 0x2116; 0x33A1; 0x33A2; 0x33A5; 0x33A6; 0x33A7; 0x33A8;
   0x33A9; 0x33AA; 0x33AB;
   0x33AC; 0x33AD; 0x33AE; 0x33AF; 0x33B0; 0x33B1; 0x33B2; 0x33B3; 0x33B4;
   0x33B5; 0x33B6; 0x33B7;
   0x33B8; 0x33B9; 0x33BA; 0x33BB; 0x33BC; 0x33BD; 0x33BE; 0x33BF; 0x33C0;
   0x33C1; 0x33C2; 0x33C3;
   0x2460; 0x2461; 0x2462; 0x2463; 0x2464; 0x2465; 0x2466; 0x2467; 0x2468;
   0x2469;
   0x2170; 0x2171; 0x2172; 0x2173; 0x2174; 0x2175; 0x2176; 0x2177; 0x2178;
   0x2179;
   0x2192; 0x2190; 0x2191; 0x2193; 0x2194; 0x2195; 0x2196; 0x2197; 0x2198;
   0x2199;
   0x2500; 0x2502; 0x250C; 0x2510; 0x2514; 0x2518; 0x251C; 0x2524; 0x252C;
   0x2534; 0x253C;
   0x2501; 0x2503; 0x250F; 0x2513; 0x2517; 0x251B; 0x2523; 0x252B; 0x2533;
   0x253B; 0x254B]%N.

Definition has_special_characters (text : str) : bool :=
  existsb (fun char => in_chars char special_chars) text.

(** [FONTS_REGISTERED]: [register_fonts] sets each of the four keys. *)
Record Registered : Type := mkRegistered {
  NotoSansKR : bool;
  NotoSansKR_Bold : bool;
  MalgunGothic : bool;
  MalgunGothic_Bold : bool
}.

(** [s.replace(old, new)] for a non-empty [old]: the occurrences are taken
    from the left and do not overlap; [skip] counts the characters of an
    occurrence still to pass. *)
Fixpoint replace_from (old new : str) (skip : nat) (s : str) : str :=
  match s with
  | [] => []
  | c :: t =>
      match skip with
      | S k => replace_from old new k t
      | O =>
          if PdfToJson.startswith old s
          then new ++ replace_from old new (List.length old - 1) t
          else c :: replace_from old new 0 t
      end
  end.

Definition replace (old new s : str) : str := replace_from old new 0 s.

(** [font_map.get(font_name, default_font)] *)
Definition font_map_get (font_name default_font : str) : str :=
  if str_eqb font_name (lit "Arial.Bold") then lit "Helvetica-Bold"
  else if str_eqb font_name (lit "Arial.Regular") then lit "Helvetica"
  else if str_eqb font_name (lit "Gulim.Regular") then lit "NotoSansKR"
  else default_font.

Section Selection.

(** [unicodedata.category(char) in ['So', 'Sm']]: a table of the Unicode
    database. *)
Variable symbol_category : N -> bool.

Variable fonts_registered : Registered.

(** [has_cjk_symbols] *)
Definition has_cjk_symbols (text : str) : bool :=
  existsb
    (fun char =>
       (symbol_category char && (0x2000 <? char)%N)
       || ((0x3000 <=? char) && (char <=? 0x303F))%N
       || ((0x2000 <=? char) && (char <=? 0x206F))%N)
    text.

Definition get_font_for_text (font_name text : str) (is_bold : bool)
  (default_font : str) : str :=
  let needs_unicode_font :=
    is_korean_text text || has_special_characters text
    || has_cjk_symbols text in
  if needs_unicode_font
  then
    if NotoSansKR fonts_registered
    then
      if is_bold && NotoSansKR_Bold fonts_registered
      then lit "NotoSansKR-Bold" else lit "NotoSansKR"
    else if MalgunGothic fonts_registered
    then
      if is_bold && MalgunGothic_Bold fonts_registered
      then lit "MalgunGothic-Bold" else lit "MalgunGothic"
    else if is_bold then lit "Helvetica-Bold" else lit "Helvetica"
  else
    let mapped_font := font_map_get font_name default_font in
    if is_bold && negb (PdfToJson.contains (lit "Bold") mapped_font)
    then replace (lit "Helvetica") (lit "Helvetica-Bold") mapped_font
    else mapped_font.

(** [test_font_compatibility] for the text and the size at hand: setting
    the font and measuring the text raise nothing. *)
Variable compatible : str -> bool.

Definition font_candidates (is_bold : bool) : list str :=
  (if NotoSansKR fonts_registered
   then [if is_bold && NotoSansKR_Bold fonts_registered
         then lit "NotoSansKR-Bold" else lit "NotoSansKR"]
   else [])
  ++ (if MalgunGothic fonts_registered
      then [if is_bold && MalgunGothic_Bold fonts_registered
            then lit "MalgunGothic-Bold" else lit "MalgunGothic"]
      else [])
  ++ [if is_bold then lit "Helvetica-Bold" else lit "Helvetica";
      if is_bold then lit "Times-Bold" else lit "Times-Roman";
      if is_bold then lit "Courier-Bold" else lit "Courier"].

Definition get_fallback_font_for_special_chars (is_bold : bool) : str :=
  match find compatible (font_candidates is_bold) with
  | Some font => font
  | None => if is_bold then lit "Helvetica-Bold" else lit "Helvetica"
  end.

(** The font with which a text block or a cell is set:
    [get_font_for_text], and the fall-back when that font fails the test. *)
Definition select_font (font_name text : str) (is_bold : bool) : str :=
  let pdf_font := get_font_for_text font_name text is_bold (lit "Helvetica") in
  if compatible pdf_font then pdf_font
  else get_fallback_font_for_special_chars is_bold.

End Selection.

End Fonts.

Module JsonImages.
Import Py Num Exc.

(** An entry of [page_info["images"]]: the base64 text, empty when absent,
    and the bounding box, a list of any length. *)
Record ImageEntry : Type := mkImageEntry {
  ie_base64 : str;
  ie_bbox : list Q
}.

(** The call [pdf.drawImage(rdr, final_x, final_y, width, height)] for the
    image of index [idx]. *)
Inductive ImageOp : Type :=
| DrawImage (idx : nat) (final_x final_y new_w new_h : Q).

Definition COMMA : N := 0x2C%N.

(** The text after the last comma, without whitespace. *)
Definition base64_clean (base64_str : str) : str :=
  let base64_str_clean :=
    if in_chars COMMA base64_str
    then last (PdfToJson.split_on COMMA base64_str) []
    else base64_str in
  re_remove isspace base64_str_clean.

Section ImageArithmetic.

(** The rounding of the arithmetic. *)
Variable fl : Q -> Q.

(** The test of [is_inside_any_table] against one box. *)
Definition inside_box (margin x0 y0 x1 y1 : Q) (box : list Q) : bool :=
  match box with
  | [bx0; by0; bx1; by1] =>
      Qle_bool (fl (bx0 - margin)) x0 && Qle_bool x1 (fl (bx1 + margin))
      && Qle_bool (fl (by0 - margin)) y0 && Qle_bool y1 (fl (by1 + margin))
  | _ => false
  end.

Definition is_inside_any_table (table_boxes : list (list Q))
  (x0 y0 x1 y1 : Q) : bool :=
  existsb (inside_box 2 x0 y0 x1 y1) table_boxes.

Section RenderImages.

(** Decoding the base64 text and opening the image: its size in pixels, or
    an exception. *)
Variable open_image : str -> Result (Z * Z).

(** The body of the loop for the image of index [idx]: the drawing call and
    the box appended to [rendered_image_boxes], or nothing. *)
Definition render_image (page_w page_h : Q) (table_boxes : list (list Q))
  (idx : nat) (img : ImageEntry) : option (ImageOp * list Q) :=
  match ie_base64 img with
  | [] => None
  | base64_str =>
      match ie_bbox img with
      | x0 :: y0 :: x1 :: y1 :: _ =>
          let '(x0, x1) := if Qltb x1 x0 then (x1, x0) else (x0, x1) in
          let '(y0, y1) := if Qltb y1 y0 then (y1, y0) else (y0, y1) in
          let w := fl (x1 - x0) in
          let h := fl (y1 - y0) in
          let y_new := fl (page_h - y1) in
          let min_size := 20%Q in
          let '(w, h, x1, y1, y_new) :=
            if Qle_bool w 0 || Qle_bool h 0
            then
              let w := Qmax w min_size in
              let h := Qmax h min_size in
              (w, h, fl (x0 + w), fl (y0 + h), fl (page_h - fl (y0 + h)))
            else (w, h, x1, y1, y_new) in
          if is_inside_any_table table_boxes x0 y0 x1 y1 then None
          else
            let x0 := if Qltb x0 0 then 0%Q else x0 in
            let y_new := if Qltb y_new 0 then 0%Q else y_new in
            let w :=
              if Qltb page_w (fl (x0 + w))
              then Qmax (fl (fl (page_w - x0) - 5)) min_size
              else w in
            let h :=
              if Qltb page_h (fl (y_new + h))
              then Qmax (fl (fl (page_h - y_new) - 5)) min_size
              else h in
            match open_image (base64_clean base64_str) with
            | Raise e => None
            | Ok (orig_w, orig_h) =>
                if (orig_w <=? 0)%Z || (orig_h <=? 0)%Z then None
                else
                  let scale_x := fl (w / inject_Z orig_w) in
                  let scale_y := fl (h / inject_Z orig_h) in
                  let scale := Qmin scale_x scale_y in
                  let new_w := Qmax (fl (inject_Z orig_w * scale)) min_size in
                  let new_h := Qmax (fl (inject_Z orig_h * scale)) min_size in
                  let x_offset := fl (fl (w - new_w) / 2) in
                  let y_offset := fl (fl (h - new_h) / 2) in
                  let final_x := fl (x0 + x_offset) in
                  let final_y := fl (y_new + y_offset) in
                  if Qltb final_x 0 || Qltb final_y 0
                     || Qltb page_w (fl (final_x + new_w))
                     || Qltb page_h (fl (final_y + new_h))
                  then None
                  else Some (DrawImage idx final_x final_y new_w new_h,
                             [x0; y0; x1; y1])
            end
      | _ => None
      end
  end.

Fixpoint render_images_loop (page_w page_h : Q)
  (table_boxes : list (list Q)) (idx : nat) (images : list ImageEntry)
  : list ImageOp * list (list Q) :=
  match images with
  | [] => ([], [])
  | img :: rest =>
      let '(ops, boxes) :=
        render_images_loop page_w page_h table_boxes (S idx) rest in
      match render_image page_w page_h table_boxes idx img with
      | Some (op, box) => (op :: ops, box :: boxes)
      | None => (ops, boxes)
      end
  end.

(** [render_images_enhanced], which [convert_json_to_pdf] calls with the
    pair that [draw_tables_enhanced] returned. *)
Definition render_images_enhanced (images : list ImageEntry)
  (page_w page_h : Q) (rendered_tables : list (list Q) * list (list Q))
  : list ImageOp * list (list Q) :=
  let '(table_boxes, _) := rendered_tables in
  render_images_loop page_w page_h table_boxes 0 images.

End RenderImages.

End ImageArithmetic.

End JsonImages.

Module JsonPages.
Import Py Num Exc JsonToPdf JsonImages.

(** An entry of [doc_info["pages"]]: the page size, the tables, the images
    with their base64 text, and the text blocks. *)
Record Page : Type := mkPage {
  page_width : Q;
  page_height : Q;
  page_tables : list TableInfo;
  page_images : list ImageEntry;
  page_text_blocks : list BlockInfo
}.

(** What [draw_tables_enhanced] and [render_text_enhanced] read of a
    page. *)
Definition page_info_of (page : Page) : PageInfo :=
  mkPageInfo (page_tables page)
    (map (fun img => mkImageInfo (ie_bbox img)) (page_images page))
    (page_text_blocks page).

(** A drawing call on the canvas of a page. *)
Inductive CanvasOp : Type :=
| Drawn (op : DrawOp)
| DrawnImage (op : ImageOp).

Section Conversion.

Variable fl : Q -> Q.

(** Decoding and opening the image of a table, and the image of an entry of
    the images. *)
Variable open_table_image : str -> Result (Z * Z).
Variable open_image : str -> Result (Z * Z).

(** The body of the loop of [convert_json_to_pdf] for one page: the
    tables, then the images, then the text. *)
Definition convert_page (page : Page) : list CanvasOp :=
  let page_info := page_info_of page in
  let page_w := page_width page in
  let page_h := page_height page in
  let '(table_ops, rendered_tables) :=
    draw_tables_enhanced fl open_table_image page_info page_w page_h in
  let '(image_ops, _) :=
    render_images_enhanced fl open_image (page_images page) page_w page_h
      rendered_tables in
  let text_ops := render_text_enhanced fl page_info rendered_tables in
  map Drawn table_ops ++ map DrawnImage image_ops ++ map Drawn text_ops.

End Conversion.

End JsonPages.

(* ================================================================== *)
(** * From the extraction to the reconstruction *)
(* ================================================================== *)

Module RoundTrip.
Import Py Num Exc.

(** What [json_to_pdf.py] reads of a page that [pdf_to_json.py] wrote.
    [save_json] writes the dictionaries as they are.  The dictionary of a
    table has the keys [id], [bbox], [caption], [image_path], [raw_data],
    [structured_data] and [summary], and neither [image] nor [cells], which
    the reconstruction looks up; an image has its [bbox] of four numbers and
    its [base64] text; a text block has its text and its four
    coordinates. *)
Definition table_info_of (t : PdfToJson.Table) : JsonToPdf.TableInfo :=
  JsonToPdf.mkTableInfo [] (Some (PdfToJson.t_bbox t)) [].

Definition box_list (b : PdfToJson.BBox) : list Q :=
  let '(x0, y0, x1, y1) := b in [x0; y0; x1; y1].

Definition image_entry_of (image : PdfImages.ImageRecord)
  : JsonImages.ImageEntry :=
  JsonImages.mkImageEntry (PdfImages.im_base64 image)
    (box_list (PdfImages.im_bbox image)).

Definition block_info_of (b : PdfToJson.TextBlock) : JsonToPdf.BlockInfo :=
  JsonToPdf.mkBlockInfo (PdfToJson.tb_text b) (PdfToJson.tb_x0 b)
    (PdfToJson.tb_y0 b) (PdfToJson.tb_x1 b) (PdfToJson.tb_y1 b).

Definition page_of (page_data : PdfToJson.PageData)
  (images : list PdfImages.ImageRecord) : JsonPages.Page :=
  JsonPages.mkPage (PdfToJson.pd_width page_data)
    (PdfToJson.pd_height page_data)
    (map table_info_of (PdfToJson.pd_tables page_data))
    (map image_entry_of images)
    (map block_info_of (PdfToJson.pd_text_blocks page_data)).

End RoundTrip.

(* ================================================================== *)
(** * Further properties stated of the two programs *)
(* ================================================================== *)

Module ExtraSpec.
Import Py Num Exc PdfToJson.

(** ** Tables *)

(** The grid that a structured table stands for: a pair with an empty value
    is a row of one cell. *)
Definition grid_of (d : StructuredData) : list (list str) :=
  match d with
  | SD_empty => []
  | SD_key_value _ data =>
      map (fun kv => match snd kv with
                     | [] => [fst kv]
                     | v => [fst kv; v]
                     end) data
  | SD_structured_table _ headers rows => headers :: rows
  | SD_single_row _ data => [data]
  | SD_unknown data => data
  end.

(** A grid as [_clean_table_data] leaves it: no empty row, no empty cell,
    no cell with whitespace at either end. *)
Definition clean_grid (g : list (list str)) : Prop :=
  forall row, In row g ->
    row <> [] /\ forall cell, In cell row -> cell <> [] /\ strip cell = cell.

(** ** Text blocks *)

(** [sub in s] *)
Definition infix (sub s : str) : Prop :=
  exists pre post, s = pre ++ sub ++ post.

(** The merged block [m] starts with the block [b]: it has its id, its top
    left corner and its font. *)
Definition same_head (m b : TextBlock) : Prop :=
  tb_id m = tb_id b /\ tb_x0 m = tb_x0 b /\ tb_y0 m = tb_y0 b
  /\ tb_font m = tb_font b /\ tb_is_bold m = tb_is_bold b
  /\ tb_size m = tb_size b.


(** ** Captions *)

(** The box [inner] lies within the box [outer]. *)
Definition inside (inner outer : BBox) : Prop :=
  let '(tx0, ty0, tx1, ty1) := inner in
  let '(rx0, ry0, rx1, ry1) := outer in
  (rx0 <= tx0 /\ tx1 <= rx1 /\ ry0 <= ty0 /\ ty1 <= ry1)%Q.

Definition bbox_of (block : TextBlock) : BBox :=
  (tb_x0 block, tb_y0 block, tb_x1 block, tb_y1 block).

(** The priority of a table caption candidate: one step for a text that
    matches the caption pattern, one step for a bold block. *)
Definition table_priority (table_caption_match : str -> bool)
  (block : TextBlock) : Z :=
  ((if table_caption_match
         (re_sub_plus isspace (lit " ") (strip (strip (tb_text block))))
    then -1 else 0)
   + (if tb_is_bold block then -1 else 0))%Z.

(** ** The reconstruction *)

(** The index of the text block that an operation draws. *)
Definition block_index (op : JsonToPdf.DrawOp) : option nat :=
  match op with
  | JsonToPdf.BlockText i _ => Some i
  | _ => None
  end.

(** The indices are strictly increasing. *)
Definition increasing (l : list nat) : Prop := StronglySorted Nat.lt l.

(** ** Images *)

(** A box with its corners in order and with an interior. *)
Definition proper_box (b : BBox) : Prop :=
  let '(x0, y0, x1, y1) := b in (x0 < x1 /\ y0 < y1)%Q.

(** ** Spans *)

(** The number of characters that the spans set in the font. *)
Definition chars_in_font (font : str) (spans : list Span) : nat :=
  fold_right
    (fun span acc =>
       if str_eqb (span_font span) font
       then (List.length (span_text span) + acc)%nat else acc)
    0%nat spans.

(** The count that a font has in the counter of [_get_main_font]. *)
Definition count_of (font : str) (counts : list (str * nat)) : nat :=
  match find (fun p => str_eqb (fst p) font) counts with
  | Some p => snd p
  | None => 0%nat
  end.

End ExtraSpec.

Module RoundedSpec.
Import Py Num Exc PdfToJson Spec ExtraSpec.

Section RoundedProperties.

(** The rounding of the arithmetic. *)
Variable fl : Q -> Q.

(** ** The hierarchy *)

(** [block] starts more than 5 units to the right of [prev]: its left edge
    is beyond the sum of the left edge of [prev] and 5, as the program
    computes that sum. *)
Definition indented (prev block : TextBlock) : Prop :=
  (fl (tb_x0 prev + 5) < tb_x0 block)%Q.

(** [b] is [block] but for its level and its parent. *)
Definition same_content (b block : TextBlock) : Prop :=
  tb_id b = tb_id block /\ tb_text b = tb_text block
  /\ tb_x0 b = tb_x0 block /\ tb_y0 b = tb_y0 block
  /\ tb_x1 b = tb_x1 block /\ tb_y1 b = tb_y1 block
  /\ tb_font b = tb_font block /\ tb_is_bold b = tb_is_bold block
  /\ tb_size b = tb_size block.

(** The level and the parent that [b] has, where [b] is the block of the
    result for [block] and [prev] is the block of the result just before
    it. *)
Definition placed (font_sizes : list Q) (prev : option TextBlock)
  (block b : TextBlock) : Prop :=
  match prev with
  | Some p =>
      (indented p block
       /\ tb_level b = (tb_level p + 1)%Z /\ tb_parent_id b = Some (tb_id p))
      \/ (~ indented p block
          /\ tb_level b = base_level font_sizes block
          /\ tb_parent_id b = None)
  | None => tb_level b = base_level font_sizes block /\ tb_parent_id b = None
  end.

(** ** Caption search *)

(** The middle of two numbers, and the share of the page height that
    bounds a distance, as the program computes them. *)
Definition centre (a b : Q) : Q := fl (fl (a + b) / 2).

Definition share (percent page_height : Q) : Q :=
  fl (page_height * fl percent).

(** The distance from the bottom edge of the block up to the top edge of
    the table, the distance between the centres of the two, and half the
    width of the table. *)
Definition y_distance (table_bbox : BBox) (block : TextBlock) : Q :=
  let '(x0, y0, x1, y1) := table_bbox in fl (y0 - tb_y1 block).

Definition x_distance (table_bbox : BBox) (block : TextBlock) : Q :=
  let '(x0, y0, x1, y1) := table_bbox in
  Qabs (fl (centre (tb_x0 block) (tb_x1 block) - centre x0 x1)).

Definition half_width (table_bbox : BBox) : Q :=
  let '(x0, y0, x1, y1) := table_bbox in fl (fl (x1 - x0) / 2).

(** The three conditions on the place of a block above a table. *)
Definition above_table (page_height : Q) (table_bbox : BBox)
  (block : TextBlock) : Prop :=
  let '(x0, y0, x1, y1) := table_bbox in
  (tb_y1 block <= y0)%Q
  /\ (y_distance table_bbox block <= share (15 # 100) page_height)%Q
  /\ (x_distance table_bbox block <= half_width table_bbox)%Q.

(** The place of a block that may be the caption of an image: in no table,
    and with its top or its bottom edge in the band of the image grown by
    10% of the page height. *)
Definition near_image (page_height : Q) (table_bboxes : list BBox)
  (image_bbox : BBox) (block : TextBlock) : Prop :=
  let '(x0, y0, x1, y1) := image_bbox in
  let threshold := share (1 # 10) page_height in
  (forall table_bbox,
     In table_bbox table_bboxes -> ~ inside (bbox_of block) table_bbox)
  /\ ((fl (y0 - threshold) <= tb_y1 block
       /\ tb_y1 block <= fl (y1 + threshold))
      \/ (fl (y0 - threshold) <= tb_y0 block
          /\ tb_y0 block <= fl (y1 + threshold)))%Q.

(** The distance of a block to an image: from its bottom edge to the top
    of the image or from its top edge to the bottom of the image,
    whichever is less. *)
Definition image_distance (image_bbox : BBox) (block : TextBlock) : Q :=
  let '(x0, y0, x1, y1) := image_bbox in
  Qmin (Qabs (fl (tb_y1 block - y0))) (Qabs (fl (y1 - tb_y0 block))).

End RoundedProperties.

End RoundedSpec.

Module PageSpec.
Import Py Num Exc JsonToPdf JsonImages JsonPages.

(** The text block of index [i] is drawn. *)
Definition text_drawn (ops : list CanvasOp) (i : nat) : Prop :=
  exists t, In (Drawn (BlockText i t)) ops.

(** The rectangle that the image of a table covers on the page, in the
    coordinates of the JSON.  The call
    [pdf.drawImage(rdr, x, y, width, height)] puts the lower left corner of
    the image at [(x, y)] of the canvas, whose origin is the lower left
    corner of the page; the boxes of the JSON count [y] from the top of the
    page. *)
Definition painted_box (page_h : Q) (op : DrawOp) : option (list Q) :=
  match op with
  | TableImage _ x y width height =>
      Some [x; (page_h - (y + height))%Q; (x + width)%Q; (page_h - y)%Q]
  | _ => None
  end.

(** The bounding box of the block lies within [box]. *)
Definition within (blk : BlockInfo) (box : list Q) : Prop :=
  match box with
  | [bx0; by0; bx1; by1] =>
      (bx0 <= blk_x0 blk /\ blk_x1 blk <= bx1
       /\ by0 <= blk_y0 blk /\ blk_y1 blk <= by1)%Q
  | _ => False
  end.

(** The index of the image that an operation draws. *)
Definition image_index (op : ImageOp) : nat :=
  match op with
  | DrawImage idx _ _ _ _ => idx
  end.

End PageSpec.

Module MoreExamples.
Import Py Num Exc.

(** A recognition that reads two lines, the second one indented, and a
    final newline. *)
Definition tesseract_two_lines (img : unit) : Result str :=
  Ok (lit "Invoice 42" ++ [PdfToJson.NEWLINE] ++ lit "  Total 10 "
      ++ [PdfToJson.NEWLINE]).

(** An empty page of 200 by 200 with the number 1, as [extract] makes it
    before the text is read. *)
Definition empty_page_data : PdfToJson.PageData :=
  PdfToJson.mkPageData 1 200 200 [] [] [].


(** A table of 100 by 100 at the top left corner of a page, with the
    image of 100 by 50 pixels. *)
Definition square_table : JsonToPdf.TableInfo :=
  JsonToPdf.mkTableInfo Examples.png_100_by_50 (Some (0, 0, 100, 100)%Q) [].

(** An image that pdfplumber reports with its corners exchanged, and a
    page on which every clip can be rasterised and every file written. *)
Definition flipped_image : PdfImages.PlumberImage :=
  PdfImages.mkPlumberImage 120 20 90 30.

Definition render_ok (clip : PdfToJson.BBox) : Result str :=
  Ok Examples.png_100_by_50.

Definition save_ok (filename : str) : Result str :=
  Ok (lit "extracted_images/" ++ filename).

(** An image entry of a page of 200 by 200: a box of 100 by 60 with the
    image of 100 by 50 pixels, behind the prefix of a data URL. *)
Definition image_entry : JsonImages.ImageEntry :=
  JsonImages.mkImageEntry
    (lit "data:image/png;base64," ++ Examples.png_100_by_50)
    [20; 30; 120; 90]%Q.

(** A table of 100 by 100 whose bounding box lies to the right of a page
    200 wide, with the same image. *)
Definition outside_table : JsonToPdf.TableInfo :=
  JsonToPdf.mkTableInfo Examples.png_100_by_50 (Some (300, 0, 400, 100)%Q) [].

(** A page of 200 by 200 with the table above, which has no cells, with no
    image, and with one text block inside the bounding box of the table, in
    its lower half. *)
Definition page_with_table : JsonPages.Page :=
  JsonPages.mkPage 200 200 [square_table] []
    [JsonToPdf.mkBlockInfo (lit "Hello") 10 60 50 70].

(** The same page with the text block in the upper half of the table. *)
Definition page_with_upper_text : JsonPages.Page :=
  JsonPages.mkPage 200 200 [square_table] []
    [JsonToPdf.mkBlockInfo (lit "Hello") 10 10 50 20].

(** Two blocks of a page, the second one lower and further to the right:
    they start at the doubles of 0.7 and of 5.7. *)
Definition margin_block : PdfToJson.TextBlock :=
  PdfToJson.mkTextBlock (lit "text_1_0") (lit "Items")
    (Binary64.round64 (7 # 10)) 100 60 112 (lit "Arial") false 10 0%Z None.

Definition item_block : PdfToJson.TextBlock :=
  PdfToJson.mkTextBlock (lit "text_1_1") (lit "first item")
    (Binary64.round64 (57 # 10)) 120 80 132 (lit "Arial") false 10 0%Z None.

(** A page 842 high with a table whose top edge is at 127, and a block
    that spans the table and ends at the double of 0.7. *)
Definition low_table_bbox : PdfToJson.BBox := (100, 127, 500, 300)%Q.

Definition top_block : PdfToJson.TextBlock :=
  PdfToJson.mkTextBlock (lit "text_1_0") (lit "Table 1") 100 0 500
    (Binary64.round64 (7 # 10)) (lit "Arial") false 10 0%Z None.

End MoreExamples.

(* ================================================================== *)
(** * Facts about Python strings *)
(* ================================================================== *)

Module PyFacts.
Import Py.

Lemma lit_space : lit " " = [SP].
Proof. reflexivity. Qed.

Lemma isspace_SP : isspace SP = true.
Proof. reflexivity. Qed.

(** ** [lstrip_by] and [rstrip_by] *)

Lemma lstrip_by_head (p : N -> bool) (s : str) :
  match lstrip_by p s with
  | [] => True
  | c :: _ => p c = false
  end.
Proof.
  induction s as [|c t IH]; simpl; [exact I|].
  destruct (p c) eqn:E; [exact IH | exact E].
Qed.

Lemma lstrip_by_id (p : N -> bool) (s : str) :
  match s with [] => True | c :: _ => p c = false end ->
  lstrip_by p s = s.
Proof.
  destruct s as [|c t]; simpl; [reflexivity|].
  intros ->. reflexivity.
Qed.

Lemma lstrip_by_incl (p : N -> bool) (s : str) (c : N) :
  In c (lstrip_by p s) -> In c s.
Proof.
  induction s as [|a t IH]; simpl; [tauto|].
  destruct (p a); simpl; tauto.
Qed.

Lemma rstrip_by_incl (p : N -> bool) (s : str) (c : N) :
  In c (rstrip_by p s) -> In c s.
Proof.
  revert c. induction s as [|a t IH]; simpl; [tauto|]. intros c.
  destruct (rstrip_by p t) as [|b t'] eqn:E.
  - destruct (p a); simpl; tauto.
  - intros [H|H]; [now left | right; apply IH; exact H].
Qed.

Lemma rstrip_by_all (p : N -> bool) (s : str) :
  rstrip_by p s = [] <-> forallb p s = true.
Proof.
  induction s as [|a t IH]; simpl; [tauto|].
  destruct (rstrip_by p t) as [|b t'] eqn:E.
  - destruct (p a); simpl.
    + tauto.
    + split; discriminate.
  - split; [discriminate|].
    rewrite andb_true_iff. intros [_ H]. apply IH in H. discriminate.
Qed.

Lemma rstrip_by_last (p : N -> bool) (s : str) :
  forall d, rstrip_by p s <> [] -> p (last (rstrip_by p s) d) = false.
Proof.
  induction s as [|a t IH]; simpl; intros d H; [congruence|].
  destruct (rstrip_by p t) as [|b t'] eqn:E.
  - destruct (p a) eqn:Ea; [congruence | simpl; exact Ea].
  - change (last (a :: b :: t') d) with (last (b :: t') d).
    apply IH. discriminate.
Qed.

Lemma rstrip_by_id (p : N -> bool) (s : str) :
  (forall d, s <> [] -> p (last s d) = false) -> rstrip_by p s = s.
Proof.
  induction s as [|a t IH]; simpl; intros H; [reflexivity|].
  destruct t as [|b t'].
  - simpl. specialize (H a). simpl in H. rewrite H; [reflexivity | discriminate].
  - rewrite IH.
    + reflexivity.
    + intros d _. specialize (H d). apply H. discriminate.
Qed.

Lemma rstrip_by_none (p : N -> bool) (s : str) :
  (forall c, In c s -> p c = false) -> rstrip_by p s = s.
Proof.
  intros H. apply rstrip_by_id. intros d Hs.
  apply H. destruct s as [|a t]; [congruence|].
  apply (@exists_last _ (a :: t)) in Hs. destruct Hs as (l' & x & ->).
  rewrite last_last. apply in_or_app. right. now left.
Qed.

Lemma lstrip_by_none (p : N -> bool) (s : str) :
  (forall c, In c s -> p c = false) -> lstrip_by p s = s.
Proof.
  intros H. apply lstrip_by_id. destruct s; [exact I|]. apply H. now left.
Qed.

Lemma fields_not_nil (s : str) : fields s <> [].
Proof.
  destruct s as [|c t]; simpl; [discriminate|].
  destruct (isspace c); [discriminate|].
  destruct (fields t); discriminate.
Qed.

Lemma split_cons_space (c : N) (t : str) :
  isspace c = true -> split (c :: t) = split t.
Proof. intros H. unfold split. simpl. rewrite H. reflexivity. Qed.

Lemma split_cons_word (c : N) (t : str) :
  isspace c = false ->
  split (c :: t) =
  match fields t with
  | w :: ws => (c :: w) :: filter nonempty ws
  | [] => [[c]]
  end.
Proof.
  intros H. unfold split. simpl. rewrite H.
  destruct (fields t); reflexivity.
Qed.

(** Every word of [split] is a non-empty run of non-whitespace characters. *)
Lemma fields_no_space (s : str) (w : str) (c : N) :
  In w (fields s) -> In c w -> isspace c = false.
Proof.
  revert w. induction s as [|a t IH]; simpl; intros w Hw Hc.
  - destruct Hw as [<-|[]]. destruct Hc.
  - destruct (isspace a) eqn:Ea.
    + destruct Hw as [<-|Hw]; [destruct Hc | eapply IH; eauto].
    + destruct (fields t) as [|w0 ws] eqn:Ef.
      * destruct Hw as [<-|[]]. destruct Hc as [<-|[]]. exact Ea.
      * destruct Hw as [<-|Hw].
        -- destruct Hc as [<-|Hc]; [exact Ea|]. apply (IH w0); [now left | exact Hc].
        -- apply (IH w); [now right | exact Hc].
Qed.

Lemma split_word (s : str) (w : str) :
  In w (split s) -> w <> [] /\ forall c, In c w -> isspace c = false.
Proof.
  unfold split. rewrite filter_In. intros [Hw Hn]. split.
  - destruct w; [discriminate | discriminate].
  - intros c. eapply fields_no_space; eauto.
Qed.

Lemma join_cons_cons (sep : str) (c : N) (w : str) (l : list str) :
  join sep ((c :: w) :: l) = c :: join sep (w :: l).
Proof. destruct l; reflexivity. Qed.

Lemma join_nil_inv (sep : str) (l : list str) :
  (forall w, In w l -> w <> []) -> join sep l = [] -> l = [].
Proof.
  destruct l as [|w l]; [reflexivity|]. intros H E.
  exfalso. apply (H w); [now left|].
  destruct l; simpl in E; [exact E|].
  apply app_eq_nil in E. tauto.
Qed.

Lemma join_split_nil (s : str) : join [SP] (split s) = [] -> split s = [].
Proof.
  apply join_nil_inv. intros w Hw. apply split_word in Hw. tauto.
Qed.

Lemma join_split_head (s : str) :
  match join [SP] (split s) with
  | [] => True
  | c :: _ => isspace c = false
  end.
Proof.
  destruct (split s) as [|w l] eqn:E; [exact I|].
  assert (Hw : In w (split s)) by (rewrite E; now left).
  apply split_word in Hw. destruct Hw as [Hn Hc].
  destruct w as [|c w]; [congruence|].
  rewrite join_cons_cons. apply Hc. now left.
Qed.

Lemma rstrip_sub_runs (t : str) :
  rstrip_by isspace (sub_runs isspace [SP] true t) = join [SP] (split t)
  /\ rstrip_by isspace (sub_runs isspace [SP] false t) =
     (if starts_with_space t
      then match split t with [] => [] | _ => SP :: join [SP] (split t) end
      else join [SP] (split t)).
Proof.
  induction t as [|c t [IHt IHf]].
  - split; reflexivity.
  - assert (Hsp : isspace c = true ->
       rstrip_by isspace (SP :: sub_runs isspace [SP] true t) =
       match split t with [] => [] | _ => SP :: join [SP] (split t) end).
    { intros _. simpl. rewrite IHt.
      destruct (split t) as [|w l] eqn:E; [reflexivity|].
      destruct (join [SP] (w :: l)) eqn:EJ; [|reflexivity].
      rewrite <- E in EJ. apply join_split_nil in EJ. congruence. }
    assert (Hw : isspace c = false ->
       rstrip_by isspace (c :: sub_runs isspace [SP] false t) =
       join [SP] (split (c :: t))).
    { intros Ec. simpl. rewrite Ec. rewrite IHf.
      rewrite (@split_cons_word c t Ec).
      destruct t as [|c' t'].
      - reflexivity.
      - simpl starts_with_space. destruct (isspace c') eqn:Ec'.
        + rewrite (@split_cons_space c' t' Ec'). simpl fields. rewrite Ec'.
          fold (split t').
          destruct (split t'); reflexivity.
        + pose proof (@split_cons_word c' t' Ec') as Es.
          simpl fields. rewrite Ec'.
          destruct (fields t') as [|w' ws'] eqn:Ef.
          * exfalso. eapply fields_not_nil; eauto.
          * rewrite Es. rewrite !join_cons_cons.
            reflexivity. }
    split.
    + simpl sub_runs. destruct (isspace c) eqn:Ec.
      * rewrite IHt. rewrite split_cons_space by exact Ec. reflexivity.
      * apply Hw. reflexivity.
    + simpl sub_runs. simpl starts_with_space. destruct (isspace c) eqn:Ec.
      * rewrite split_cons_space by exact Ec. apply Hsp. reflexivity.
      * apply Hw. reflexivity.
Qed.

Theorem strip_sub_runs_split (s : str) :
  strip (re_sub_plus isspace [SP] s) = join [SP] (split s).
Proof.
  unfold strip, strip_by, re_sub_plus.
  rewrite (proj2 (rstrip_sub_runs s)).
  pose proof (join_split_head s) as Hh.
  destruct (starts_with_space s).
  - destruct (split s) as [|w l] eqn:E; [reflexivity|].
    change (lstrip_by isspace (SP :: ?x)) with (lstrip_by isspace x).
    apply lstrip_by_id. exact Hh.
  - apply lstrip_by_id. exact Hh.
Qed.

Lemma in_join (sep : str) (l : list str) (c : N) :
  In c (join sep l) -> In c sep \/ exists w, In w l /\ In c w.
Proof.
  induction l as [|w l IH]; simpl; [tauto|].
  destruct l as [|w' l'].
  - intros H. right. exists w. split; [now left | exact H].
  - intros H. apply in_app_or in H. destruct H as [H|H].
    + right. exists w. split; [now left | exact H].
    + apply in_app_or in H. destruct H as [H|H]; [now left|].
      destruct (IH H) as [H'|(w0 & Hw0 & Hc)]; [now left|].
      right. exists w0. split; [now right | exact Hc].
Qed.

Lemma fields_incl (s : str) (w : str) (c : N) :
  In w (fields s) -> In c w -> In c s.
Proof.
  revert w. induction s as [|a t IH]; simpl; intros w Hw Hc.
  - destruct Hw as [<-|[]]. destruct Hc.
  - destruct (isspace a).
    + destruct Hw as [<-|Hw]; [destruct Hc | right; eapply IH; eauto].
    + destruct (fields t) as [|w0 ws] eqn:Ef.
      * destruct Hw as [<-|[]]. destruct Hc as [<-|[]]. now left.
      * destruct Hw as [<-|Hw].
        -- destruct Hc as [<-|Hc]; [now left|]. right.
           apply (IH w0); [now left | exact Hc].
        -- right. apply (IH w); [now right | exact Hc].
Qed.

Lemma split_incl (s : str) (w : str) (c : N) :
  In w (split s) -> In c w -> In c s.
Proof.
  unfold split. rewrite filter_In. intros [Hw _]. now apply fields_incl.
Qed.

(** The characters of [" ".join(s.split())]. *)
Lemma in_join_split (s : str) (c : N) :
  In c (join [SP] (split s)) -> c = SP \/ (In c s /\ isspace c = false).
Proof.
  intros H. apply in_join in H. destruct H as [[<-|[]]|(w & Hw & Hc)].
  - now left.
  - right. split.
    + eapply split_incl; eauto.
    + apply split_word in Hw. now apply Hw.
Qed.

Lemma split_words_ok (s : str) : words_ok (split s).
Proof. intros w. apply split_word. Qed.

Lemma words_ok_tail (w : str) (l : list str) :
  words_ok (w :: l) -> words_ok l.
Proof. intros H w' Hw'. apply H. now right. Qed.

Lemma words_ok_peel (c : N) (w : str) (l : list str) :
  w <> [] -> words_ok ((c :: w) :: l) -> words_ok (w :: l).
Proof.
  intros Hn H w' [<-|Hw'].
  - split; [exact Hn|]. intros c' Hc'. apply (H (c :: w)); [now left | now right].
  - apply H. now right.
Qed.

Lemma adjacent_cons_other (a c : N) (s : str) :
  c <> a -> adjacent a (c :: s) = adjacent a s.
Proof.
  intros H. destruct s as [|y t]; [reflexivity|].
  simpl. apply N.eqb_neq in H. rewrite H. reflexivity.
Qed.

Lemma not_space_neq_SP (c : N) : isspace c = false -> c <> SP.
Proof. intros H ->. discriminate. Qed.

Lemma adjacent_join (l : list str) :
  words_ok l -> adjacent SP (join [SP] l) = false.
Proof.
  induction l as [|w l IH]; intros Hok; [reflexivity|].
  assert (Hw := Hok w (or_introl eq_refl)). destruct Hw as [Hn Hc].
  induction w as [|c w IHw]; [congruence|].
  rewrite join_cons_cons.
  rewrite adjacent_cons_other
    by (apply not_space_neq_SP, Hc; now left).
  destruct w as [|c' w'].
  - destruct l as [|w2 l2]; [reflexivity|].
    change (join [SP] ([] :: w2 :: l2)) with (SP :: join [SP] (w2 :: l2)).
    assert (Hok2 : words_ok (w2 :: l2)) by (eapply words_ok_tail; eauto).
    specialize (IH Hok2).
    destruct (Hok2 w2 (or_introl eq_refl)) as [Hn2 Hc2].
    destruct w2 as [|c2 w2]; [congruence|].
    rewrite join_cons_cons in *.
    assert (E : (c2 =? SP)%N = false).
    { apply N.eqb_neq, not_space_neq_SP, Hc2. now left. }
    match goal with
    | |- adjacent SP (SP :: c2 :: ?X) = false =>
        change (((SP =? SP)%N && (c2 =? SP)%N) || adjacent SP (c2 :: X) = false)
    end.
    rewrite E, andb_false_r. exact IH.
  - apply IHw.
    + eapply words_ok_peel; eauto. discriminate.
    + discriminate.
    + intros x Hx. apply Hc. now right.
Qed.

Lemma last_app_r (A : Type) (l1 l2 : list A) (d : A) :
  l2 <> [] -> last (l1 ++ l2) d = last l2 d.
Proof.
  intros H. induction l1 as [|a l1 IH]; [reflexivity|].
  simpl. destruct (l1 ++ l2) eqn:E.
  - apply app_eq_nil in E. tauto.
  - exact IH.
Qed.

Lemma last_join (l : list str) (d : N) :
  words_ok l -> l <> [] -> isspace (last (join [SP] l) d) = false.
Proof.
  induction l as [|w l IH]; intros Hok Hne; [congruence|].
  destruct (Hok w (or_introl eq_refl)) as [Hn Hc].
  destruct l as [|w2 l2].
  - change (join [SP] [w]) with w.
    apply Hc. destruct (@exists_last _ w Hn) as (l' & x & E).
    rewrite E. rewrite last_last. apply in_or_app. right. now left.
  - change (join [SP] (w :: w2 :: l2)) with (w ++ [SP] ++ join [SP] (w2 :: l2)).
    assert (Hok2 : words_ok (w2 :: l2)) by (eapply words_ok_tail; eauto).
    assert (Hj : join [SP] (w2 :: l2) <> []).
    { intros E. apply join_nil_inv in E; [discriminate|].
      intros w0 Hw0. apply Hok2. exact Hw0. }
    rewrite app_assoc. rewrite last_app_r by exact Hj.
    apply IH; [exact Hok2 | discriminate].
Qed.

Lemma ends_with_space_last (s : str) :
  (s <> [] -> forall d, isspace (last s d) = false) ->
  ends_with_space s = false.
Proof.
  intros H. unfold ends_with_space.
  destruct s as [|a t]; [reflexivity|].
  destruct (@exists_last _ (a :: t)) as (l' & x & E); [discriminate|].
  rewrite E. rewrite rev_app_distr. simpl.
  specialize (H ltac:(discriminate) x). rewrite E in H.
  rewrite last_last in H. exact H.
Qed.

Lemma join_split_shape (s : str) :
  adjacent SP (join [SP] (split s)) = false
  /\ starts_with_space (join [SP] (split s)) = false
  /\ ends_with_space (join [SP] (split s)) = false.
Proof.
  split; [|split].
  - apply adjacent_join, split_words_ok.
  - pose proof (join_split_head s) as H.
    destruct (join [SP] (split s)); [reflexivity | exact H].
  - apply ends_with_space_last. intros Hne d.
    apply last_join; [apply split_words_ok|].
    intros E. rewrite E in Hne. apply Hne. reflexivity.
Qed.

End PyFacts.

(* ================================================================== *)
(** * Facts about comparisons *)
(* ================================================================== *)

Module NumFacts.
Import Num.

Lemma Qltb_lt (a b : Q) : Qltb a b = true <-> (a < b)%Q.
Proof.
  unfold Qltb. rewrite negb_true_iff. split.
  - intros H. apply Qnot_le_lt. intros Hle.
    apply Qle_bool_iff in Hle. congruence.
  - intros H. destruct (Qle_bool b a) eqn:E; [|reflexivity].
    apply Qle_bool_iff in E. exfalso. apply (Qlt_not_le _ _ H E).
Qed.

Lemma Qltb_ge (a b : Q) : Qltb a b = false <-> (b <= a)%Q.
Proof.
  unfold Qltb. rewrite negb_false_iff. apply Qle_bool_iff.
Qed.

Lemma Qeq_bool_false (a b : Q) : Qeq_bool a b = false <-> ~ (a == b)%Q.
Proof.
  split.
  - intros H E. apply Qeq_bool_iff in E. congruence.
  - intros H. destruct (Qeq_bool a b) eqn:E; [|reflexivity].
    apply Qeq_bool_iff in E. contradiction.
Qed.

(** [pair_ltb] is the strict lexicographic order. *)
Lemma pair_ltb_spec (a1 a2 b1 b2 : Q) :
  pair_ltb (a1, a2) (b1, b2) = true <->
  (a1 < b1 \/ (a1 == b1 /\ a2 < b2))%Q.
Proof.
  unfold pair_ltb. destruct (Qeq_bool a1 b1) eqn:E; simpl.
  - apply Qeq_bool_iff in E. rewrite Qltb_lt. split.
    + intros H. right. split; assumption.
    + intros [H|[_ H]]; [|exact H]. rewrite E in H.
      exfalso. apply (Qlt_irrefl _ H).
  - apply Qeq_bool_false in E. rewrite Qltb_lt. split.
    + intros H. now left.
    + intros [H|[H _]]; [exact H | contradiction].
Qed.

Lemma pair_ltb_false (a1 a2 b1 b2 : Q) :
  pair_ltb (a1, a2) (b1, b2) = false <->
  (b1 < a1 \/ (a1 == b1 /\ b2 <= a2))%Q.
Proof.
  split.
  - intros H.
    destruct (Q_dec a1 b1) as [[Hlt|Hgt]|Heq].
    + assert (pair_ltb (a1, a2) (b1, b2) = true)
        by (apply pair_ltb_spec; now left). congruence.
    + now left.
    + right. split; [exact Heq|].
      destruct (Qlt_le_dec a2 b2) as [Hlt|Hle]; [|exact Hle].
      assert (pair_ltb (a1, a2) (b1, b2) = true)
        by (apply pair_ltb_spec; right; split; assumption). congruence.
  - intros H. destruct (pair_ltb (a1, a2) (b1, b2)) eqn:E; [|reflexivity].
    apply pair_ltb_spec in E. exfalso.
    destruct H as [H|[H1 H2]], E as [E|[E1 E2]]; lra.
Qed.

Lemma pair_ltb_transitive : transitive pair_ltb.
Proof.
  intros [a1 a2] [b1 b2] [c1 c2] Hab Hbc.
  apply pair_ltb_spec in Hab. apply pair_ltb_spec in Hbc.
  apply pair_ltb_spec.
  destruct Hab as [H|[H1 H2]], Hbc as [E|[E1 E2]].
  - left. lra.
  - left. lra.
  - left. lra.
  - right. split; lra.
Qed.

Lemma Qltb_transitive : transitive Qltb.
Proof.
  intros a b c Hab Hbc. apply Qltb_lt in Hab. apply Qltb_lt in Hbc.
  apply Qltb_lt. lra.
Qed.

Lemma pair_ltb_cotransitive :
  cotransitive pair_ltb.
Proof.
  intros [a1 a2] [b1 b2] [c1 c2] Hab Hcb.
  apply pair_ltb_spec in Hab. apply pair_ltb_false in Hcb.
  apply pair_ltb_spec.
  destruct Hab as [H|[H1 H2]], Hcb as [E|[E1 E2]].
  - left. lra.
  - left. lra.
  - left. lra.
  - right. split; lra.
Qed.

Lemma Qltb_cotransitive : cotransitive Qltb.
Proof.
  intros a b c Hab Hcb. apply Qltb_lt in Hab. apply Qltb_ge in Hcb.
  apply Qltb_lt. lra.
Qed.

End NumFacts.

(* ================================================================== *)
(** * Facts about the substitution of runs *)
(* ================================================================== *)

Module RunFacts.
Import Py PyFacts.

Lemma sub_runs_in (p : N -> bool) (r : str) (s : str) (c : N) :
  forall b, In c (sub_runs p r b s) -> In c r \/ (In c s /\ p c = false).
Proof.
  induction s as [|a t IH]; intros b; simpl; [tauto|].
  destruct (p a) eqn:E.
  - destruct b.
    + intros H. destruct (IH _ H) as [H'|[H' H'']]; auto.
    + intros H. apply in_app_or in H. destruct H as [H|H]; [now left|].
      destruct (IH _ H) as [H'|[H' H'']]; auto.
  - intros [<-|H]; [auto|]. destruct (IH _ H) as [H'|[H' H'']]; auto.
Qed.

Lemma sub_runs_none (p : N -> bool) (r : str) (s : str) :
  (forall c, In c s -> p c = false) -> forall b, sub_runs p r b s = s.
Proof.
  induction s as [|a t IH]; intros H b; [reflexivity|].
  simpl. rewrite (H a) by now left. f_equal. apply IH.
  intros c Hc. apply H. now right.
Qed.

Lemma sub_runs_length (p : N -> bool) (x : N) (s : str) :
  forall b, (List.length (sub_runs p [x] b s) <= List.length s)%nat.
Proof.
  induction s as [|a t IH]; intros b; simpl; [lia|].
  destruct (p a).
  - destruct b; simpl; specialize (IH true); lia.
  - simpl. specialize (IH false). lia.
Qed.

Lemma rstrip_by_length (p : N -> bool) (s : str) :
  (List.length (rstrip_by p s) <= List.length s)%nat.
Proof.
  induction s as [|a t IH]; simpl; [lia|].
  destruct (rstrip_by p t).
  - destruct (p a); simpl; lia.
  - simpl in *. lia.
Qed.

Lemma lstrip_by_length (p : N -> bool) (s : str) :
  (List.length (lstrip_by p s) <= List.length s)%nat.
Proof.
  induction s as [|a t IH]; simpl; [lia|].
  destruct (p a); simpl; lia.
Qed.

(** Stripping on the right keeps a first character that is not stripped. *)
Lemma rstrip_by_cons_keep (p : N -> bool) (a : N) (t : str) :
  p a = false -> exists t', rstrip_by p (a :: t) = a :: t'.
Proof.
  intros H. simpl. destruct (rstrip_by p t) as [|b t'].
  - rewrite H. exists []. reflexivity.
  - exists (b :: t'). reflexivity.
Qed.

(** ** Adjacent occurrences *)

Lemma adjacent_cons (a x y : N) (t : str) :
  adjacent a (x :: y :: t)
  = ((x =? a)%N && (y =? a)%N) || adjacent a (y :: t).
Proof. reflexivity. Qed.

(** No two adjacent [a] are left when the runs of [a] are replaced by one
    [a]. *)
Lemma sub_runs_adjacent (a : N) (s : str) :
  adjacent a (sub_runs (N.eqb a) [a] false s) = false
  /\ match sub_runs (N.eqb a) [a] true s with
     | [] => True
     | (c :: _) as out => c <> a /\ adjacent a out = false
     end.
Proof.
  induction s as [|c t [IHf IHt]]; [split; [reflexivity | exact I]|].
  cbn [sub_runs]. destruct (N.eqb_spec a c) as [E|E].
  - subst c. split; [|exact IHt].
    cbn [app]. destruct (sub_runs (N.eqb a) [a] true t) as [|d out'] eqn:Eo.
    + reflexivity.
    + destruct IHt as [Hd Ha]. rewrite adjacent_cons, Ha.
      apply N.eqb_neq in Hd. rewrite Hd, andb_false_r. reflexivity.
  - assert (H : adjacent a (c :: sub_runs (N.eqb a) [a] false t) = false).
    { rewrite adjacent_cons_other by congruence. exact IHf. }
    split; [exact H|]. split; [congruence | exact H].
Qed.

(** A string without two adjacent [a] is left as it is. *)
Lemma sub_runs_no_adjacent (a : N) (s : str) :
  adjacent a s = false ->
  sub_runs (N.eqb a) [a] false s = s
  /\ (match s with c :: _ => c <> a | [] => True end ->
      sub_runs (N.eqb a) [a] true s = s).
Proof.
  induction s as [|c t IH]; intros H; [split; reflexivity|].
  assert (Ht : adjacent a t = false).
  { destruct t as [|d t']; [reflexivity|].
    rewrite adjacent_cons in H. apply orb_false_iff in H. tauto. }
  destruct (IH Ht) as [IHf IHt]. cbn [sub_runs].
  destruct (N.eqb_spec a c) as [E|E].
  - subst c. split.
    + cbn [app]. f_equal. apply IHt.
      destruct t as [|d t']; [exact I|].
      rewrite adjacent_cons in H. apply orb_false_iff in H.
      destruct H as [H _]. rewrite N.eqb_refl in H. simpl in H.
      apply N.eqb_neq. exact H.
    + intros Hc. congruence.
  - split; [f_equal; exact IHf | intros _; f_equal; exact IHf].
Qed.

Lemma adjacent_prefix (a : N) (s1 s2 : str) :
  adjacent a (s1 ++ s2) = false -> adjacent a s1 = false.
Proof.
  induction s1 as [|x t IH]; [reflexivity|].
  destruct t as [|y t']; [reflexivity|].
  cbn [app]. rewrite !adjacent_cons. intros H.
  apply orb_false_iff in H. destruct H as [H1 H2].
  rewrite H1. apply IH. exact H2.
Qed.

Lemma rstrip_by_prefix (p : N -> bool) (s : str) :
  exists rest, s = rstrip_by p s ++ rest.
Proof.
  induction s as [|a t [rest IH]]; [exists []; reflexivity|].
  simpl. destruct (rstrip_by p t) as [|b t'] eqn:E.
  - destruct (p a).
    + exists (a :: t). reflexivity.
    + exists t. simpl in IH. reflexivity.
  - exists rest. simpl. f_equal. exact IH.
Qed.

Lemma rstrip_by_adjacent (p : N -> bool) (a : N) (s : str) :
  adjacent a s = false -> adjacent a (rstrip_by p s) = false.
Proof.
  intros H. destruct (rstrip_by_prefix p s) as [rest E].
  rewrite E in H. eapply adjacent_prefix; eauto.
Qed.

Lemma ends_with_char_last (a : N) (s : str) :
  ends_with_char a s = false <-> (s <> [] -> forall d, last s d <> a).
Proof.
  unfold ends_with_char. destruct s as [|c t].
  - simpl. split; [intros _ H; congruence | reflexivity].
  - destruct (@exists_last _ (c :: t)) as (l' & x & E); [discriminate|].
    rewrite E. rewrite rev_app_distr. simpl. split.
    + intros H _ d. rewrite last_last. apply N.eqb_neq, H.
    + intros H. apply N.eqb_neq.
      specialize (H ltac:(destruct l'; discriminate) x).
      rewrite last_last in H. exact H.
Qed.

End RunFacts.

(* ================================================================== *)
(** * The structure of a table *)
(* ================================================================== *)

Module TableFacts.
Import Py PdfToJson.

Lemma max_cols_nil : max_cols [] = 0%nat.
Proof. reflexivity. Qed.

Lemma optimize_key_value (g : list (list str)) :
  max_cols g = 2%nat ->
  optimize_table_structure g = SD_key_value (lit "2_column") (key_value_pairs g).
Proof.
  intros H. destruct g as [|row rest]; [discriminate H|].
  unfold optimize_table_structure. rewrite H. reflexivity.
Qed.

Lemma optimize_wide (g : list (list str)) :
  (2 < max_cols g)%nat ->
  match g with
  | [] => False
  | [row] =>
      optimize_table_structure g =
      SD_single_row (of_nat (max_cols g) ++ lit "_column") row
  | header :: rest =>
      optimize_table_structure g =
      SD_structured_table (of_nat (max_cols g) ++ lit "_column") header rest
  end.
Proof.
  intros H. destruct g as [|row rest]; [simpl in H; lia|].
  unfold optimize_table_structure.
  destruct (Nat.eqb_spec (max_cols (row :: rest)) 2) as [E|E]; [lia|].
  destruct rest; reflexivity.
Qed.

(** The type of the result as a function of the number of rows and of the
    largest number of cells in a row. *)
Lemma sd_type_by_shape (g : list (list str)) :
  sd_type (optimize_table_structure g) =
  match List.length g with
  | O => lit "empty"
  | S n =>
      if (max_cols g =? 2)%nat then lit "key_value"
      else match n with
           | O => lit "single_row"
           | S _ => lit "structured_table"
           end
  end.
Proof.
  destruct g as [|row rest]; [reflexivity|].
  unfold optimize_table_structure.
  destruct (max_cols (row :: rest) =? 2)%nat; [reflexivity|].
  destruct rest; reflexivity.
Qed.

(** C2: the variant depends on the shape of the grid alone.  A grid of
    exactly two columns (its widest row has two cells), which then has at
    least one row, is a key-value table; a grid of more than two columns is
    a table with a header row when it has two rows or more and a single row
    when it has one; the empty grid is the empty table. *)
Theorem optimize_table_structure_by_shape (g : list (list str)) :
  (g = [] -> optimize_table_structure g = SD_empty)
  /\ (max_cols g = 2%nat ->
      (1 <= List.length g)%nat
      /\ optimize_table_structure g =
         SD_key_value (lit "2_column") (key_value_pairs g)
      /\ sd_type (optimize_table_structure g) = lit "key_value")
  /\ ((2 < max_cols g)%nat -> (2 <= List.length g)%nat ->
      exists header rest,
        g = header :: rest
        /\ optimize_table_structure g =
           SD_structured_table (of_nat (max_cols g) ++ lit "_column")
             header rest
        /\ sd_type (optimize_table_structure g) = lit "structured_table")
  /\ ((2 < max_cols g)%nat -> List.length g = 1%nat ->
      exists row,
        g = [row]
        /\ optimize_table_structure g =
           SD_single_row (of_nat (max_cols g) ++ lit "_column") row
        /\ sd_type (optimize_table_structure g) = lit "single_row")
  /\ (forall g' : list (list str),
        List.length g' = List.length g -> max_cols g' = max_cols g ->
        sd_type (optimize_table_structure g')
        = sd_type (optimize_table_structure g)).
Proof.
  split; [intros ->; reflexivity|]. split; [|split; [|split]].
  - intros H. split; [|split].
    + destruct g; [discriminate H | simpl; lia].
    + apply optimize_key_value, H.
    + rewrite (optimize_key_value g H). reflexivity.
  - intros Hc Hr. pose proof (optimize_wide g Hc) as Hw.
    destruct g as [|header [|r2 rest]]; simpl in Hr; try lia.
    exists header, (r2 :: rest). split; [reflexivity|].
    split; [exact Hw | rewrite Hw; reflexivity].
  - intros Hc Hr. pose proof (optimize_wide g Hc) as Hw.
    destruct g as [|row [|r2 rest]]; simpl in Hr; try lia.
    exists row. split; [reflexivity|].
    split; [exact Hw | rewrite Hw; reflexivity].
  - intros g' Hl Hm. rewrite !sd_type_by_shape, Hl, Hm. reflexivity.
Qed.

(** The theorem at a grid of each shape. *)
Lemma optimize_table_structure_by_shape_witness :
  sd_type (optimize_table_structure [[lit "a"; lit "b"]]) = lit "key_value"
  /\ (exists header rest,
        [[lit "a"; lit "b"; lit "c"]; [lit "d"]] = header :: rest
        /\ optimize_table_structure [[lit "a"; lit "b"; lit "c"]; [lit "d"]] =
           SD_structured_table
             (of_nat (max_cols [[lit "a"; lit "b"; lit "c"]; [lit "d"]])
              ++ lit "_column") header rest
        /\ sd_type
             (optimize_table_structure [[lit "a"; lit "b"; lit "c"]; [lit "d"]])
           = lit "structured_table")
  /\ (exists row,
        [[lit "a"; lit "b"; lit "c"]] = [row]
        /\ optimize_table_structure [[lit "a"; lit "b"; lit "c"]] =
           SD_single_row
             (of_nat (max_cols [[lit "a"; lit "b"; lit "c"]]) ++ lit "_column")
             row
        /\ sd_type (optimize_table_structure [[lit "a"; lit "b"; lit "c"]])
           = lit "single_row").
Proof.
  split; [|split].
  - apply (proj1 (proj2 (optimize_table_structure_by_shape
                           [[lit "a"; lit "b"]]))).
    reflexivity.
  - apply (proj1 (proj2 (proj2 (optimize_table_structure_by_shape
                                  [[lit "a"; lit "b"; lit "c"]; [lit "d"]]))));
      vm_compute; lia.
  - apply (proj1 (proj2 (proj2 (proj2 (optimize_table_structure_by_shape
                                         [[lit "a"; lit "b"; lit "c"]])))));
      [vm_compute; lia | reflexivity].
Defined.

(** C3: the two by two table of scenario A.  The cells as extracted clean
    to the grid of the scenario, and the grid is a key-value table with the
    two pairs in the order of the rows. *)
Theorem scenario_A_key_value :
  clean_table_data
    [[Some (lit "ID"); Some (lit "TE02.03.01")];
     [Some (lit "Status"); Some (lit "Pass")]]
  = [[lit "ID"; lit "TE02.03.01"]; [lit "Status"; lit "Pass"]]
  /\ optimize_table_structure
       [[lit "ID"; lit "TE02.03.01"]; [lit "Status"; lit "Pass"]]
     = SD_key_value (lit "2_column")
         [(lit "ID", lit "TE02.03.01"); (lit "Status", lit "Pass")]
  /\ sd_type
       (optimize_table_structure
          [[lit "ID"; lit "TE02.03.01"]; [lit "Status"; lit "Pass"]])
     = lit "key_value".
Proof. repeat split. Qed.

End TableFacts.

(* ================================================================== *)
(** * Caption resolution *)
(* ================================================================== *)

Module CaptionFacts.
Import Py Num NumFacts PdfToJson Spec.

(** ** The scan for a minimum *)

Section MinScan.

Variable A : Type.
Variable lt : A -> A -> bool.
Hypothesis lt_trans : transitive lt.
Hypothesis lt_cotrans : cotransitive lt.

Lemma min_from_first_min (l pre post : list A) (best : A) :
  (forall x, In x pre -> lt best x = true) ->
  (forall x, In x post -> lt x best = false) ->
  exists pre' post',
    pre ++ best :: post ++ l = pre' ++ min_from lt best l :: post'
    /\ (forall x, In x pre' -> lt (min_from lt best l) x = true)
    /\ (forall x, In x post' -> lt x (min_from lt best l) = false).
Proof.
  revert pre post best.
  induction l as [|x t IH]; intros pre post best Hpre Hpost.
  - exists pre, post. rewrite app_nil_r. auto.
  - simpl. destruct (lt x best) eqn:E.
    + destruct (IH (pre ++ best :: post) [] x) as (pre' & post' & E' & H1 & H2).
      * intros y Hy. apply in_app_or in Hy. destruct Hy as [Hy|[<-|Hy]].
        -- eapply lt_trans; [exact E | apply Hpre, Hy].
        -- exact E.
        -- eapply lt_cotrans; [exact E | apply Hpost, Hy].
      * intros y [].
      * exists pre', post'. rewrite <- E'. split; [|auto].
        rewrite <- app_assoc. reflexivity.
    + destruct (IH pre (post ++ [x]) best) as (pre' & post' & E' & H1 & H2).
      * exact Hpre.
      * intros y Hy. apply in_app_or in Hy. destruct Hy as [Hy|[<-|[]]];
          [now apply Hpost | exact E].
      * exists pre', post'. rewrite <- E'. split; [|auto].
        rewrite <- app_assoc. reflexivity.
Qed.

(** [min] returns the first smallest element, and nothing only for the
    empty list. *)
Lemma py_min_first_min (l : list A) :
  match py_min lt l with
  | None => l = []
  | Some sel => first_min lt l sel
  end.
Proof.
  destruct l as [|x t]; [reflexivity|]. simpl.
  destruct (@min_from_first_min t [] [] x) as (pre & post & E & H1 & H2).
  - intros y [].
  - intros y [].
  - exists pre, post. auto.
Qed.


End MinScan.

(** ** The ranking tuples *)

Lemma Z_key_cases (p q : Z) :
  (negb (p =? q)%Z = true /\ p <> q) \/ (negb (p =? q)%Z = false /\ p = q).
Proof.
  destruct (Z.eqb_spec p q); [right | left]; auto.
Qed.

Lemma candidate_lt_transitive : transitive candidate_lt.
Proof.
  intros a b c. unfold candidate_lt.
  destruct (Z_key_cases (c_priority a) (c_priority b)) as [[-> Hab]|[-> Hab]],
           (Z_key_cases (c_priority b) (c_priority c)) as [[-> Hbc]|[-> Hbc]],
           (Z_key_cases (c_priority a) (c_priority c)) as [[-> Hac]|[-> Hac]];
    rewrite ?Z.ltb_lt; try lia; intros H1 H2; try lia.
  eapply pair_ltb_transitive; eauto.
Qed.

Lemma candidate_lt_cotransitive : cotransitive candidate_lt.
Proof.
  intros a b c. unfold candidate_lt.
  destruct (Z_key_cases (c_priority a) (c_priority b)) as [[-> Hab]|[-> Hab]],
           (Z_key_cases (c_priority c) (c_priority b)) as [[-> Hcb]|[-> Hcb]],
           (Z_key_cases (c_priority a) (c_priority c)) as [[-> Hac]|[-> Hac]];
    rewrite ?Z.ltb_lt, ?Z.ltb_ge; try lia; intros H1 H2; try lia.
  eapply pair_ltb_cotransitive; eauto.
Qed.

Lemma image_candidate_lt_transitive : transitive image_candidate_lt.
Proof.
  intros a b c. unfold image_candidate_lt.
  destruct (Z_key_cases (ic_priority a) (ic_priority b)) as [[-> Hab]|[-> Hab]],
           (Z_key_cases (ic_priority b) (ic_priority c)) as [[-> Hbc]|[-> Hbc]],
           (Z_key_cases (ic_priority a) (ic_priority c)) as [[-> Hac]|[-> Hac]];
    rewrite ?Z.ltb_lt; try lia; intros H1 H2; try lia.
  eapply Qltb_transitive; eauto.
Qed.

Lemma image_candidate_lt_cotransitive : cotransitive image_candidate_lt.
Proof.
  intros a b c. unfold image_candidate_lt.
  destruct (Z_key_cases (ic_priority a) (ic_priority b)) as [[-> Hab]|[-> Hab]],
           (Z_key_cases (ic_priority c) (ic_priority b)) as [[-> Hcb]|[-> Hcb]],
           (Z_key_cases (ic_priority a) (ic_priority c)) as [[-> Hac]|[-> Hac]];
    rewrite ?Z.ltb_lt, ?Z.ltb_ge; try lia; intros H1 H2; try lia.
  eapply Qltb_cotransitive; eauto.
Qed.

(** ** The candidates of a table caption *)

Section RoundedCandidates.

(** The rounding of the arithmetic. *)
Variable fl : Q -> Q.

Lemma table_candidate_some (m : str -> bool) (page_height : Q)
  (table_bbox : BBox) (block : TextBlock) (c : Candidate) :
  Rounded.table_candidate fl m page_height table_bbox block = Some c ->
  c_text c = strip (tb_text block)
  /\ strip (tb_text block) <> []
  /\ RoundedSpec.above_table fl page_height table_bbox block.
Proof.
  destruct table_bbox as [[[x0 y0] x1] y1].
  unfold Rounded.table_candidate, RoundedSpec.above_table,
    RoundedSpec.y_distance, RoundedSpec.x_distance, RoundedSpec.half_width,
    RoundedSpec.share, RoundedSpec.centre.
  destruct (strip (tb_text block)) as [|a t] eqn:Et; [discriminate|].
  destruct (Qle_bool (tb_y1 block) y0) eqn:E1; simpl; [|discriminate].
  destruct (Qltb (fl (fl (x1 - x0) / 2)) _) eqn:E2; [discriminate|].
  destruct (Qltb (fl (page_height * fl (15 # 100))) _) eqn:E3; [discriminate|].
  intros H. injection H as <-. simpl.
  split; [reflexivity|]. split; [discriminate|].
  apply Qle_bool_iff in E1. apply Qltb_ge in E2. apply Qltb_ge in E3.
  auto.
Qed.

Lemma table_candidate_none (m : str -> bool) (page_height : Q)
  (table_bbox : BBox) (block : TextBlock) :
  Rounded.table_candidate fl m page_height table_bbox block = None ->
  strip (tb_text block) = []
  \/ ~ RoundedSpec.above_table fl page_height table_bbox block.
Proof.
  destruct table_bbox as [[[x0 y0] x1] y1].
  unfold Rounded.table_candidate, RoundedSpec.above_table,
    RoundedSpec.y_distance, RoundedSpec.x_distance, RoundedSpec.half_width,
    RoundedSpec.share, RoundedSpec.centre.
  destruct (strip (tb_text block)) as [|a t] eqn:Et; [now left|].
  intros H. right. intros (H1 & H2 & H3). revert H.
  apply Qle_bool_iff in H1. rewrite H1. simpl.
  destruct (Qltb (fl (fl (x1 - x0) / 2)) _) eqn:E2.
  - apply Qltb_lt in E2. exfalso. apply (Qlt_not_le _ _ E2). exact H3.
  - destruct (Qltb (fl (page_height * fl (15 # 100))) _) eqn:E3;
      [|discriminate].
    apply Qltb_lt in E3. exfalso. apply (Qlt_not_le _ _ E3). exact H2.
Qed.

Lemma in_table_caption_candidates (m : str -> bool) (page_height : Q)
  (table_bbox : BBox) (text_blocks : list TextBlock) (c : Candidate) :
  In c (Rounded.table_caption_candidates fl m page_height table_bbox
          text_blocks) <->
  exists block,
    In block text_blocks
    /\ Rounded.table_candidate fl m page_height table_bbox block = Some c.
Proof.
  induction text_blocks as [|b rest IH]; simpl.
  - split; [tauto | intros (? & [] & _)].
  - destruct (Rounded.table_candidate fl m page_height table_bbox b)
      as [c0|] eqn:E.
    + simpl. rewrite IH. split.
      * intros [<-|(blk & Hin & Hc)]; [exists b | exists blk]; auto.
      * intros (blk & [<-|Hin] & Hc).
        -- left. congruence.
        -- right. exists blk. auto.
    + rewrite IH. split.
      * intros (blk & Hin & Hc). exists blk. auto.
      * intros (blk & [<-|Hin] & Hc); [congruence|]. exists blk. auto.
Qed.

(** C8: a candidate of a table caption search comes from a block of the
    page whose bottom edge is at or above the top edge of the table, at a
    distance of at most 15% of the page height, and whose centre is
    horizontally within half the width of the table from the centre of the
    table; its text is the stripped, non-empty text of the block.  The
    caption returned is the text of such a block.  The distances, the
    share of the page height and the half of the width are the numbers that
    the program computes, whatever the rounding. *)
Theorem table_caption_candidate_only_if (m : str -> bool) (page_height : Q)
  (table_bbox : BBox) (text_blocks : list TextBlock) :
  (forall c,
     In c (Rounded.table_caption_candidates fl m page_height table_bbox
             text_blocks) ->
     exists block,
       In block text_blocks
       /\ c_text c = strip (tb_text block)
       /\ strip (tb_text block) <> []
       /\ RoundedSpec.above_table fl page_height table_bbox block)
  /\ (forall caption,
        Rounded.find_table_caption fl m page_height text_blocks table_bbox
        = Some caption ->
        exists block,
          In block text_blocks
          /\ caption = strip (tb_text block)
          /\ RoundedSpec.above_table fl page_height table_bbox block).
Proof.
  assert (H1 : forall c,
     In c (Rounded.table_caption_candidates fl m page_height table_bbox
             text_blocks) ->
     exists block,
       In block text_blocks
       /\ c_text c = strip (tb_text block)
       /\ strip (tb_text block) <> []
       /\ RoundedSpec.above_table fl page_height table_bbox block).
  { intros c Hc. apply in_table_caption_candidates in Hc.
    destruct Hc as (block & Hin & Hc). exists block.
    split; [exact Hin|]. eapply table_candidate_some; eauto. }
  split; [exact H1|].
  intros caption. unfold Rounded.find_table_caption.
  destruct text_blocks as [|b rest]; [discriminate|].
  pose proof (py_min_first_min candidate_lt_transitive
                candidate_lt_cotransitive
                (Rounded.table_caption_candidates fl m page_height table_bbox
                   (b :: rest)))
    as Hmin.
  destruct (py_min candidate_lt _) as [sel|]; [|discriminate].
  intros H. injection H as <-.
  destruct Hmin as (pre & post & E & _).
  destruct (H1 sel) as (block & Hin & Ht & _ & Hab).
  { rewrite E. apply in_or_app. right. now left. }
  exists block. auto.
Qed.

Lemma rounded_find_table_caption_eq (m : str -> bool) (page_height : Q)
  (text_blocks : list TextBlock) (table_bbox : BBox) :
  Rounded.find_table_caption fl m page_height text_blocks table_bbox =
  option_map c_text
    (py_min candidate_lt
       (Rounded.table_caption_candidates fl m page_height table_bbox
          text_blocks)).
Proof.
  destruct text_blocks as [|b rest]; [reflexivity|].
  unfold Rounded.find_table_caption.
  destruct (py_min candidate_lt _); reflexivity.
Qed.

Lemma rounded_find_image_caption_eq (m : str -> bool) (page_height : Q)
  (text_blocks : list TextBlock) (table_bboxes : list BBox)
  (image_bbox : BBox) :
  Rounded.find_image_caption fl m page_height text_blocks table_bboxes
    image_bbox =
  option_map ic_text
    (py_min image_candidate_lt
       (Rounded.image_caption_candidates fl m page_height table_bboxes
          image_bbox text_blocks)).
Proof.
  destruct text_blocks as [|b rest]; [reflexivity|].
  unfold Rounded.find_image_caption.
  destruct (py_min image_candidate_lt _); reflexivity.
Qed.

End RoundedCandidates.

(** With the exact arithmetic the searches are those of [PdfToJson]. *)
Lemma find_table_caption_exact (m : str -> bool) (page_height : Q)
  (text_blocks : list TextBlock) (table_bbox : BBox) :
  Rounded.find_table_caption Binary64.exact m page_height text_blocks
    table_bbox
  = find_table_caption m page_height text_blocks table_bbox.
Proof.
  unfold Rounded.find_table_caption, find_table_caption.
  destruct text_blocks as [|b0 rest]; [reflexivity|].
  assert (E : forall l,
            Rounded.table_caption_candidates Binary64.exact m page_height
              table_bbox l
            = table_caption_candidates m page_height table_bbox l).
  { induction l as [|b l IH]; [reflexivity|].
    cbn [Rounded.table_caption_candidates table_caption_candidates].
    rewrite IH. reflexivity. }
  rewrite E. reflexivity.
Qed.

Lemma find_image_caption_exact (m : str -> bool) (page_height : Q)
  (text_blocks : list TextBlock) (table_bboxes : list BBox)
  (image_bbox : BBox) :
  Rounded.find_image_caption Binary64.exact m page_height text_blocks
    table_bboxes image_bbox
  = find_image_caption m page_height text_blocks table_bboxes image_bbox.
Proof.
  unfold Rounded.find_image_caption, find_image_caption.
  destruct text_blocks as [|b0 rest]; [reflexivity|].
  assert (E : forall l,
            Rounded.image_caption_candidates Binary64.exact m page_height
              table_bboxes image_bbox l
            = image_caption_candidates m page_height table_bboxes image_bbox
                l).
  { induction l as [|b l IH]; [reflexivity|].
    cbn [Rounded.image_caption_candidates image_caption_candidates].
    rewrite IH. reflexivity. }
  rewrite E. reflexivity.
Qed.

(** The theorem on a page 842 high, with the rounding of Python: the block
    that ends at the double of 0.7 is the caption of the table whose top
    edge is at 127. *)
Lemma table_caption_candidate_only_if_witness :
  exists block,
    In block [MoreExamples.top_block]
    /\ lit "Table 1" = strip (tb_text block)
    /\ RoundedSpec.above_table Binary64.round64 842
         MoreExamples.low_table_bbox block.
Proof.
  apply (proj2 (table_caption_candidate_only_if Binary64.round64
                  ascii_table_caption_match 842 MoreExamples.low_table_bbox
                  [MoreExamples.top_block])).
  vm_compute. reflexivity.
Defined.

(** The rounding decides: the difference of 127 and the double of 0.7 is a
    little more than 15% of 842, and both the difference and the product of
    842 and the double of 0.15 are rounded to the double of 126.3.  Python
    finds the caption; the exact arithmetic finds none. *)
Example rounding_decides_the_candidate :
  (842 * (15 # 100) < 127 - Binary64.round64 (7 # 10))%Q
  /\ Rounded.find_table_caption Binary64.round64 ascii_table_caption_match
       842 [MoreExamples.top_block] MoreExamples.low_table_bbox
     = Some (lit "Table 1")
  /\ find_table_caption ascii_table_caption_match 842
       [MoreExamples.top_block] MoreExamples.low_table_bbox
     = None.
Proof.
  split; [vm_compute; reflexivity|].
  split; vm_compute; reflexivity.
Qed.

(** ** Determinism *)






End CaptionFacts.

(* ================================================================== *)
(** * The stable sort and the hierarchy of text blocks *)
(* ================================================================== *)

Module HierarchyFacts.
Import Py Num NumFacts PdfToJson Spec.

(** ** [sort_by] *)

Section Sort.

Variable A : Type.
Variable lt : A -> A -> bool.

Lemma insert_by_perm (x : A) (l : list A) :
  Permutation (x :: l) (insert_by lt x l).
Proof.
  induction l as [|y t IH]; simpl; [reflexivity|].
  destruct (lt y x); [|reflexivity].
  rewrite perm_swap. constructor. exact IH.
Qed.

Lemma sort_by_perm (l : list A) : Permutation l (sort_by lt l).
Proof.
  induction l as [|x t IH]; simpl; [constructor|].
  rewrite <- insert_by_perm. constructor. exact IH.
Qed.

Lemma sort_by_length (l : list A) :
  List.length (sort_by lt l) = List.length l.
Proof. symmetry. apply Permutation_length, sort_by_perm. Qed.

Lemma sort_by_in (l : list A) (x : A) : In x (sort_by lt l) <-> In x l.
Proof.
  split; apply Permutation_in;
    [apply Permutation_sym|]; apply sort_by_perm.
Qed.

Hypothesis lt_asym : forall a b, lt a b = true -> lt b a = false.
Hypothesis lt_cotrans : cotransitive lt.

Lemma insert_by_sorted (x : A) (l : list A) :
  StronglySorted (not_after lt) l -> StronglySorted (not_after lt) (insert_by lt x l).
Proof.
  induction 1 as [|y t Hs IH Hy]; simpl.
  - constructor; constructor.
  - destruct (lt y x) eqn:E.
    + constructor; [exact IH|].
      apply Forall_forall. intros z Hz.
      apply (Permutation_in _ (Permutation_sym (insert_by_perm x t))) in Hz.
      destruct Hz as [<-|Hz].
      * apply lt_asym, E.
      * rewrite Forall_forall in Hy. apply Hy, Hz.
    + constructor; [constructor; assumption|].
      constructor; [exact E|].
      apply Forall_forall. intros z Hz.
      rewrite Forall_forall in Hy. specialize (Hy z Hz).
      unfold not_after in *.
      destruct (lt z x) eqn:Ez; [|reflexivity].
      pose proof (@lt_cotrans _ _ _ Ez E) as H. congruence.
Qed.

Lemma sort_by_sorted (l : list A) : StronglySorted (not_after lt) (sort_by lt l).
Proof.
  induction l as [|x t IH]; simpl; [constructor|].
  apply insert_by_sorted, IH.
Qed.

End Sort.

Lemma pair_ltb_asym (a b : Q * Q) :
  pair_ltb a b = true -> pair_ltb b a = false.
Proof.
  destruct a as [a1 a2], b as [b1 b2]. intros H.
  apply pair_ltb_spec in H. apply pair_ltb_false.
  destruct H as [H|[H1 H2]]; [left | right]; [exact H|].
  split; [symmetry; exact H1 | apply Qlt_le_weak, H2].
Qed.

Lemma yx_lt_asym (a b : TextBlock) : yx_lt a b = true -> yx_lt b a = false.
Proof. apply pair_ltb_asym. Qed.

Lemma yx_lt_cotransitive : cotransitive yx_lt.
Proof. intros a b c. apply pair_ltb_cotransitive. Qed.

(** ** The list of font sizes *)

Lemma distinct_incl (l : list Q) (x : Q) : In x (distinct l) -> In x l.
Proof.
  revert x. induction l as [|a t IH]; simpl; [tauto|].
  intros x [<-|H]; [now left|]. right.
  apply filter_In in H. apply IH, H.
Qed.

Lemma distinct_covers (l : list Q) (x : Q) :
  In x l -> exists y, In y (distinct l) /\ (y == x)%Q.
Proof.
  induction l as [|a t IH]; simpl; [tauto|].
  intros [<-|H].
  - exists a. split; [now left | reflexivity].
  - destruct (IH H) as (y & Hy & E).
    destruct (Qeq_bool y a) eqn:Ea.
    + exists a. split; [now left|]. apply Qeq_bool_iff in Ea.
      rewrite <- Ea. exact E.
    + exists y. split; [|exact E]. right.
      apply filter_In. split; [exact Hy|]. rewrite Ea. reflexivity.
Qed.

Lemma filter_pairwise (f : Q -> bool) (l : list Q) :
  pairwise_distinct l -> pairwise_distinct (filter f l).
Proof.
  induction 1 as [|a t Ha Ht IH]; simpl; [constructor|].
  destruct (f a); [|exact IH].
  constructor; [|exact IH].
  apply Forall_forall. intros y Hy. apply filter_In in Hy.
  rewrite Forall_forall in Ha. apply Ha, Hy.
Qed.

Lemma distinct_pairwise (l : list Q) : pairwise_distinct (distinct l).
Proof.
  induction l as [|a t IH]; simpl; [constructor|].
  constructor; [|apply filter_pairwise, IH].
  apply Forall_forall. intros y Hy. apply filter_In in Hy.
  destruct Hy as [_ Hy]. apply negb_true_iff in Hy.
  apply Qeq_bool_false in Hy. intros E. apply Hy. symmetry. exact E.
Qed.


Lemma insert_desc (x : Q) (l : list Q) :
  descending l -> (forall y, In y l -> ~ (x == y)%Q) ->
  descending (insert_by size_gt x l).
Proof.
  induction 1 as [|y t Hs IH Hy]; intros Hx; simpl.
  - constructor; constructor.
  - unfold size_gt at 1. destruct (Qltb x y) eqn:E.
    + apply Qltb_lt in E. constructor.
      * apply IH. intros z Hz. apply Hx. now right.
      * apply Forall_forall. intros z Hz.
        apply (Permutation_in _ (Permutation_sym (insert_by_perm size_gt x t)))
          in Hz.
        destruct Hz as [<-|Hz]; [exact E|].
        rewrite Forall_forall in Hy. apply Hy, Hz.
    + apply Qltb_ge in E.
      assert (Hyx : (y < x)%Q).
      { apply Qle_lteq in E. destruct E as [E|E]; [exact E|].
        exfalso. apply (Hx y); [now left | symmetry; exact E]. }
      constructor; [constructor; assumption|].
      constructor; [exact Hyx|].
      apply Forall_forall. intros z Hz.
      rewrite Forall_forall in Hy. specialize (Hy z Hz). lra.
Qed.

Lemma sort_desc (l : list Q) :
  pairwise_distinct l -> descending (sort_by size_gt l).
Proof.
  induction 1 as [|a t Ha Ht IH]; simpl; [constructor|].
  apply insert_desc; [exact IH|].
  intros y Hy. apply sort_by_in in Hy.
  rewrite Forall_forall in Ha. apply Ha, Hy.
Qed.

Lemma font_sizes_of_eq (blocks : list TextBlock) :
  font_sizes_of blocks = sort_by size_gt (distinct (map tb_size blocks)).
Proof. reflexivity. Qed.

(** The list is strictly descending and holds the sizes of the blocks. *)
Lemma font_sizes_descending (blocks : list TextBlock) :
  descending (font_sizes_of blocks).
Proof. rewrite font_sizes_of_eq. apply sort_desc, distinct_pairwise. Qed.

Lemma font_sizes_incl (blocks : list TextBlock) (s : Q) :
  In s (font_sizes_of blocks) -> exists b, In b blocks /\ tb_size b = s.
Proof.
  rewrite font_sizes_of_eq. intros H. apply sort_by_in in H.
  apply distinct_incl in H. apply in_map_iff in H.
  destruct H as (b & E & Hb). exists b. auto.
Qed.

Lemma font_sizes_covers (blocks : list TextBlock) (b : TextBlock) :
  In b blocks -> exists s, In s (font_sizes_of blocks) /\ (s == tb_size b)%Q.
Proof.
  intros H. destruct (@distinct_covers (map tb_size blocks) (tb_size b))
    as (s & Hs & E).
  - apply in_map, H.
  - exists s. split; [|exact E]. rewrite font_sizes_of_eq.
    apply sort_by_in, Hs.
Qed.

Lemma index_or_len_cons (x y : Q) (t : list Q) :
  index_or_len x (y :: t)
  = if Qeq_bool y x then 0%Z else (1 + index_or_len x t)%Z.
Proof. reflexivity. Qed.

Lemma index_or_len_rank (q : Q) (sizes : list Q) :
  descending sizes -> (exists s, In s sizes /\ (s == q)%Q) ->
  index_or_len q sizes = rank q sizes.
Proof.
  unfold rank. induction 1 as [|y t Hs IH Hy]; intros (s & Hin & E).
  - destruct Hin.
  - rewrite index_or_len_cons. cbn [filter]. rewrite Forall_forall in Hy.
    destruct (Qeq_bool y q) eqn:Ey.
    + apply Qeq_bool_iff in Ey.
      assert (Hq : Qltb q y = false) by (apply Qltb_ge; lra).
      rewrite Hq.
      replace (filter (fun s0 => Qltb q s0) t) with (@nil Q); [reflexivity|].
      symmetry. clear IH Hs Hin. induction t as [|z t IHt]; [reflexivity|].
      simpl. assert (Hz : (z < y)%Q) by (apply Hy; now left).
      assert (Ez : Qltb q z = false) by (apply Qltb_ge; lra).
      rewrite Ez. apply IHt. intros w Hw. apply Hy. now right.
    + apply Qeq_bool_false in Ey.
      destruct Hin as [<-|Hin]; [contradiction|].
      assert (Hq : Qltb q y = true).
      { apply Qltb_lt. specialize (Hy s Hin). cbv beta in Hy.
        rewrite <- E. exact Hy. }
      rewrite Hq. simpl List.length. rewrite Nat2Z.inj_succ.
      rewrite IH by (exists s; auto). lia.
Qed.

(** ** [_infer_hierarchy] *)

Lemma size_level_base (font_sizes : list Q) (block : TextBlock) :
  descending font_sizes ->
  (exists s, In s font_sizes /\ (s == tb_size block)%Q) ->
  size_level font_sizes block = base_level font_sizes block.
Proof.
  intros Hd Hs. unfold size_level, base_level.
  assert (E : match font_sizes with
              | [] => 0%Z
              | _ :: _ => index_or_len (tb_size block) font_sizes
              end = rank (tb_size block) font_sizes).
  { rewrite <- (index_or_len_rank Hd Hs). destruct font_sizes; reflexivity. }
  rewrite E. reflexivity.
Qed.

Section RoundedHierarchy.

Import RoundedSpec.

(** The rounding of the arithmetic. *)
Variable fl : Q -> Q.

Lemma set_hierarchy_content (block : TextBlock) (level : Z)
  (parent : option str) :
  same_content (set_hierarchy block level parent) block.
Proof. repeat split. Qed.

(** What the loop does for the block of index [i]; [last] is the block
    appended before the first block of [blocks]. *)
Lemma infer_loop_nth (font_sizes : list Q) (blocks : list TextBlock) :
  descending font_sizes ->
  (forall b, In b blocks ->
     exists s, In s font_sizes /\ (s == tb_size b)%Q) ->
  forall (last : option TextBlock) (i : nat) (block : TextBlock),
    nth_error blocks i = Some block ->
    exists b,
      nth_error (Rounded.infer_loop fl font_sizes last blocks) i = Some b
      /\ same_content b block
      /\ placed fl font_sizes
           match i with
           | O => last
           | S j => nth_error (Rounded.infer_loop fl font_sizes last blocks) j
           end
           block b.
Proof.
  intros Hd. induction blocks as [|b rest IH]; intros Hs last i block Hi.
  - destruct i; discriminate Hi.
  - assert (Hb : size_level font_sizes b = base_level font_sizes b).
    { apply size_level_base; [exact Hd | apply Hs; now left]. }
    destruct i as [|i].
    + injection Hi as <-. cbn [Rounded.infer_loop nth_error]. rewrite Hb.
      eexists. split; [reflexivity|].
      destruct last as [p|]; unfold placed, indented.
      * destruct (Qltb (fl (tb_x0 p + 5)) (tb_x0 b)) eqn:E.
        -- split; [apply set_hierarchy_content|].
           left. apply Qltb_lt in E. repeat split. exact E.
        -- split; [apply set_hierarchy_content|].
           right. apply Qltb_ge in E. repeat split.
           intros H. apply (Qlt_not_le _ _ H E).
      * split; [apply set_hierarchy_content|]. split; reflexivity.
    + cbn [Rounded.infer_loop]. cbv zeta.
      match goal with
      | |- context [Rounded.infer_loop fl font_sizes (Some ?b') rest] =>
          destruct (IH (fun x Hx => Hs x (or_intror Hx)) (Some b') i block Hi)
            as (o & E1 & E2 & E3)
      end.
      exists o. split; [exact E1|]. split; [exact E2|].
      destruct i as [|j]; exact E3.
Qed.

Lemma rounded_infer_loop_length (font_sizes : list Q)
  (last : option TextBlock) (blocks : list TextBlock) :
  List.length (Rounded.infer_loop fl font_sizes last blocks)
  = List.length blocks.
Proof.
  revert last. induction blocks as [|b rest IH]; intros last; [reflexivity|].
  cbn [Rounded.infer_loop List.length]. cbv zeta. rewrite IH. reflexivity.
Qed.

(** C5: the blocks are processed in the order of their [(y0, x0)]; the
    list of font sizes is strictly descending and holds the sizes of the
    blocks of the page; the result has one block for every block of the
    page, in the order of processing, with the same id, text, box, font,
    boldness and size.  Of a block that starts more than 5 units to the
    right of the block processed before it, the level is the level of that
    block plus one and the parent is the id of that block; of any other
    block, the parent is null and the level is the rank of its size in the
    list, less one, but not below 0, when it is bold.  The sum of the left
    edge and 5 is the one that the program computes, whatever the
    rounding. *)
Theorem infer_hierarchy_levels (text_blocks : list TextBlock) :
  let sorted_blocks := sort_by yx_lt text_blocks in
  let font_sizes := font_sizes_of sorted_blocks in
  let out := Rounded.infer_hierarchy fl text_blocks in
  Permutation text_blocks sorted_blocks
  /\ StronglySorted (fun a b => yx_lt b a = false) sorted_blocks
  /\ descending font_sizes
  /\ (forall s, In s font_sizes -> exists b, In b text_blocks /\ tb_size b = s)
  /\ (forall b, In b text_blocks ->
        exists s, In s font_sizes /\ (s == tb_size b)%Q)
  /\ List.length out = List.length text_blocks
  /\ (forall i block,
        nth_error sorted_blocks i = Some block ->
        exists b,
          nth_error out i = Some b
          /\ same_content b block
          /\ placed fl font_sizes
               match i with
               | O => None
               | S j => nth_error out j
               end
               block b).
Proof.
  intros sorted_blocks font_sizes out.
  assert (Hperm : Permutation text_blocks sorted_blocks)
    by apply sort_by_perm.
  assert (Hd : descending font_sizes) by apply font_sizes_descending.
  assert (Hcov : forall b, In b sorted_blocks ->
            exists s, In s font_sizes /\ (s == tb_size b)%Q)
    by (intros b; apply font_sizes_covers).
  assert (Hout : out = Rounded.infer_loop fl font_sizes None sorted_blocks).
  { subst out sorted_blocks font_sizes. unfold Rounded.infer_hierarchy.
    destruct text_blocks; reflexivity. }
  split; [exact Hperm|]. split.
  { apply (sort_by_sorted yx_lt_asym yx_lt_cotransitive). }
  split; [exact Hd|]. split.
  { intros s Hs. destruct (font_sizes_incl _ _ Hs) as (b & Hb & E).
    exists b. split; [|exact E].
    apply (Permutation_in _ (Permutation_sym Hperm)), Hb. }
  split.
  { intros b Hb. apply Hcov. apply (Permutation_in _ Hperm), Hb. }
  split.
  { rewrite Hout, rounded_infer_loop_length. symmetry.
    apply Permutation_length, Hperm. }
  intros i block Hi. rewrite Hout.
  apply (@infer_loop_nth font_sizes sorted_blocks Hd Hcov None i block Hi).
Qed.

(** The test on the exact numbers, for a rounding that keeps the order and
    leaves a double as it is, as the rounding to the nearest double does:
    a block that passes the test starts more than 5 to the right, and a
    block that starts at most 5 to the right does not pass it. *)
Lemma indented_exact (prev block : TextBlock) :
  (forall a b, (a <= b)%Q -> (fl a <= fl b)%Q) ->
  (fl (tb_x0 block) == tb_x0 block)%Q ->
  (indented fl prev block -> (tb_x0 prev + 5 < tb_x0 block)%Q)
  /\ ((tb_x0 block <= tb_x0 prev + 5)%Q -> ~ indented fl prev block).
Proof.
  intros Hmono Hfix. unfold indented.
  assert (H : (tb_x0 block <= tb_x0 prev + 5)%Q ->
              (tb_x0 block <= fl (tb_x0 prev + 5))%Q).
  { intros Hle. rewrite <- Hfix. apply Hmono, Hle. }
  split.
  - intros Hi. apply Qnot_le_lt. intros Hle.
    apply (Qlt_not_le _ _ Hi), H, Hle.
  - intros Hle Hi. apply (Qlt_not_le _ _ Hi), H, Hle.
Qed.

End RoundedHierarchy.

(** With the exact arithmetic the functions are those of [PdfToJson]. *)
Lemma infer_loop_exact (font_sizes : list Q) (blocks : list TextBlock) :
  forall last : option TextBlock,
    Rounded.infer_loop Binary64.exact font_sizes last blocks
    = infer_loop font_sizes last blocks.
Proof.
  induction blocks as [|b l IH]; intros last; [reflexivity|].
  cbn [Rounded.infer_loop infer_loop]. cbv zeta.
  rewrite IH. reflexivity.
Qed.

Lemma infer_hierarchy_exact (text_blocks : list TextBlock) :
  Rounded.infer_hierarchy Binary64.exact text_blocks
  = infer_hierarchy text_blocks.
Proof.
  unfold Rounded.infer_hierarchy, infer_hierarchy.
  destruct text_blocks as [|b0 rest]; [reflexivity|].
  apply infer_loop_exact.
Qed.

(** The theorem on two blocks that start at the doubles of 0.7 and of 5.7,
    with the rounding of Python. *)
Lemma infer_hierarchy_levels_witness :
  exists b,
    nth_error
      (Rounded.infer_hierarchy Binary64.round64
         [MoreExamples.margin_block; MoreExamples.item_block]) 1
    = Some b
    /\ RoundedSpec.same_content b MoreExamples.item_block
    /\ RoundedSpec.placed Binary64.round64
         (font_sizes_of
            (sort_by yx_lt
               [MoreExamples.margin_block; MoreExamples.item_block]))
         (nth_error
            (Rounded.infer_hierarchy Binary64.round64
               [MoreExamples.margin_block; MoreExamples.item_block]) 0)
         MoreExamples.item_block b.
Proof.
  apply (proj2 (proj2 (proj2 (proj2 (proj2 (proj2
           (infer_hierarchy_levels Binary64.round64
              [MoreExamples.margin_block; MoreExamples.item_block]))))))
           1%nat).
  reflexivity.
Defined.

(** The rounding decides: the double of 5.7 exceeds the double of 0.7 by a
    little more than 5, and the sum of the double of 0.7 and 5 is rounded to
    the double of 5.7.  Python gives the second block no parent; the exact
    arithmetic gives it the first block as its parent. *)
Example rounding_decides_the_parent :
  (5 < Binary64.round64 (57 # 10) - Binary64.round64 (7 # 10))%Q
  /\ map tb_parent_id
       (Rounded.infer_hierarchy Binary64.round64
          [MoreExamples.margin_block; MoreExamples.item_block])
     = [None; None]
  /\ map tb_parent_id
       (infer_hierarchy [MoreExamples.margin_block; MoreExamples.item_block])
     = [None; Some (lit "text_1_0")].
Proof.
  split; [vm_compute; reflexivity|].
  split; vm_compute; reflexivity.
Qed.

End HierarchyFacts.

(* ================================================================== *)
(** * The sanitized file name *)
(* ================================================================== *)

Module SanitizeFacts.
Import Py PyFacts RunFacts PdfToJson Spec.

Section SanitizeProofs.

Variable isalnum_nonascii : N -> bool.

(** No letter or digit is whitespace. *)
Hypothesis alnum_not_space :
  forall c, (0x80 <= c)%N -> isalnum_nonascii c = true -> isspace c = false.

(** A safe character of ASCII is a digit, a letter, the underscore or the
    hyphen. *)
Lemma safe_ascii (c : N) :
  (c < 0x80)%N -> safe isalnum_nonascii c = true ->
  (0x30 <= c <= 0x39 \/ 0x41 <= c <= 0x5A \/ 0x61 <= c <= 0x7A
   \/ c = 0x5F \/ c = 0x2D)%N.
Proof.
  intros Hlt. unfold safe, PdfToJson.isword, isalnum_ascii, UNDERSCORE, HYPHEN.
  apply N.ltb_lt in Hlt. rewrite Hlt.
  rewrite !orb_true_iff, !andb_true_iff, !N.leb_le, !N.eqb_eq. tauto.
Qed.

Lemma isspace_true (c : N) :
  isspace c = true ->
  (0x09 <= c <= 0x0D \/ 0x1C <= c <= 0x20 \/ 0x85 <= c)%N.
Proof.
  unfold isspace.
  rewrite !orb_true_iff, !andb_true_iff, !N.leb_le, !N.eqb_eq. lia.
Qed.

Lemma safe_not_space (c : N) : safe isalnum_nonascii c = true -> isspace c = false.
Proof.
  intros H. destruct (N.lt_ge_cases c 0x80) as [Hlt|Hge].
  - apply not_true_iff_false. intros Hs.
    apply isspace_true in Hs. apply (safe_ascii Hlt) in H. lia.
  - unfold safe, PdfToJson.isword in H.
    apply N.ltb_ge in Hge. rewrite Hge in H. apply N.ltb_ge in Hge.
    apply orb_true_iff in H. destruct H as [H|H].
    + apply alnum_not_space; assumption.
    + apply N.eqb_eq in H. subst c. reflexivity.
Qed.

Lemma in_unsafe_chars (c : N) :
  in_chars c unsafe_chars = true ->
  (c = 0x3C \/ c = 0x3E \/ c = 0x3A \/ c = 0x22 \/ c = 0x2F \/ c = 0x5C
   \/ c = 0x7C \/ c = 0x3F \/ c = 0x2A)%N.
Proof.
  unfold in_chars.
  change unsafe_chars
    with [0x3C; 0x3E; 0x3A; 0x22; 0x2F; 0x5C; 0x7C; 0x3F; 0x2A]%N.
  cbn [existsb]. rewrite !orb_true_iff, !N.eqb_eq. intuition discriminate.
Qed.

Lemma safe_not_unsafe (c : N) :
  safe isalnum_nonascii c = true -> in_chars c unsafe_chars = false.
Proof.
  intros H. apply not_true_iff_false. intros Hu.
  apply in_unsafe_chars in Hu.
  destruct (N.lt_ge_cases c 0x80) as [Hlt|Hge].
  - apply (safe_ascii Hlt) in H. lia.
  - unfold safe, PdfToJson.isword, HYPHEN in H.
    destruct Hu as [E|[E|[E|[E|[E|[E|[E|[E|E]]]]]]]]; subst c;
      vm_compute in Hge; congruence.
Qed.

Lemma safe_not_control (c : N) :
  safe isalnum_nonascii c = true -> in_chars c [0x0A; 0x0D; 0x09]%N = false.
Proof.
  intros H. apply safe_not_space in H. unfold in_chars. cbn [existsb].
  destruct (N.eqb_spec c 0x0A) as [->|_]; [discriminate H|].
  destruct (N.eqb_spec c 0x0D) as [->|_]; [discriminate H|].
  destruct (N.eqb_spec c 0x09) as [->|_]; [discriminate H|].
  reflexivity.
Qed.

Lemma safe_underscore : safe isalnum_nonascii UNDERSCORE = true.
Proof. reflexivity. Qed.

Lemma map_id_on (f : N -> N) (s : str) :
  (forall c, In c s -> f c = c) -> map f s = s.
Proof.
  induction s as [|a t IH]; intros H; [reflexivity|].
  simpl. rewrite (H a) by now left. f_equal. apply IH.
  intros c Hc. apply H. now right.
Qed.

Lemma filter_all (f : N -> bool) (s : str) :
  (forall c, In c s -> f c = true) -> filter f s = s.
Proof.
  induction s as [|a t IH]; intros H; [reflexivity|].
  simpl. rewrite (H a) by now left. f_equal. apply IH.
  intros c Hc. apply H. now right.
Qed.

Lemma firstn_head (n : nat) (s : str) :
  match s with c :: _ => c <> UNDERSCORE | [] => True end ->
  match firstn n s with c :: _ => c <> UNDERSCORE | [] => True end.
Proof. destruct n, s; simpl; auto. Qed.

Lemma firstn_incl (n : nat) (s : str) (c : N) : In c (firstn n s) -> In c s.
Proof.
  revert s. induction n as [|n IH]; intros [|a t]; simpl; try tauto.
  intros [H|H]; [now left | right; apply IH, H].
Qed.

Lemma sanitized_unnamed : sanitized isalnum_nonascii (lit "unnamed").
Proof.
  split.
  - intros c Hc. simpl in Hc.
    repeat (destruct Hc as [<-|Hc]; [reflexivity|]). destruct Hc.
  - discriminate.
  - simpl. lia.
Qed.

(** Every result of [sanitize_filename] is sanitized. *)
Lemma sanitize_filename_sanitized (s : str) :
  sanitized isalnum_nonascii (sanitize_filename isalnum_nonascii s).
Proof.
  destruct s as [|a0 t0]; [apply sanitized_unnamed|].
  unfold PdfToJson.sanitize_filename.
  set (s1 := re_sub_plus isspace (lit " ") (strip (a0 :: t0))).
  set (s2 := re_remove _ s1).
  set (s3 := re_sub_char (fun c => in_chars c unsafe_chars) UNDERSCORE s2).
  set (s4 := re_sub_char _ UNDERSCORE s3).
  set (s5 := re_sub_plus (N.eqb UNDERSCORE) (lit "_") s4).
  set (s6 := re_sub_char (N.eqb SP) UNDERSCORE s5).
  set (s7 := strip_by (N.eqb UNDERSCORE) s6).
  assert (H1 : forall c, In c s1 -> isspace c = true -> c = SP).
  { intros c Hc Hs. apply sub_runs_in in Hc.
    destruct Hc as [[<-|[]]|[_ Hc]]; [reflexivity | congruence]. }
  assert (H2 : forall c, In c s2 -> isspace c = true -> c = SP).
  { intros c Hc. apply filter_In in Hc. apply H1, Hc. }
  assert (H3 : forall c, In c s3 -> isspace c = true -> c = SP).
  { intros c Hc. apply in_map_iff in Hc. destruct Hc as (c' & E & Hc').
    destruct (in_chars c' unsafe_chars); subst c;
      [discriminate | apply H2, Hc']. }
  assert (H4 : forall c, In c s4 -> safe isalnum_nonascii c = true \/ c = SP).
  { intros c Hc. apply in_map_iff in Hc. destruct Hc as (c' & E & Hc').
    destruct (negb _) eqn:En; subst c; [left; reflexivity|].
    apply negb_false_iff in En. rewrite !orb_true_iff in En.
    destruct En as [[En|En]|En].
    - left. unfold safe. rewrite En. reflexivity.
    - right. apply H3; assumption.
    - left. unfold safe. rewrite En. apply orb_true_r. }
  assert (H5 : forall c, In c s5 -> safe isalnum_nonascii c = true \/ c = SP).
  { intros c Hc. apply sub_runs_in in Hc.
    destruct Hc as [[<-|[]]|[Hc _]]; [left; reflexivity | apply H4, Hc]. }
  assert (H6 : all_safe isalnum_nonascii s6).
  { intros c Hc. apply in_map_iff in Hc. destruct Hc as (c' & E & Hc').
    destruct (N.eqb_spec SP c') as [Es|Es]; subst c; [reflexivity|].
    destruct (H5 c' Hc') as [H|H]; [exact H | congruence]. }
  assert (H7 : all_safe isalnum_nonascii s7).
  { intros c Hc. apply H6. unfold s7, strip_by in Hc.
    apply lstrip_by_incl in Hc. apply rstrip_by_incl in Hc. exact Hc. }
  assert (H7h : match s7 with c :: _ => c <> UNDERSCORE | [] => True end).
  { unfold s7, strip_by.
    pose proof (lstrip_by_head (N.eqb UNDERSCORE)
                  (rstrip_by (N.eqb UNDERSCORE) s6)) as Hh.
    destruct (lstrip_by _ _); [exact I|].
    apply N.eqb_neq in Hh. congruence. }
  pose proof (firstn_head 50 s7 H7h) as H8h.
  destruct (firstn 50 s7) as [|c8 t8] eqn:E8; [apply sanitized_unnamed|].
  split.
  - intros c Hc. apply H7. apply (@firstn_incl 50). rewrite E8. exact Hc.
  - exact H8h.
  - rewrite <- E8. apply firstn_le_length.
Qed.

(** On a sanitized name only two steps can act: the run of underscores is
    collapsed, and an underscore at the end is removed. *)
Lemma sanitize_filename_on_sanitized (o : str) :
  sanitized isalnum_nonascii o ->
  sanitize_filename isalnum_nonascii o
  = rstrip_by (N.eqb UNDERSCORE) (re_sub_plus (N.eqb UNDERSCORE) [UNDERSCORE] o).
Proof.
  intros [Hsafe Hhead Hlen].
  destruct o as [|a0 t0]; [contradiction|].
  set (o := a0 :: t0) in *.
  assert (Hns : forall c, In c o -> isspace c = false)
    by (intros c Hc; apply safe_not_space, Hsafe, Hc).
  unfold PdfToJson.sanitize_filename. fold o.
  assert (E0 : strip o = o).
  { unfold strip, strip_by. rewrite (rstrip_by_none _ _ Hns).
    apply lstrip_by_none, Hns. }
  assert (E1 : re_sub_plus isspace (lit " ") (strip o) = o).
  { rewrite E0. apply sub_runs_none, Hns. }
  rewrite E1.
  assert (E2 : re_remove (fun c => in_chars c [0x0A; 0x0D; 0x09]%N) o = o).
  { apply filter_all. intros c Hc. apply negb_true_iff.
    apply safe_not_control, Hsafe, Hc. }
  rewrite E2.
  assert (E3 : re_sub_char (fun c => in_chars c unsafe_chars) UNDERSCORE o = o).
  { apply map_id_on. intros c Hc.
    rewrite (@safe_not_unsafe c (Hsafe c Hc)). reflexivity. }
  rewrite E3.
  assert (E4 : re_sub_char
                 (fun c =>
                    negb (isword isalnum_nonascii c || isspace c
                          || (c =? HYPHEN)%N))
                 UNDERSCORE o = o).
  { apply map_id_on. intros c Hc. pose proof (Hsafe c Hc) as Hs.
    unfold safe in Hs. apply orb_true_iff in Hs.
    destruct Hs as [Hs|Hs]; rewrite Hs; simpl;
      rewrite ?orb_true_r; reflexivity. }
  rewrite E4.
  change (lit "_") with [UNDERSCORE].
  set (s5 := re_sub_plus (N.eqb UNDERSCORE) [UNDERSCORE] o).
  assert (H5 : forall c, In c s5 -> isspace c = false).
  { intros c Hc. apply sub_runs_in in Hc.
    destruct Hc as [[<-|[]]|[Hc _]]; [reflexivity | apply Hns, Hc]. }
  assert (E6 : re_sub_char (N.eqb SP) UNDERSCORE s5 = s5).
  { apply map_id_on. intros c Hc.
    destruct (N.eqb_spec SP c) as [Es|Es]; [|reflexivity].
    subst c. specialize (H5 _ Hc). discriminate H5. }
  rewrite E6.
  assert (Hs5 : exists t5, s5 = a0 :: t5).
  { unfold s5, re_sub_plus, o. cbn [sub_runs].
    destruct (N.eqb_spec UNDERSCORE a0) as [E|E]; [congruence|].
    eexists. reflexivity. }
  destruct Hs5 as [t5 Es5].
  assert (Hr : exists t', rstrip_by (N.eqb UNDERSCORE) s5 = a0 :: t').
  { rewrite Es5. apply rstrip_by_cons_keep. apply N.eqb_neq. congruence. }
  destruct Hr as [t' Er].
  assert (E7 : strip_by (N.eqb UNDERSCORE) s5
               = rstrip_by (N.eqb UNDERSCORE) s5).
  { unfold strip_by. rewrite Er. cbn [lstrip_by].
    destruct (N.eqb_spec UNDERSCORE a0); [congruence | reflexivity]. }
  rewrite E7.
  assert (E8 : firstn 50 (rstrip_by (N.eqb UNDERSCORE) s5)
               = rstrip_by (N.eqb UNDERSCORE) s5).
  { apply firstn_all2.
    pose proof (rstrip_by_length (N.eqb UNDERSCORE) s5) as L1.
    assert (L2 : (List.length s5 <= List.length o)%nat)
      by apply sub_runs_length.
    lia. }
  rewrite E8, Er. reflexivity.
Qed.

(** A sanitized name is a fixed point exactly when it has no two adjacent
    underscores and no underscore at its end. *)
Lemma sanitized_fixed_point (o : str) :
  sanitized isalnum_nonascii o ->
  (sanitize_filename isalnum_nonascii o = o <->
   adjacent UNDERSCORE o = false /\ ends_with_char UNDERSCORE o = false).
Proof.
  intros Ho. rewrite (@sanitize_filename_on_sanitized _ Ho).
  unfold re_sub_plus. split.
  - intros E. split.
    + rewrite <- E. apply rstrip_by_adjacent. apply sub_runs_adjacent.
    + apply ends_with_char_last. intros Hne d. rewrite <- E.
      pose proof (@rstrip_by_last (N.eqb UNDERSCORE)
                    (sub_runs (N.eqb UNDERSCORE) [UNDERSCORE] false o) d) as Hl.
      rewrite E in Hl. specialize (Hl Hne). rewrite E.
      apply N.eqb_neq in Hl. congruence.
  - intros [Ha He].
    rewrite (proj1 (@sub_runs_no_adjacent _ _ Ha)).
    apply rstrip_by_id. intros d Hne.
    pose proof (proj1 (ends_with_char_last UNDERSCORE o) He Hne d) as Hd.
    apply N.eqb_neq. intros E. apply Hd. symmetry. exact E.
Qed.

(** The extent of the failure below: a second pass changes a sanitized
    name exactly when the name has two adjacent underscores or ends with an
    underscore, and a third pass changes nothing. *)
Lemma sanitize_filename_second_pass (s : str) :
  let sanitize := sanitize_filename isalnum_nonascii in
  (sanitize (sanitize s) = sanitize s <->
   adjacent UNDERSCORE (sanitize s) = false
   /\ ends_with_char UNDERSCORE (sanitize s) = false)
  /\ sanitize (sanitize (sanitize s)) = sanitize (sanitize s).
Proof.
  intros sanitize. subst sanitize.
  pose proof (sanitize_filename_sanitized s) as Ho.
  split; [apply sanitized_fixed_point, Ho|].
  apply sanitized_fixed_point; [apply sanitize_filename_sanitized|].
  rewrite (@sanitize_filename_on_sanitized _ Ho). unfold re_sub_plus. split.
  - apply rstrip_by_adjacent. apply sub_runs_adjacent.
  - apply ends_with_char_last. intros Hne d.
    pose proof (@rstrip_by_last (N.eqb UNDERSCORE)
                  (sub_runs (N.eqb UNDERSCORE) [UNDERSCORE] false
                     (sanitize_filename isalnum_nonascii s)) d Hne) as Hl.
    apply N.eqb_neq in Hl. congruence.
Qed.

End SanitizeProofs.

(** C7: sanitizing is not idempotent, whatever the table of letters.  The
    colon and the space of the caption [Table 1: Results] each become an
    underscore, the space only after the runs of underscores have been
    collapsed, so that the result has two adjacent underscores, which a
    second pass collapses.  And a name is cut at 50 characters after the
    underscores at its ends have been stripped, so that the result can end
    with an underscore, which a second pass strips. *)
Theorem sanitize_filename_not_idempotent :
  forall f,
    let sanitize := sanitize_filename f in
    let caption := lit "Table 1: Results" in
    let long_name :=
      lit "aaaaaaaaaaaaaaaaaaaaaaaaaaaaaaaaaaaaaaaaaaaaaaaaa b" in
    sanitize caption = lit "Table_1__Results"
    /\ sanitize (sanitize caption) = lit "Table_1_Results"
    /\ sanitize (sanitize caption) <> sanitize caption
    /\ sanitize long_name
       = lit "aaaaaaaaaaaaaaaaaaaaaaaaaaaaaaaaaaaaaaaaaaaaaaaaa_"
    /\ sanitize (sanitize long_name)
       = lit "aaaaaaaaaaaaaaaaaaaaaaaaaaaaaaaaaaaaaaaaaaaaaaaaa"
    /\ sanitize (sanitize long_name) <> sanitize long_name.
Proof.
  intros f. cbv zeta.
  assert (E1 : sanitize_filename f (lit "Table 1: Results")
               = lit "Table_1__Results") by reflexivity.
  assert (E2 : sanitize_filename f (lit "Table_1__Results")
               = lit "Table_1_Results") by reflexivity.
  assert (E3 : sanitize_filename f
                 (lit "aaaaaaaaaaaaaaaaaaaaaaaaaaaaaaaaaaaaaaaaaaaaaaaaa b")
               = lit "aaaaaaaaaaaaaaaaaaaaaaaaaaaaaaaaaaaaaaaaaaaaaaaaa_")
    by reflexivity.
  assert (E4 : sanitize_filename f
                 (lit "aaaaaaaaaaaaaaaaaaaaaaaaaaaaaaaaaaaaaaaaaaaaaaaaa_")
               = lit "aaaaaaaaaaaaaaaaaaaaaaaaaaaaaaaaaaaaaaaaaaaaaaaaa")
    by reflexivity.
  rewrite E1, E2, E3, E4.
  repeat split; try discriminate.
Qed.

End SanitizeFacts.

(* ================================================================== *)
(** * Facts about json_to_pdf.py *)
(* ================================================================== *)

Module JsonToPdfFacts.
Import Py PyFacts Num NumFacts Exc JsonToPdf RenderSpec.

(** ** [clean_text_for_pdf] *)

Lemma cleaned_chars_cons (a : N) (t : str) :
  cleaned_chars (a :: t) =
  if ((0xD800 <=? a) && (a <=? 0xDFFF))%N then cleaned_chars t
  else if (a <? 32)%N && negb (in_chars a [0x09; 0x0A; 0x0D]%N)
       then cleaned_chars t
       else a :: cleaned_chars t.
Proof. reflexivity. Qed.

Lemma cleaned_chars_in (text : str) (c : N) :
  In c (cleaned_chars text) ->
  In c text
  /\ ~ (0xD800 <= c <= 0xDFFF)%N
  /\ ((c < 32)%N -> c = 0x09%N \/ c = 0x0A%N \/ c = 0x0D%N).
Proof.
  induction text as [|a t IH]; [simpl; tauto|].
  rewrite cleaned_chars_cons.
  destruct ((0xD800 <=? a)%N && (a <=? 0xDFFF)%N) eqn:Es.
  - intros H. apply IH in H. simpl. tauto.
  - destruct ((a <? 32)%N && negb (in_chars a [0x09; 0x0A; 0x0D]%N)) eqn:Ec.
    + intros H. apply IH in H. simpl. tauto.
    + intros [<-|H]; [|apply IH in H; simpl; tauto].
      split; [now left|]. split.
      * intros [H1 H2]. apply N.leb_le in H1, H2. rewrite H1, H2 in Es.
        discriminate.
      * intros Hlt. apply N.ltb_lt in Hlt. rewrite Hlt in Ec. simpl in Ec.
        apply negb_false_iff in Ec. unfold in_chars in Ec. simpl in Ec.
        rewrite !orb_true_iff in Ec. rewrite !N.eqb_eq in Ec.
        destruct Ec as [E|[E|[E|E]]]; [tauto | tauto | tauto | discriminate E].
Qed.

Lemma re_remove_in (p : N -> bool) (s : str) (c : N) :
  In c (re_remove p s) -> In c s /\ p c = false.
Proof.
  unfold re_remove. rewrite filter_In. intros [H1 H2].
  split; [exact H1|]. now apply negb_true_iff.
Qed.

Lemma clean_text_for_pdf_eq (text : str) :
  clean_text_for_pdf text =
  join [SP] (split (cleaned_chars (re_remove (N.eqb 0x00) text))).
Proof.
  destruct text as [|a t]; [reflexivity|].
  unfold clean_text_for_pdf. rewrite lit_space.
  apply strip_sub_runs_split.
Qed.

(** C10, as corrected: the cleaned text is the whitespace separated words
    of the text that is left when NUL, the surrogates and the characters
    below U+0020 other than tab, line feed and carriage return are dropped,
    joined by single spaces.  It holds no NUL, no surrogate, no character
    below U+0020 (so no newline and no tab), no whitespace other than the
    space, no two adjacent spaces, and no whitespace at either end. *)
Theorem clean_text_for_pdf_spec (text : str) :
  let kept := cleaned_chars (re_remove (N.eqb 0x00) text) in
  let out := clean_text_for_pdf text in
  out = join [SP] (split kept)
  /\ (forall c, In c out ->
        c <> 0x00%N
        /\ ~ (0xD800 <= c <= 0xDFFF)%N
        /\ (0x20 <= c)%N
        /\ (isspace c = true -> c = SP))
  /\ adjacent SP out = false
  /\ starts_with_space out = false
  /\ ends_with_space out = false.
Proof.
  intros kept out. subst out. rewrite clean_text_for_pdf_eq. fold kept.
  split; [reflexivity|]. split; [|apply join_split_shape].
  intros c Hc. apply in_join_split in Hc. destruct Hc as [->|[Hin Hsp]].
  - split; [discriminate|]. split; [|split].
    + intros [H _]. vm_compute in H. apply H. reflexivity.
    + vm_compute. discriminate.
    + reflexivity.
  - subst kept. apply cleaned_chars_in in Hin. destruct Hin as (Hin & Hs & Hlow).
    apply re_remove_in in Hin. destruct Hin as [_ H0].
    apply N.eqb_neq in H0.
    split; [congruence|]. split; [exact Hs|]. split.
    + destruct (N.lt_ge_cases c 32) as [Hlt|Hge]; [|exact Hge].
      apply Hlow in Hlt. destruct Hlt as [E|[E|E]]; subst c; discriminate Hsp.
    + rewrite Hsp. discriminate.
Qed.

(** The theorem at a text with a tab: the space that stands for the tab in
    the cleaned text. *)
Lemma clean_text_for_pdf_spec_witness :
  SP <> 0x00%N
  /\ ~ (0xD800 <= SP <= 0xDFFF)%N
  /\ (0x20 <= SP)%N
  /\ (isspace SP = true -> SP = SP).
Proof.
  apply (proj1 (proj2 (clean_text_for_pdf_spec [0x61; 0x09; 0x62]%N)) SP).
  vm_compute. tauto.
Defined.

(** C10, as stated, fails: DELETE (U+007F) is a control character and is
    kept; and a vertical tab, which is whitespace, is dropped and not replaced by a
    space. *)
Lemma clean_text_for_pdf_keeps_control :
  clean_text_for_pdf [0x61; 0x7F; 0x62]%N = [0x61; 0x7F; 0x62]%N
  /\ In 0x7F%N (clean_text_for_pdf [0x61; 0x7F; 0x62]%N)
  /\ is_control 0x7F%N = true
  /\ isspace 0x0B%N = true
  /\ clean_text_for_pdf [0x61; 0x0B; 0x62]%N = [0x61; 0x62]%N.
Proof.
  repeat split; try reflexivity.
  vm_compute. tauto.
Qed.

(** ** [render_text_enhanced] *)

Opaque clean_text_for_pdf.

Section TextLoop.

Variable fl : Q -> Q.

(** The text blocks that the loop draws: those with text that the test
    against the boxes lets pass and whose cleaned text is not empty. *)
Lemma render_text_loop_in (tb cb ib : list (list Q)) (blocks : list BlockInfo)
  (k i : nat) (t : str) :
  In (BlockText i t) (render_text_loop fl tb cb ib k blocks) <->
  exists blk,
    (k <= i)%nat
    /\ nth_error blocks (i - k) = Some blk
    /\ blk_text blk <> []
    /\ is_inside_any_table_or_image_or_cell fl tb cb ib (blk_x0 blk)
         (blk_y0 blk) (blk_x1 blk) (blk_y1 blk) = false
    /\ t = clean_text_for_pdf (blk_text blk)
    /\ strip t <> [].
Proof.
  revert k. induction blocks as [|b rest IH]; intros k.
  - simpl. split; [tauto|]. intros (blk & _ & H & _).
    destruct (i - k)%nat; discriminate H.
  - cbn [render_text_loop]. cbv zeta.
    set (hidden blk :=
           is_inside_any_table_or_image_or_cell fl tb cb ib (blk_x0 blk)
             (blk_y0 blk) (blk_x1 blk) (blk_y1 blk)).
    assert (Hrest :
      In (BlockText i t) (render_text_loop fl tb cb ib (S k) rest) <->
      exists blk,
        (k < i)%nat /\ nth_error (b :: rest) (i - k) = Some blk
        /\ blk_text blk <> [] /\ hidden blk = false
        /\ t = clean_text_for_pdf (blk_text blk) /\ strip t <> []).
    { rewrite IH. split.
      - intros (blk & Hk & Hn & H). exists blk. split; [lia|].
        split; [|exact H].
        replace (i - k)%nat with (S (i - S k)) by lia. exact Hn.
      - intros (blk & Hk & Hn & H). exists blk. split; [lia|].
        split; [|exact H].
        replace (i - k)%nat with (S (i - S k)) in Hn by lia. exact Hn. }
    assert (Hskip :
      (blk_text b = [] \/ hidden b = true
       \/ strip (clean_text_for_pdf (blk_text b)) = []) ->
      (In (BlockText i t) (render_text_loop fl tb cb ib (S k) rest) <->
       exists blk,
         (k <= i)%nat /\ nth_error (b :: rest) (i - k) = Some blk
         /\ blk_text blk <> [] /\ hidden blk = false
         /\ t = clean_text_for_pdf (blk_text blk) /\ strip t <> [])).
    { intros Hb. rewrite Hrest. split.
      - intros (blk & Hk & H). exists blk. split; [lia | exact H].
      - intros (blk & Hk & Hn & H1 & H2 & H3 & H4).
        exists blk. split; [|auto].
        destruct (Nat.eq_dec i k) as [->|Hne]; [|lia].
        rewrite Nat.sub_diag in Hn. injection Hn as <-.
        subst t. destruct Hb as [Hb|[Hb|Hb]];
          [contradiction|congruence|contradiction]. }
    destruct (blk_text b) as [|c0 text0] eqn:Et.
    { apply Hskip. now left. }
    fold (hidden b). destruct (hidden b) eqn:Ei.
    { apply Hskip. right. left. reflexivity. }
    destruct (strip (clean_text_for_pdf (c0 :: text0))) as [|c1 t1] eqn:Es.
    { apply Hskip. right. right. reflexivity. }
    cbn [In]. rewrite Hrest. split.
    + intros [H|(blk & Hk & H)].
      * injection H as <- <-. exists b. split; [lia|].
        rewrite Nat.sub_diag. split; [reflexivity|].
        rewrite Et. split; [discriminate|].
        split; [exact Ei|]. split; [reflexivity|].
        rewrite Es. discriminate.
      * exists blk. split; [lia | exact H].
    + intros (blk & Hk & Hn & H1 & H2 & H3 & H4).
      destruct (Nat.eq_dec i k) as [->|Hne].
      * left. rewrite Nat.sub_diag in Hn. injection Hn as <-.
        subst t. rewrite Et. reflexivity.
      * right. exists blk. split; [lia|]. auto.
Qed.

End TextLoop.

Transparent clean_text_for_pdf.

Lemma strip_clean_text (text : str) :
  strip (clean_text_for_pdf text) = clean_text_for_pdf text.
Proof.
  rewrite clean_text_for_pdf_eq.
  set (kept := cleaned_chars (re_remove (N.eqb 0x00) text)).
  unfold strip, strip_by.
  assert (Hr : rstrip_by isspace (join [SP] (split kept))
               = join [SP] (split kept)).
  { apply rstrip_by_id. intros d Hne. apply last_join.
    - apply split_words_ok.
    - intros E. rewrite E in Hne. apply Hne. reflexivity. }
  rewrite Hr. apply lstrip_by_id. apply join_split_head.
Qed.

(** ** [draw_tables_enhanced] *)

Lemma draw_cells_ops (tbl_idx : nat) (table_bbox : Rect) (cells : list CellInfo) :
  forall (cell_idx : nat) (op : DrawOp),
    In op (fst (draw_cells tbl_idx table_bbox cell_idx cells)) ->
    is_block_text op = false.
Proof.
  induction cells as [|cell rest IH]; intros cell_idx op; [intros []|].
  cbn [draw_cells].
  destruct (draw_cells tbl_idx table_bbox (S cell_idx) rest) as [ops boxes] eqn:E.
  specialize (IH (S cell_idx) op). rewrite E in IH. simpl in IH.
  destruct (cell_text cell); [exact IH|].
  destruct (match cell_bbox cell with Some b => b | None => table_bbox end)
    as [[[cx0 cy0] cx1] cy1].
  cbv zeta.
  destruct (Qle_bool (cx1 - cx0) 0 || Qle_bool (cy1 - cy0) 0); [exact IH|].
  destruct (strip _); [exact IH|].
  intros [<-|H]; [reflexivity | apply IH, H].
Qed.

Section DrawTables.

Variable fl : Q -> Q.
Variable open_image : str -> Result (Z * Z).

(** No operation of a table draws a text block. *)
Lemma draw_table_ops (page_w page_h : Q) (tbl_idx : nat) (tbl : TableInfo)
  (op : DrawOp) :
  In op (fst (fst (draw_table fl open_image page_w page_h tbl_idx tbl))) ->
  is_block_text op = false.
Proof.
  unfold draw_table.
  destruct (match tbl_bbox tbl with Some b => b | None => _ end)
    as [[[x0 y0] x1] y1].
  cbv zeta.
  set (X0 := Qmin x0 x1). set (Y0 := Qmin y0 y1).
  destruct (Qle_bool (fl (Qmax x0 x1 - X0)) 0);
    destruct (Qle_bool (fl (Qmax y0 y1 - Y0)) 0);
    match goal with
    | |- context [draw_cells tbl_idx ?b 0 (tbl_cells tbl)] =>
        pose proof (@draw_cells_ops tbl_idx b (tbl_cells tbl) 0%nat op) as Hc;
        destruct (draw_cells tbl_idx b 0 (tbl_cells tbl)) as [cops cboxes]
    end;
    cbn [fst] in Hc;
    (destruct (tbl_base64 tbl) as [|c0 s0];
     [ cbn [fst app]; exact Hc
     | destruct (open_image (c0 :: s0)) as [[ow oh]|e]; cbn [fst app];
       [ intros [<-|Hop]; [reflexivity | apply Hc, Hop] | exact Hc ] ]).
Qed.

Lemma draw_tables_loop_ops (page_w page_h : Q) (tables : list TableInfo) :
  forall (tbl_idx : nat) (op : DrawOp),
    In op (fst (fst (draw_tables_loop fl open_image page_w page_h tbl_idx
                       tables))) ->
    is_block_text op = false.
Proof.
  induction tables as [|tbl rest IH]; intros tbl_idx op; [intros []|].
  cbn [draw_tables_loop].
  pose proof (@draw_table_ops page_w page_h tbl_idx tbl op) as Ht.
  destruct (draw_table fl open_image page_w page_h tbl_idx tbl)
    as [[ops rendered] cells].
  specialize (IH (S tbl_idx) op).
  destruct (draw_tables_loop fl open_image page_w page_h (S tbl_idx) rest)
    as [[ops' rendered'] cells'].
  cbn [fst] in *. intros Hop. apply in_app_or in Hop.
  destruct Hop; [apply Ht | apply IH]; assumption.
Qed.

End DrawTables.

(** ** A text block over the image of a table *)

(** C4: a text block that overlaps a rendered table is not always
    suppressed.  On the page of 200 by 200 with a table at
    [(0, 0, 100, 100)], whose image of 100 by 50 pixels is scaled to 100 by
    50, the image is drawn with its lower left corner at [(0, 100)] of the
    canvas, so that it covers the lower half of the box of the table, from
    50 to 100 below the top of the page, while the box recorded for the
    rendered table is [[0, 0, 100, 50]], the upper half.  The text block at
    [(10, 60, 50, 70)] lies within the box of the table and within the
    rectangle that the image covers; it is drawn, after the image.  The same
    block at [(10, 10, 50, 20)], where nothing is painted, is not drawn. *)
Theorem text_block_drawn_over_table_image :
  let convert :=
    JsonPages.convert_page Binary64.round64 Examples.wide_image
      Examples.wide_image in
  let page := MoreExamples.page_with_table in
  let image := TableImage 0 0 100 100 50 in
  convert page
  = [JsonPages.Drawn image; JsonPages.Drawn (BlockText 0 (lit "Hello"))]
  /\ snd (draw_tables_enhanced Binary64.round64 Examples.wide_image
            (JsonPages.page_info_of page) 200 200)
     = ([[0; 0; 100; 50]%Q], [])
  /\ PageSpec.painted_box 200 image = Some [0; 50; 100; 100]%Q
  /\ (exists blk,
        nth_error (JsonPages.page_text_blocks page) 0 = Some blk
        /\ PageSpec.within blk [0; 0; 100; 100]%Q
        /\ PageSpec.within blk [0; 50; 100; 100]%Q)
  /\ PageSpec.text_drawn (convert page) 0
  /\ convert MoreExamples.page_with_upper_text = [JsonPages.Drawn image].
Proof.
  cbv zeta.
  assert (E : JsonPages.convert_page Binary64.round64 Examples.wide_image
                Examples.wide_image MoreExamples.page_with_table
              = [JsonPages.Drawn (TableImage 0 0 100 100 50);
                 JsonPages.Drawn (BlockText 0 (lit "Hello"))])
    by (vm_compute; reflexivity).
  split; [exact E|].
  split; [vm_compute; reflexivity|].
  split; [vm_compute; reflexivity|].
  split.
  { eexists. split; [reflexivity|].
    split; cbn; repeat split; unfold Qle; cbn; lia. }
  split; [rewrite E; exists (lit "Hello"); right; left; reflexivity|].
  vm_compute. reflexivity.
Qed.

End JsonToPdfFacts.

(* ================================================================== *)
(** * Text extraction, the OCR fallback and the order of the steps *)
(* ================================================================== *)

Module ExtractionFacts.
Import Py Num NumFacts Exc PdfToJson Spec.

(** ** The OCR fallback *)

Section Ocr.

Variable Pixmap : Type.
Variable preprocess : Pixmap -> Result Pixmap.
Variable image_to_string : Pixmap -> Result str.

Lemma extract_text_ocr_total (fitz_page : FitzPage Pixmap) :
  exists text,
    extract_text_ocr preprocess image_to_string fitz_page = Ok text.
Proof.
  unfold extract_text_ocr, try_except, bind.
  destruct (get_pixmap fitz_page) as [pix|e]; [|eexists; reflexivity].
  destruct (preprocess pix) as [img|e]; [|eexists; reflexivity].
  destruct (image_to_string img) as [text|e]; eexists; reflexivity.
Qed.

Lemma extract_text_ocr_failure (fitz_page : FitzPage Pixmap) :
  ocr_fails preprocess image_to_string fitz_page ->
  extract_text_ocr preprocess image_to_string fitz_page = Ok [].
Proof.
  unfold extract_text_ocr, try_except, bind, ocr_fails, raises.
  intros [(e & ->)|[(pix & -> & e & ->)|(pix & img & -> & -> & e & ->)]];
    reflexivity.
Qed.

Lemma extract_tables_text_blocks (m : str -> bool)
  (plumber_page : PlumberPage) (page_num : nat) (page_data : PageData) :
  pd_text_blocks (extract_tables m plumber_page page_num page_data)
  = pd_text_blocks page_data
  /\ pd_text (extract_tables m plumber_page page_num page_data)
     = pd_text page_data.
Proof.
  unfold extract_tables. destruct (find_tables plumber_page); split; reflexivity.
Qed.

(** C9: the recognition returns a string whatever happens in it, the empty
    string when one of its steps raises; a page for which the text path
    finds no block and the recognition fails keeps an empty list of text
    blocks and an empty text, in [extract_text_enhanced] and in the page
    that [extract] records. *)
Theorem extract_text_ocr_never_raises (m : str -> bool)
  (plumber_page : PlumberPage) (fitz_page : FitzPage Pixmap) :
  (exists text,
     extract_text_ocr preprocess image_to_string fitz_page = Ok text)
  /\ (ocr_fails preprocess image_to_string fitz_page ->
      extract_text_ocr preprocess image_to_string fitz_page = Ok []
      /\ forall (page_data : PageData) (raw_blocks : list Block),
           get_text_rawdict fitz_page = Ok raw_blocks ->
           sort_by round_yx_lt
             (merge_text_blocks
                (build_text_blocks (pd_page_number page_data)
                   (map t_bbox (pd_tables page_data)) 0 raw_blocks)) = [] ->
           extract_text_enhanced preprocess image_to_string fitz_page page_data
           = set_text_blocks page_data [] [])
  /\ (ocr_fails preprocess image_to_string fitz_page ->
      forall (page_number : nat) (raw_blocks : list Block),
        get_text_rawdict fitz_page = Ok raw_blocks ->
        sort_by round_yx_lt
          (merge_text_blocks
             (build_text_blocks page_number [] 0 raw_blocks)) = [] ->
        pd_text_blocks
          (extract_page m preprocess image_to_string plumber_page fitz_page
             page_number) = []
        /\ pd_text
             (extract_page m preprocess image_to_string plumber_page fitz_page
                page_number) = []).
Proof.
  assert (Henh : ocr_fails preprocess image_to_string fitz_page ->
    forall (page_data : PageData) (raw_blocks : list Block),
      get_text_rawdict fitz_page = Ok raw_blocks ->
      sort_by round_yx_lt
        (merge_text_blocks
           (build_text_blocks (pd_page_number page_data)
              (map t_bbox (pd_tables page_data)) 0 raw_blocks)) = [] ->
      extract_text_enhanced preprocess image_to_string fitz_page page_data
      = set_text_blocks page_data [] []).
  { intros Hf page_data raw_blocks Hraw Hempty.
    unfold extract_text_enhanced. rewrite Hraw. cbv zeta. rewrite Hempty.
    rewrite (extract_text_ocr_failure Hf). reflexivity. }
  split; [apply extract_text_ocr_total|]. split.
  - intros Hf. split; [apply extract_text_ocr_failure, Hf | apply Henh, Hf].
  - intros Hf page_number raw_blocks Hraw Hempty.
    unfold extract_page. cbv zeta.
    rewrite (Henh Hf (mkPageData page_number (pl_width plumber_page)
                        (pl_height plumber_page) [] [] []) raw_blocks Hraw
               Hempty).
    cbn [set_text_blocks pd_text_blocks pd_text].
    destruct (extract_tables_text_blocks m plumber_page page_number
                (set_text_blocks
                   (mkPageData page_number (pl_width plumber_page)
                      (pl_height plumber_page) [] [] []) [] [])) as [E1 E2].
    rewrite E1, E2. split; reflexivity.
Qed.

End Ocr.

(** The theorem on the scanned page, where the recognition engine is
    missing. *)
Lemma extract_text_ocr_never_raises_witness :
  pd_text_blocks
    (extract_page ascii_table_caption_match Examples.preprocess_ok
       Examples.tesseract_missing Examples.plumber_page_scanned
       Examples.fitz_page_scanned 1) = []
  /\ pd_text
       (extract_page ascii_table_caption_match Examples.preprocess_ok
          Examples.tesseract_missing Examples.plumber_page_scanned
          Examples.fitz_page_scanned 1) = [].
Proof.
  apply (proj2 (proj2 (extract_text_ocr_never_raises
                         Examples.preprocess_ok Examples.tesseract_missing
                         ascii_table_caption_match
                         Examples.plumber_page_scanned
                         Examples.fitz_page_scanned))
           (or_intror (or_intror
              (ex_intro _ tt (ex_intro _ tt
                 (conj eq_refl (conj eq_refl
                    (ex_intro _ (lit "tesseract is not installed")
                       eq_refl)))))))
           1%nat [] eq_refl eq_refl).
Defined.

(** ** The order of the steps of [extract] *)

Section Order.

Variable m : str -> bool.
Variable Pixmap : Type.
Variable preprocess : Pixmap -> Result Pixmap.
Variable image_to_string : Pixmap -> Result str.

(** With no table known, no block is left out for lying in a table. *)
Lemma build_text_blocks_no_tables (page_number block_idx : nat)
  (blocks : list Block) (blk : TextBlock) :
  In blk (build_text_blocks page_number [] block_idx blocks) ->
  exists block,
    In block blocks /\ block_type block = 0%Z
    /\ block_lines_of (block_lines block) <> []
    /\ (tb_x0 blk, tb_y0 blk, tb_x1 blk, tb_y1 blk) = block_bbox block.
Proof.
  revert block_idx. induction blocks as [|b rest IH]; intros block_idx;
    [intros []|].
  cbn [build_text_blocks existsb].
  destruct (Z.eqb_spec (block_type b) 0) as [E|E]; cbn [negb].
  - destruct (block_lines_of (block_lines b)) as [|l ls] eqn:El.
    + intros H. destruct (IH _ H) as (block & Hin & H'). exists block.
      split; [now right | exact H'].
    + destruct (block_bbox b) as [[[bx0 by0] bx1] by1] eqn:Eb.
      intros [<-|H].
      * exists b. split; [now left|]. split; [exact E|].
        split; [rewrite El; discriminate|]. rewrite Eb. reflexivity.
      * destruct (IH _ H) as (block & Hin & H'). exists block.
        split; [now right | exact H'].
  - intros H. destruct (IH _ H) as (block & Hin & H'). exists block.
    split; [now right | exact H'].
Qed.

(** The text blocks of a page are those of the page without its tables:
    the tables are found after the text has been extracted. *)
Lemma extract_page_text_ignores_tables (plumber_page : PlumberPage)
  (fitz_page : FitzPage Pixmap) (page_number : nat) :
  pd_text_blocks
    (extract_page m preprocess image_to_string plumber_page fitz_page
       page_number)
  = infer_hierarchy
      (pd_text_blocks
         (extract_text_enhanced preprocess image_to_string fitz_page
            (mkPageData page_number (pl_width plumber_page)
               (pl_height plumber_page) [] [] []))).
Proof.
  unfold extract_page. cbv zeta. cbn [set_text_blocks pd_text_blocks].
  f_equal. apply extract_tables_text_blocks.
Qed.

End Order.

(** C1 on the page whose only text block lies inside its only table: the
    page that [extract] records has the table and, among its text blocks,
    the block inside the bounding box of the table; the list of table boxes
    that the exclusion consults is the empty list of the new page. *)
Theorem extract_page_keeps_text_inside_table :
  let page :=
    extract_page ascii_table_caption_match Examples.preprocess_ok
      Examples.tesseract_missing Examples.plumber_page_with_table
      Examples.fitz_page_with_table 1 in
  exists blk tbl,
    pd_text_blocks page = [blk]
    /\ pd_tables page = [tbl]
    /\ tb_text blk = lit "ID"
    /\ t_bbox tbl = (0, 0, 100, 100)%Q
    /\ is_inside_bbox (tb_x0 blk, tb_y0 blk, tb_x1 blk, tb_y1 blk) (t_bbox tbl)
       = true.
Proof.
  do 2 eexists. repeat split.
Qed.

End ExtractionFacts.

(* ================================================================== *)
(** * Cleaned tables *)
(* ================================================================== *)

Module MoreTableFacts.
Import Py PyFacts PdfToJson ExtraSpec.

(** ** Stripping twice *)

Lemma lstrip_by_suffix (p : N -> bool) (s : str) :
  exists pre, s = pre ++ lstrip_by p s.
Proof.
  induction s as [|a t [pre IH]]; [exists []; reflexivity|].
  simpl. destruct (p a).
  - exists (a :: pre). simpl. f_equal. exact IH.
  - exists []. reflexivity.
Qed.

Lemma strip_by_idempotent (p : N -> bool) (s : str) :
  strip_by p (strip_by p s) = strip_by p s.
Proof.
  unfold strip_by at 1.
  assert (Hr : rstrip_by p (strip_by p s) = strip_by p s).
  { apply rstrip_by_id. intros d Hne. unfold strip_by in *.
    destruct (lstrip_by_suffix p (rstrip_by p s)) as [pre E].
    assert (Hrn : rstrip_by p s <> []).
    { intros E'. rewrite E' in Hne. apply Hne. reflexivity. }
    pose proof (@rstrip_by_last p s d Hrn) as Hl.
    rewrite E in Hl. rewrite last_app_r in Hl by exact Hne. exact Hl. }
  rewrite Hr. apply lstrip_by_id.
  unfold strip_by. apply lstrip_by_head.
Qed.

Lemma strip_idempotent (s : str) : strip (strip s) = strip s.
Proof. apply strip_by_idempotent. Qed.

(** ** [_clean_table_data] *)

Lemma clean_row_cells (row : list (option str)) (cell : str) :
  In cell (clean_row row) ->
  cell <> [] /\ strip cell = cell
  /\ exists raw_cell, In (Some raw_cell) row /\ cell = strip raw_cell.
Proof.
  induction row as [|c rest IH]; [intros []|].
  assert (Hrest : In cell (clean_row rest) ->
            cell <> [] /\ strip cell = cell
            /\ exists raw_cell, In (Some raw_cell) (c :: rest)
                                /\ cell = strip raw_cell).
  { intros H. destruct (IH H) as (H1 & H2 & raw_cell & H3 & H4).
    split; [exact H1|]. split; [exact H2|].
    exists raw_cell. split; [now right | exact H4]. }
  destruct c as [raw_cell|]; [|exact Hrest].
  cbn [clean_row]. destruct (strip raw_cell) as [|a t] eqn:E; [exact Hrest|].
  intros [<-|H]; [|exact (Hrest H)].
  split; [discriminate|]. split.
  - rewrite <- E. apply strip_idempotent.
  - exists raw_cell. split; [now left | symmetry; exact E].
Qed.

Lemma clean_table_data_rows (raw_data : list (list (option str)))
  (row : list str) :
  In row (clean_table_data raw_data) ->
  row <> [] /\ exists raw_row, In raw_row raw_data /\ row = clean_row raw_row.
Proof.
  induction raw_data as [|r rest IH]; [intros []|].
  cbn [clean_table_data].
  assert (Hrest : In row (clean_table_data rest) ->
            row <> [] /\ exists raw_row, In raw_row (r :: rest)
                                         /\ row = clean_row raw_row).
  { intros H. destruct (IH H) as (H1 & raw_row & H2 & H3).
    split; [exact H1|]. exists raw_row. split; [now right | exact H3]. }
  destruct (clean_row r) as [|a t] eqn:E; [exact Hrest|].
  intros [<-|H]; [|exact (Hrest H)].
  split; [discriminate|]. exists r. split; [now left | symmetry; exact E].
Qed.

Lemma clean_row_fixed (row : list str) :
  (forall cell, In cell row -> cell <> [] /\ strip cell = cell) ->
  clean_row (map Some row) = row.
Proof.
  induction row as [|cell rest IH]; intros H; [reflexivity|].
  cbn [map clean_row].
  destruct (H cell (or_introl eq_refl)) as [Hn Hs]. rewrite Hs.
  destruct cell as [|a t]; [congruence|].
  f_equal. apply IH. intros c Hc. apply H. now right.
Qed.

Lemma clean_table_data_fixed (g : list (list str)) :
  clean_grid g -> clean_table_data (map (map Some) g) = g.
Proof.
  induction g as [|row rest IH]; intros H; [reflexivity|].
  cbn [map clean_table_data].
  destruct (H row (or_introl eq_refl)) as [Hn Hc].
  rewrite (clean_row_fixed _ Hc).
  destruct row as [|a t]; [congruence|].
  f_equal. apply IH. intros r Hr. apply H. now right.
Qed.

Lemma clean_table_data_is_clean (raw_data : list (list (option str))) :
  clean_grid (clean_table_data raw_data).
Proof.
  intros row Hrow. apply clean_table_data_rows in Hrow.
  destruct Hrow as (Hn & raw_row & _ & ->). split; [exact Hn|].
  intros cell Hcell. apply clean_row_cells in Hcell. tauto.
Qed.

(** X1: the cleaned grid has no empty row and no empty cell, every cell is
    the stripped text of a cell of the extracted table, and cleaning the
    cleaned grid again changes nothing. *)
Theorem clean_table_data_clean (raw_data : list (list (option str))) :
  clean_grid (clean_table_data raw_data)
  /\ (forall row cell,
        In row (clean_table_data raw_data) -> In cell row ->
        exists raw_row raw_cell,
          In raw_row raw_data /\ In (Some raw_cell) raw_row
          /\ cell = strip raw_cell)
  /\ clean_table_data (map (map Some) (clean_table_data raw_data))
     = clean_table_data raw_data.
Proof.
  pose proof (clean_table_data_is_clean raw_data) as Hc.
  split; [exact Hc|]. split; [|apply clean_table_data_fixed, Hc].
  intros row cell Hrow Hcell. apply clean_table_data_rows in Hrow.
  destruct Hrow as (_ & raw_row & Hin & ->).
  apply clean_row_cells in Hcell.
  destruct Hcell as (_ & _ & raw_cell & H1 & H2).
  exists raw_row, raw_cell. auto.
Qed.

(** ** [_optimize_table_structure] on a cleaned grid *)

Lemma max_cols_bound (g : list (list str)) (row : list str) :
  In row g -> (List.length row <= max_cols g)%nat.
Proof.
  induction g as [|r rest IH]; [intros []|].
  cbn [max_cols fold_right]. fold (max_cols rest).
  intros [<-|H]; [lia|]. specialize (IH H). lia.
Qed.

Lemma key_value_pairs_grid (g : list (list str)) :
  clean_grid g ->
  (forall row, In row g -> (List.length row <= 2)%nat) ->
  map (fun kv => match snd kv with
                 | [] => [fst kv]
                 | v => [fst kv; v]
                 end) (key_value_pairs g) = g.
Proof.
  induction g as [|row rest IH]; intros Hc Hl; [reflexivity|].
  assert (IH' : map (fun kv => match snd kv with
                               | [] => [fst kv]
                               | v => [fst kv; v]
                               end) (key_value_pairs rest) = rest).
  { apply IH; [intros r Hr; apply Hc; now right
              | intros r Hr; apply Hl; now right]. }
  destruct (Hc row (or_introl eq_refl)) as [Hn Hcells].
  specialize (Hl row (or_introl eq_refl)).
  destruct row as [|k [|v [|x rest']]]; [congruence| | |simpl in Hl; lia].
  - cbn [key_value_pairs map fst snd]. rewrite IH'. reflexivity.
  - cbn [key_value_pairs map fst snd]. rewrite IH'.
    destruct (Hcells v (or_intror (or_introl eq_refl))) as [Hv _].
    destruct v; [congruence | reflexivity].
Qed.

Lemma grid_of_optimize (g : list (list str)) :
  clean_grid g -> grid_of (optimize_table_structure g) = g.
Proof.
  intros Hc. destruct g as [|row rest]; [reflexivity|].
  unfold optimize_table_structure.
  destruct (Nat.eqb_spec (max_cols (row :: rest)) 2) as [Hm|Hm].
  - cbn [grid_of]. apply key_value_pairs_grid; [exact Hc|].
    intros r Hr. rewrite <- Hm. apply max_cols_bound, Hr.
  - destruct rest; reflexivity.
Qed.

(** X2: the structured form of a cleaned table loses nothing: the grid can
    be read back from it, whichever of the four shapes was chosen. *)
Theorem optimize_table_structure_lossless
  (raw_data : list (list (option str))) :
  grid_of (optimize_table_structure (clean_table_data raw_data))
  = clean_table_data raw_data.
Proof.
  apply grid_of_optimize, clean_table_data_is_clean.
Qed.

End MoreTableFacts.

(* ================================================================== *)
(** * Merging text blocks *)
(* ================================================================== *)

Module MergeFacts.
Import Py PyFacts Num PdfToJson ExtraSpec HierarchyFacts.

Lemma infix_refl (s : str) : infix s s.
Proof. exists [], []. rewrite app_nil_r. reflexivity. Qed.

Lemma infix_app_l (t a b : str) : infix t a -> infix t (a ++ b).
Proof.
  intros (pre & post & ->). exists pre, (post ++ b).
  rewrite <- !app_assoc. reflexivity.
Qed.

Lemma infix_app_r (t a b : str) : infix t b -> infix t (a ++ b).
Proof.
  intros (pre & post & ->). exists (a ++ pre), post.
  rewrite <- !app_assoc. reflexivity.
Qed.

Lemma same_head_refl (b : TextBlock) : same_head b b.
Proof. repeat split. Qed.

(** ** [_merge_line_blocks] *)

Lemma merge_line_loop_texts (blocks : list TextBlock) :
  forall (current : TextBlock) (t : str),
    infix t (tb_text current)
    \/ (exists b, In b blocks /\ infix t (tb_text b)) ->
    exists m, In m (merge_line_loop current blocks) /\ infix t (tb_text m).
Proof.
  induction blocks as [|block rest IH]; intros current t H.
  - destruct H as [H|(b & [] & _)]. exists current. split; [now left|exact H].
  - cbn [merge_line_loop]. cbv zeta.
    destruct (Qle_bool _ _).
    + apply IH. cbn [tb_text].
      destruct H as [H|(b & [<-|Hin] & Hb)].
      * left. apply infix_app_l, H.
      * left. apply infix_app_r, infix_app_r, Hb.
      * right. exists b. auto.
    + destruct H as [H|(b & [<-|Hin] & Hb)].
      * exists current. split; [now left|exact H].
      * destruct (IH block t (or_introl Hb)) as (m & Hm & Ht).
        exists m. split; [now right|exact Ht].
      * destruct (IH block t) as (m & Hm & Ht).
        { right. exists b. auto. }
        exists m. split; [now right|exact Ht].
Qed.

Lemma merge_line_loop_heads (blocks : list TextBlock) :
  forall (current m : TextBlock),
    In m (merge_line_loop current blocks) ->
    same_head m current \/ exists b, In b blocks /\ same_head m b.
Proof.
  induction blocks as [|block rest IH]; intros current m.
  - intros [<-|[]]. left. apply same_head_refl.
  - cbn [merge_line_loop]. cbv zeta. destruct (Qle_bool _ _).
    + intros H. destruct (IH _ _ H) as [Hh|(b & Hb & Hh)].
      * left. exact Hh.
      * right. exists b. split; [now right|exact Hh].
    + intros [<-|H]; [left; apply same_head_refl|].
      right. destruct (IH _ _ H) as [Hh|(b & Hb & Hh)].
      * exists block. split; [now left|exact Hh].
      * exists b. split; [now right|exact Hh].
Qed.

Lemma merge_line_loop_length (blocks : list TextBlock) :
  forall current : TextBlock,
    (1 <= List.length (merge_line_loop current blocks)
     <= S (List.length blocks))%nat.
Proof.
  induction blocks as [|block rest IH]; intros current; [simpl; lia|].
  cbn [merge_line_loop List.length]. cbv zeta. destruct (Qle_bool _ _).
  - specialize (IH (mkTextBlock (tb_id current)
             (tb_text current ++ lit " " ++ tb_text block)
             (tb_x0 current) (tb_y0 current) (tb_x1 block)
             (Qmax (tb_y1 current) (tb_y1 block))
             (tb_font current) (tb_is_bold current) (tb_size current)
             (tb_level current) (tb_parent_id current))). lia.
  - specialize (IH block). cbn [List.length]. lia.
Qed.

Lemma merge_line_blocks_texts (l : list TextBlock) (b : TextBlock) :
  In b l ->
  exists m, In m (merge_line_blocks l) /\ infix (tb_text b) (tb_text m).
Proof.
  intros Hb. apply (sort_by_in x_lt) in Hb. unfold merge_line_blocks.
  destruct (sort_by x_lt l) as [|first rest]; [destruct Hb|].
  apply merge_line_loop_texts. destruct Hb as [<-|Hb].
  - left. apply infix_refl.
  - right. exists b. split; [exact Hb|apply infix_refl].
Qed.

Lemma merge_line_blocks_heads (l : list TextBlock) (m : TextBlock) :
  In m (merge_line_blocks l) -> exists b, In b l /\ same_head m b.
Proof.
  unfold merge_line_blocks.
  destruct (sort_by x_lt l) as [|first rest] eqn:E; [intros []|].
  intros H. apply merge_line_loop_heads in H.
  assert (Hin : forall b, In b (first :: rest) -> In b l).
  { intros b Hb. rewrite <- E in Hb. apply (sort_by_in x_lt), Hb. }
  destruct H as [Hh|(b & Hb & Hh)].
  - exists first. split; [apply Hin; now left|exact Hh].
  - exists b. split; [apply Hin; now right|exact Hh].
Qed.

Lemma merge_line_blocks_length (l : list TextBlock) :
  (List.length (merge_line_blocks l) <= List.length l)%nat
  /\ (l <> [] -> merge_line_blocks l <> []).
Proof.
  unfold merge_line_blocks. rewrite <- (sort_by_length x_lt l).
  destruct (sort_by x_lt l) as [|first rest] eqn:E.
  - split; [simpl; lia|]. intros Hl _.
    apply Hl. apply length_zero_iff_nil.
    rewrite <- (sort_by_length x_lt l), E. reflexivity.
  - pose proof (merge_line_loop_length rest first) as H.
    split; [cbn [List.length]; lia|].
    intros _ E'. rewrite E' in H. simpl in H. lia.
Qed.

(** ** The lines of [_merge_text_blocks] *)

Lemma group_lines_texts (blocks : list TextBlock) :
  forall (current_y : Q) (current_line : list TextBlock) (b : TextBlock),
    In b (current_line ++ blocks) ->
    exists m, In m (group_lines current_y current_line blocks)
              /\ infix (tb_text b) (tb_text m).
Proof.
  induction blocks as [|block rest IH]; intros current_y current_line b Hb.
  - rewrite app_nil_r in Hb. apply merge_line_blocks_texts, Hb.
  - cbn [group_lines]. destruct (Qle_bool _ _).
    + apply IH. rewrite <- app_assoc. exact Hb.
    + apply in_app_or in Hb. destruct Hb as [Hb|Hb].
      * destruct (merge_line_blocks_texts _ _ Hb) as (m & Hm & Ht).
        exists m. split; [apply in_or_app; now left|exact Ht].
      * destruct (IH (tb_y0 block) [block] b Hb) as (m & Hm & Ht).
        exists m. split; [apply in_or_app; now right|exact Ht].
Qed.

Lemma group_lines_heads (blocks : list TextBlock) :
  forall (current_y : Q) (current_line : list TextBlock) (m : TextBlock),
    In m (group_lines current_y current_line blocks) ->
    exists b, In b (current_line ++ blocks) /\ same_head m b.
Proof.
  induction blocks as [|block rest IH]; intros current_y current_line m.
  - cbn [group_lines]. rewrite app_nil_r. apply merge_line_blocks_heads.
  - cbn [group_lines]. destruct (Qle_bool _ _).
    + intros H. apply IH in H. rewrite <- app_assoc in H. exact H.
    + intros H. apply in_app_or in H. destruct H as [H|H].
      * apply merge_line_blocks_heads in H. destruct H as (b & Hb & Hh).
        exists b. split; [apply in_or_app; now left|exact Hh].
      * apply IH in H. destruct H as (b & Hb & Hh).
        exists b. split; [apply in_or_app; now right|exact Hh].
Qed.

Lemma group_lines_length (blocks : list TextBlock) :
  forall (current_y : Q) (current_line : list TextBlock),
    (List.length (group_lines current_y current_line blocks)
     <= List.length current_line + List.length blocks)%nat
    /\ (current_line <> [] ->
        group_lines current_y current_line blocks <> []).
Proof.
  induction blocks as [|block rest IH]; intros current_y current_line.
  - cbn [group_lines List.length].
    destruct (merge_line_blocks_length current_line). split; [lia|assumption].
  - cbn [group_lines List.length]. destruct (Qle_bool _ _).
    + destruct (IH current_y (current_line ++ [block])) as [H1 H2].
      rewrite length_app in H1. cbn [List.length] in H1. split; [lia|].
      intros _. apply H2. destruct current_line; discriminate.
    + destruct (IH (tb_y0 block) [block]) as [H1 H2].
      destruct (merge_line_blocks_length current_line) as [H3 H4].
      rewrite length_app. cbn [List.length] in H1. split; [lia|].
      intros Hne E. apply app_eq_nil in E. destruct E as [E _].
      exact (H4 Hne E).
Qed.

(** ** The paragraph marks *)

Lemma add_newlines_length (merged : list TextBlock) :
  forall prev : option TextBlock,
    List.length (add_newlines prev merged) = List.length merged.
Proof.
  induction merged as [|b rest IH]; intros prev; [reflexivity|].
  cbn [add_newlines List.length]. cbv zeta. rewrite IH. reflexivity.
Qed.

Lemma add_newlines_step (prev : option TextBlock) (block : TextBlock) :
  let block' :=
    match prev with
    | Some p =>
        if paragraph_break p block
        then set_text block (NEWLINE :: tb_text block) else block
    | None => block
    end in
  same_head block' block
  /\ (tb_text block' = tb_text block
      \/ tb_text block' = NEWLINE :: tb_text block).
Proof.
  cbv zeta. destruct prev as [p|].
  - destruct (paragraph_break p block).
    + split; [repeat split|right; reflexivity].
    + split; [apply same_head_refl|left; reflexivity].
  - split; [apply same_head_refl|left; reflexivity].
Qed.

Lemma add_newlines_back (merged : list TextBlock) :
  forall (prev : option TextBlock) (m : TextBlock),
    In m (add_newlines prev merged) ->
    exists b, In b merged /\ same_head m b.
Proof.
  induction merged as [|b rest IH]; intros prev m; [intros []|].
  cbn [add_newlines]. cbv zeta. intros [<-|H].
  - exists b. split; [now left|apply add_newlines_step].
  - apply IH in H. destruct H as (b' & Hb & Hh).
    exists b'. split; [now right|exact Hh].
Qed.

Lemma add_newlines_forth (merged : list TextBlock) :
  forall (prev : option TextBlock) (b : TextBlock),
    In b merged ->
    exists m, In m (add_newlines prev merged)
              /\ infix (tb_text b) (tb_text m).
Proof.
  induction merged as [|b' rest IH]; intros prev b; [intros []|].
  cbn [add_newlines]. cbv zeta. intros [<-|H].
  - eexists. split; [left; reflexivity|].
    destruct (add_newlines_step prev b') as [_ [E|E]]; rewrite E.
    + apply infix_refl.
    + exists [NEWLINE], []. rewrite app_nil_r. reflexivity.
  - destruct (IH (Some match prev with
                       | Some p =>
                           if paragraph_break p b'
                           then set_text b' (NEWLINE :: tb_text b') else b'
                       | None => b'
                       end) b H) as (m & Hm & Ht).
    exists m. split; [right; exact Hm|exact Ht].
Qed.

Lemma infix_trans (a b c : str) : infix a b -> infix b c -> infix a c.
Proof.
  intros (p1 & q1 & ->) (p2 & q2 & ->).
  exists (p2 ++ p1), (q1 ++ q2). rewrite <- !app_assoc. reflexivity.
Qed.

Lemma same_head_trans (a b c : TextBlock) :
  same_head a b -> same_head b c -> same_head a c.
Proof.
  unfold same_head. intros (?&?&?&?&?&?) (?&?&?&?&?&?).
  repeat split; congruence.
Qed.

Lemma merge_text_blocks_nil (text_blocks : list TextBlock) :
  merge_text_blocks text_blocks = [] -> text_blocks = [].
Proof.
  unfold merge_text_blocks.
  pose proof (sort_by_length yx_lt text_blocks) as Hlen.
  destruct (sort_by yx_lt text_blocks) as [|first rest].
  - intros _. apply length_zero_iff_nil. rewrite <- Hlen. reflexivity.
  - intros E. exfalso.
    destruct (group_lines_length rest (tb_y0 first) [first]) as [_ H2].
    apply H2; [discriminate|]. apply length_zero_iff_nil.
    rewrite <- (add_newlines_length _ None), E. reflexivity.
Qed.

(** X3: merging the text blocks of a page loses no text and invents no
    block: the result is empty only for an empty input and never longer than
    the input; the text of every input block is part of the text of a merged
    block; every merged block has the id, the top left corner and the font
    of an input block. *)
Theorem merge_text_blocks_keeps (text_blocks : list TextBlock) :
  (merge_text_blocks text_blocks = [] <-> text_blocks = [])
  /\ (List.length (merge_text_blocks text_blocks)
      <= List.length text_blocks)%nat
  /\ (forall b, In b text_blocks ->
        exists m, In m (merge_text_blocks text_blocks)
                  /\ infix (tb_text b) (tb_text m))
  /\ (forall m, In m (merge_text_blocks text_blocks) ->
        exists b, In b text_blocks /\ same_head m b).
Proof.
  unfold merge_text_blocks.
  pose proof (sort_by_length yx_lt text_blocks) as Hlen.
  pose proof (sort_by_in yx_lt text_blocks) as Hin.
  destruct (sort_by yx_lt text_blocks) as [|first rest].
  - assert (E : text_blocks = []).
    { apply length_zero_iff_nil. rewrite <- Hlen. reflexivity. }
    subst. repeat split; auto; try (intros ? []).
  - destruct (group_lines_length rest (tb_y0 first) [first]) as [H1 H2].
    split; [|split; [|split]].
    + split.
      * intros E. exfalso. apply H2; [discriminate|].
        apply length_zero_iff_nil.
        rewrite <- (add_newlines_length _ None), E. reflexivity.
      * intros ->. simpl in Hlen. discriminate.
    + rewrite add_newlines_length. rewrite <- Hlen.
      cbn [List.length] in *. lia.
    + intros b Hb. apply Hin in Hb.
      destruct (group_lines_texts rest (tb_y0 first) [first] b Hb)
        as (m & Hm & Ht).
      destruct (add_newlines_forth _ None m Hm) as (m' & Hm' & Ht').
      exists m'. split; [exact Hm'|]. eapply infix_trans; eassumption.
    + intros m Hm. apply add_newlines_back in Hm.
      destruct Hm as (b & Hb & Hh). apply group_lines_heads in Hb.
      destruct Hb as (b' & Hb' & Hh').
      exists b'. split; [apply Hin; exact Hb'|].
      eapply same_head_trans; eassumption.
Qed.

End MergeFacts.

(* ================================================================== *)
(** * The three text paths of a page *)
(* ================================================================== *)

Module TextPathFacts.
Import Py PyFacts Num NumFacts Exc PdfToJson ExtraSpec.
Import HierarchyFacts MoreTableFacts MergeFacts ExtractionFacts.

(** ** Block ids *)

Lemma lit_inj (a b : string) : lit a = lit b -> a = b.
Proof.
  unfold lit. intros E.
  rewrite <- (string_of_list_ascii_of_string a),
          <- (string_of_list_ascii_of_string b).
  f_equal. revert E.
  generalize (list_ascii_of_string a) (list_ascii_of_string b).
  induction l as [|x l IH]; intros [|y l']; simpl; try discriminate.
  - reflexivity.
  - intros E. injection E as E1 E2. f_equal; [|apply IH, E2].
    rewrite <- (ascii_N_embedding x), <- (ascii_N_embedding y), E1.
    reflexivity.
Qed.

Lemma of_nat_inj (i j : nat) : of_nat i = of_nat j -> i = j.
Proof.
  unfold of_nat. intros E. apply lit_inj in E.
  apply DecimalNat.Unsigned.to_uint_inj.
  assert (H : Some (Nat.to_uint i) = Some (Nat.to_uint j)).
  { rewrite <- !NilEmpty.usu, E. reflexivity. }
  injection H as H. exact H.
Qed.

Lemma text_id_inj (page_number i j : nat) :
  text_id page_number i = text_id page_number j -> i = j.
Proof.
  unfold text_id. intros E.
  apply app_inv_head in E. apply app_inv_head in E. apply app_inv_head in E.
  apply of_nat_inj, E.
Qed.

Lemma build_text_blocks_ids (page_number : nat) (table_bboxes : list BBox)
  (blocks : list Block) :
  forall block_idx : nat,
    (forall b, In b (build_text_blocks page_number table_bboxes block_idx
                       blocks) ->
       exists k, (block_idx <= k)%nat /\ tb_id b = text_id page_number k)
    /\ NoDup (map tb_id (build_text_blocks page_number table_bboxes block_idx
                           blocks)).
Proof.
  induction blocks as [|block rest IH]; intros block_idx.
  - split; [intros b []|constructor].
  - cbn [build_text_blocks].
    destruct (negb _); [apply IH|].
    destruct (existsb _ _); [apply IH|].
    destruct (block_lines_of _) as [|l ls]; [apply IH|].
    destruct (block_bbox block) as [[[bx0 by0] bx1] by1].
    destruct (IH (S block_idx)) as [H1 H2]. split.
    + intros b [<-|Hb].
      * exists block_idx. split; [lia|reflexivity].
      * destruct (H1 b Hb) as (k & Hk & E). exists k. split; [lia|exact E].
    + cbn [map tb_id]. constructor; [|exact H2].
      intros Hin. apply in_map_iff in Hin. destruct Hin as (b & E & Hb).
      destruct (H1 b Hb) as (k & Hk & E'). rewrite E' in E.
      apply text_id_inj in E. lia.
Qed.

Lemma build_line_blocks_ids (page_number : nat) (table_bboxes : list BBox)
  (lines : list Line) :
  forall block_idx : nat,
    (forall b, In b (build_line_blocks page_number table_bboxes block_idx
                       lines) ->
       (exists k, (block_idx <= k)%nat /\ tb_id b = text_id page_number k)
       /\ tb_text b <> [])
    /\ NoDup (map tb_id (build_line_blocks page_number table_bboxes block_idx
                           lines)).
Proof.
  induction lines as [|line rest IH]; intros block_idx.
  - split; [intros b []|constructor].
  - cbn [build_line_blocks].
    destruct (existsb _ _); [apply IH|].
    destruct (line_block page_number block_idx line) as [blk|] eqn:E;
      [|apply IH].
    assert (Hblk : tb_id blk = text_id page_number block_idx
                   /\ tb_text blk <> []).
    { unfold line_block in E.
      destruct (join _ _) as [|c t]; [discriminate|].
      destruct (line_spans line) as [|first_span spans]; [discriminate|].
      destruct (spans_extent _) as [[[[x0 y0] x1] y1]|]; [|discriminate].
      injection E as <-. split; [reflexivity|discriminate]. }
    destruct Hblk as [Hid Htext].
    destruct (IH (S block_idx)) as [H1 H2]. split.
    + intros b [<-|Hb].
      * split; [|exact Htext]. exists block_idx. split; [lia|exact Hid].
      * destruct (H1 b Hb) as [(k & Hk & E') Ht]. split; [|exact Ht].
        exists k. split; [lia|exact E'].
    + cbn [map]. constructor; [|exact H2].
      intros Hin. apply in_map_iff in Hin. destruct Hin as (b & E' & Hb).
      destruct (H1 b Hb) as [(k & Hk & E'') _]. rewrite E'', Hid in E'.
      apply text_id_inj in E'. lia.
Qed.

(** ** The recognised text *)

Lemma lstrip_by_keeps (p : N -> bool) (s : str) (c : N) :
  In c s -> p c = false -> In c (lstrip_by p s).
Proof.
  induction s as [|a t IH]; [intros []|].
  intros Hin Hc. cbn [lstrip_by]. destruct (p a) eqn:E; [|exact Hin].
  destruct Hin as [->|Hin]; [congruence|]. apply IH; assumption.
Qed.

Lemma rstrip_by_keeps (p : N -> bool) (s : str) (c : N) :
  In c s -> p c = false -> In c (rstrip_by p s).
Proof.
  induction s as [|a t IH]; [intros []|].
  intros Hin Hc. cbn [rstrip_by].
  destruct Hin as [->|Hin].
  - destruct (rstrip_by p t); [rewrite Hc|]; now left.
  - specialize (IH Hin Hc).
    destruct (rstrip_by p t); [destruct IH|now right].
Qed.

Lemma strip_keeps (s : str) (c : N) :
  In c s -> isspace c = false -> In c (strip s).
Proof.
  intros Hin Hc. apply lstrip_by_keeps; [|exact Hc].
  apply rstrip_by_keeps; assumption.
Qed.

Lemma split_on_not_nil (sep : N) (s : str) : split_on sep s <> [].
Proof.
  induction s as [|c t IH]; [discriminate|].
  cbn [split_on]. destruct (c =? sep)%N; [discriminate|].
  destruct (split_on sep t); discriminate.
Qed.

Lemma split_on_in (sep : N) (s : str) (c : N) :
  In c s -> c <> sep -> exists line, In line (split_on sep s) /\ In c line.
Proof.
  induction s as [|a t IH]; [intros []|].
  intros Hin Hc. cbn [split_on].
  destruct (N.eqb_spec a sep) as [E|E].
  - destruct Hin as [->|Hin]; [congruence|].
    destruct (IH Hin Hc) as (line & Hl & Hcl).
    exists line. split; [now right|exact Hcl].
  - destruct Hin as [->|Hin].
    + destruct (split_on sep t) as [|w ws];
        (eexists; split; [left; reflexivity|now left]).
    + destruct (IH Hin Hc) as (line & Hl & Hcl).
      destruct (split_on sep t) as [|w ws]; [destruct Hl|].
      destruct Hl as [->|Hl].
      * exists (a :: line). split; [now left|now right].
      * exists line. split; [now right|exact Hcl].
Qed.

Lemma ocr_blocks_texts (page_number : nat) (page_width y_step : Q)
  (lines : list str) :
  forall i : nat,
    map tb_text (ocr_blocks page_number page_width y_step i lines)
    = filter nonempty (map strip lines).
Proof.
  induction lines as [|line rest IH]; intros i; [reflexivity|].
  cbn [ocr_blocks map filter].
  destruct (strip line) as [|c t]; cbn [nonempty]; [apply IH|].
  cbn [map tb_text]. f_equal. apply IH.
Qed.

Lemma ocr_blocks_in (page_number : nat) (page_width y_step : Q)
  (lines : list str) :
  forall (i : nat) (b : TextBlock),
    In b (ocr_blocks page_number page_width y_step i lines) ->
    exists k,
      (i <= k < i + List.length lines)%nat
      /\ tb_id b = lit "text_" ++ of_nat page_number ++ lit "_ocr_"
                   ++ of_nat k
      /\ tb_x0 b = (page_width / 2 - 100)%Q
      /\ tb_x1 b = (page_width / 2 + 100)%Q
      /\ tb_y0 b = (inject_Z (Z.of_nat k) * y_step)%Q
      /\ tb_y1 b = ((inject_Z (Z.of_nat k) + 1) * y_step)%Q
      /\ tb_level b = 0%Z /\ tb_parent_id b = None
      /\ tb_font b = lit "Unknown" /\ tb_is_bold b = false
      /\ tb_size b = 10%Q.
Proof.
  induction lines as [|line rest IH]; intros i b; [intros []|].
  cbn [ocr_blocks List.length].
  assert (Hrest : In b (ocr_blocks page_number page_width y_step (S i) rest) ->
    exists k,
      (i <= k < i + S (List.length rest))%nat
      /\ tb_id b = lit "text_" ++ of_nat page_number ++ lit "_ocr_"
                   ++ of_nat k
      /\ tb_x0 b = (page_width / 2 - 100)%Q
      /\ tb_x1 b = (page_width / 2 + 100)%Q
      /\ tb_y0 b = (inject_Z (Z.of_nat k) * y_step)%Q
      /\ tb_y1 b = ((inject_Z (Z.of_nat k) + 1) * y_step)%Q
      /\ tb_level b = 0%Z /\ tb_parent_id b = None
      /\ tb_font b = lit "Unknown" /\ tb_is_bold b = false
      /\ tb_size b = 10%Q).
  { intros H. destruct (IH _ _ H) as (k & Hk & Hrest).
    exists k. split; [lia|exact Hrest]. }
  destruct (strip line) as [|c t]; [exact Hrest|].
  intros [<-|H]; [|exact (Hrest H)].
  exists i. split; [lia|]. repeat split.
Qed.

Lemma ocr_blocks_ids (page_number : nat) (page_width y_step : Q)
  (lines : list str) (i : nat) :
  NoDup (map tb_id (ocr_blocks page_number page_width y_step i lines)).
Proof.
  revert i. induction lines as [|line rest IH]; intros i; [constructor|].
  cbn [ocr_blocks]. destruct (strip line) as [|c t]; [apply IH|].
  cbn [map tb_id]. constructor; [|apply IH].
  intros Hin. apply in_map_iff in Hin. destruct Hin as (b & E & Hb).
  apply ocr_blocks_in in Hb. destruct Hb as (k & Hk & Hid & _).
  rewrite Hid in E.
  apply app_inv_head in E. apply app_inv_head in E. apply app_inv_head in E.
  apply of_nat_inj in E. lia.
Qed.

(** ** Deduplication in the line based path *)


Lemma Qeq_bool_trans (a b c : Q) :
  Qeq_bool a b = true -> Qeq_bool b c = true -> Qeq_bool a c = true.
Proof.
  intros H1 H2. apply Qeq_bool_iff in H1, H2. apply Qeq_bool_iff.
  rewrite H1. exact H2.
Qed.

Lemma same_key_trans (a b c : TextBlock) :
  same_key a b = true -> same_key b c = true -> same_key a c = true.
Proof.
  unfold same_key. rewrite !andb_true_iff.
  intros [[H1 H2] H3] [[H4 H5] H6]. repeat split.
  - unfold str_eqb in *.
    destruct (list_eq_dec N.eq_dec (tb_text a) (tb_text b)); [|discriminate].
    destruct (list_eq_dec N.eq_dec (tb_text b) (tb_text c)); [|discriminate].
    destruct (list_eq_dec N.eq_dec (tb_text a) (tb_text c)); congruence.
  - eapply Qeq_bool_trans; eassumption.
  - eapply Qeq_bool_trans; eassumption.
Qed.





Lemma unique_blocks_sublist (blocks : list TextBlock) :
  forall seen : list TextBlock,
    exists dropped,
      Permutation (unique_blocks seen blocks ++ dropped) blocks.
Proof.
  induction blocks as [|blk rest IH]; intros seen; [exists []; constructor|].
  cbn [unique_blocks].
  destruct (negb (existsb (same_key blk) seen) && nonempty (tb_text blk)).
  - destruct (IH (blk :: seen)) as [d Hd]. exists d.
    cbn [app]. constructor. exact Hd.
  - destruct (IH seen) as [d Hd]. exists (blk :: d).
    rewrite <- Permutation_middle. constructor. exact Hd.
Qed.


(** ** Identifiers through the merge and the hierarchy *)

Lemma perm_app_swap (A : Type) (a b c d : list A) :
  Permutation ((a ++ b) ++ (c ++ d)) ((a ++ c) ++ (b ++ d)).
Proof.
  rewrite <- !app_assoc. apply Permutation_app_head.
  rewrite !app_assoc. apply Permutation_app_tail.
  apply Permutation_app_comm.
Qed.

Lemma merge_line_loop_ids (blocks : list TextBlock) :
  forall current : TextBlock,
    exists dropped,
      Permutation (map tb_id (merge_line_loop current blocks) ++ dropped)
        (tb_id current :: map tb_id blocks).
Proof.
  induction blocks as [|block rest IH]; intros current.
  - exists []. reflexivity.
  - cbn [merge_line_loop map]. cbv zeta. destruct (Qle_bool _ _).
    + destruct (IH (mkTextBlock (tb_id current)
             (tb_text current ++ lit " " ++ tb_text block)
             (tb_x0 current) (tb_y0 current) (tb_x1 block)
             (Qmax (tb_y1 current) (tb_y1 block))
             (tb_font current) (tb_is_bold current) (tb_size current)
             (tb_level current) (tb_parent_id current))) as [d Hd].
      cbn [tb_id] in Hd. exists (tb_id block :: d).
      rewrite <- Permutation_middle. rewrite Hd. apply perm_swap.
    + destruct (IH block) as [d Hd]. exists d.
      cbn [map app]. constructor. exact Hd.
Qed.

Lemma merge_line_blocks_ids (l : list TextBlock) :
  exists dropped,
    Permutation (map tb_id (merge_line_blocks l) ++ dropped) (map tb_id l).
Proof.
  unfold merge_line_blocks.
  pose proof (Permutation_map tb_id (sort_by_perm x_lt l)) as Hp.
  destruct (sort_by x_lt l) as [|first rest].
  - exists []. symmetry. exact Hp.
  - destruct (merge_line_loop_ids rest first) as [d Hd].
    exists d. rewrite Hd. symmetry. exact Hp.
Qed.

Lemma group_lines_ids (blocks : list TextBlock) :
  forall (current_y : Q) (current_line : list TextBlock),
    exists dropped,
      Permutation
        (map tb_id (group_lines current_y current_line blocks) ++ dropped)
        (map tb_id (current_line ++ blocks)).
Proof.
  induction blocks as [|block rest IH]; intros current_y current_line.
  - cbn [group_lines]. rewrite app_nil_r. apply merge_line_blocks_ids.
  - cbn [group_lines]. destruct (Qle_bool _ _).
    + destruct (IH current_y (current_line ++ [block])) as [d Hd].
      exists d. rewrite <- app_assoc in Hd. exact Hd.
    + destruct (IH (tb_y0 block) [block]) as [d2 Hd2].
      destruct (merge_line_blocks_ids current_line) as [d1 Hd1].
      exists (d1 ++ d2). rewrite !map_app. rewrite perm_app_swap.
      apply Permutation_app; [exact Hd1|].
      rewrite Hd2. reflexivity.
Qed.

Lemma add_newlines_ids (merged : list TextBlock) :
  forall prev : option TextBlock,
    map tb_id (add_newlines prev merged) = map tb_id merged.
Proof.
  induction merged as [|b rest IH]; intros prev; [reflexivity|].
  cbn [add_newlines map]. cbv zeta. rewrite IH. f_equal.
  destruct (add_newlines_step prev b) as [(E & _) _]. exact E.
Qed.

Lemma merge_text_blocks_ids (l : list TextBlock) :
  NoDup (map tb_id l) -> NoDup (map tb_id (merge_text_blocks l)).
Proof.
  intros Hn. unfold merge_text_blocks.
  pose proof (Permutation_map tb_id (sort_by_perm yx_lt l)) as Hp.
  destruct (sort_by yx_lt l) as [|first rest]; [constructor|].
  rewrite add_newlines_ids.
  destruct (group_lines_ids rest (tb_y0 first) [first]) as [d Hd].
  apply (NoDup_app_remove_r _ d).
  apply (Permutation_NoDup (Permutation_sym Hd)).
  apply (Permutation_NoDup Hp), Hn.
Qed.

Lemma infer_loop_ids (font_sizes : list Q) (blocks : list TextBlock) :
  forall last : option TextBlock,
    map tb_id (infer_loop font_sizes last blocks) = map tb_id blocks.
Proof.
  induction blocks as [|b rest IH]; intros last; [reflexivity|].
  cbn [infer_loop map]. cbv zeta. rewrite IH. f_equal.
  destruct last as [l|]; [destruct (Qltb _ _)|]; reflexivity.
Qed.

Lemma infer_hierarchy_ids (l : list TextBlock) :
  Permutation (map tb_id l) (map tb_id (infer_hierarchy l)).
Proof.
  unfold infer_hierarchy. destruct l as [|b t]; [constructor|].
  cbv zeta. rewrite infer_loop_ids.
  apply Permutation_map, sort_by_perm.
Qed.

(** ** The three paths *)

Section Paths.

Variable Pixmap : Type.
Variable preprocess : Pixmap -> Result Pixmap.
Variable image_to_string : Pixmap -> Result str.

Lemma build_text_blocks_no_text (page_number : nat)
  (table_bboxes : list BBox) (raw_blocks : list Block) :
  (forall block, In block raw_blocks -> block_type block <> 0%Z) ->
  forall block_idx : nat,
    build_text_blocks page_number table_bboxes block_idx raw_blocks = [].
Proof.
  induction raw_blocks as [|block rest IH]; intros H block_idx;
    [reflexivity|].
  cbn [build_text_blocks].
  assert (E : (block_type block =? 0)%Z = false).
  { apply Z.eqb_neq. apply H. now left. }
  rewrite E. cbn [negb]. apply IH. intros b Hb. apply H. now right.
Qed.

(** X5: on a page whose text layer has no text block, as a scanned page
    has none, and whose recognition returns some text, the page text is the
    recognised text and there is one block for every line of it that is not
    blank, in the order of the lines, holding the stripped line; every
    block has the font [Unknown], a regular face, the size 10, the level 0
    and no parent; the ids of the blocks are pairwise different; and there
    is at least one block when the recognised text is not all whitespace. *)
Theorem extract_text_enhanced_ocr_blocks (fitz_page : FitzPage Pixmap)
  (page_data : PageData) (raw_blocks : list Block) (ocr_text : str) :
  get_text_rawdict fitz_page = Ok raw_blocks ->
  (forall block, In block raw_blocks -> block_type block <> 0%Z) ->
  extract_text_ocr preprocess image_to_string fitz_page = Ok ocr_text ->
  ocr_text <> [] ->
  let result :=
    extract_text_enhanced preprocess image_to_string fitz_page page_data in
  pd_text result = ocr_text
  /\ map tb_text (pd_text_blocks result)
     = filter nonempty (map strip (split_on NEWLINE ocr_text))
  /\ (forall b, In b (pd_text_blocks result) ->
        tb_text b <> [] /\ strip (tb_text b) = tb_text b
        /\ tb_font b = lit "Unknown" /\ tb_is_bold b = false
        /\ tb_size b = 10%Q
        /\ tb_level b = 0%Z /\ tb_parent_id b = None)
  /\ NoDup (map tb_id (pd_text_blocks result))
  /\ ((exists c, In c ocr_text /\ isspace c = false) ->
      pd_text_blocks result <> []).
Proof.
  intros Hraw Hno Hocr Hne result.
  pose proof (@build_text_blocks_no_text (pd_page_number page_data)
                (map t_bbox (pd_tables page_data)) raw_blocks Hno 0%nat)
    as Hnil.
  assert (Hres : result
    = set_text_blocks page_data
        (ocr_blocks (pd_page_number page_data) (pd_width page_data)
           (pd_height page_data
            / inject_Z (Z.of_nat
                (Nat.max 1 (List.length (split_on NEWLINE ocr_text)))))%Q
           0 (split_on NEWLINE ocr_text))
        ocr_text).
  { subst result. unfold extract_text_enhanced.
    rewrite Hraw. cbv zeta. rewrite Hnil. cbn [merge_text_blocks sort_by].
    rewrite Hocr. destruct ocr_text as [|c t]; [congruence|]. reflexivity. }
  rewrite Hres. cbn [set_text_blocks pd_text pd_text_blocks].
  assert (Htexts := ocr_blocks_texts (pd_page_number page_data)
            (pd_width page_data)
            (pd_height page_data
             / inject_Z (Z.of_nat
                 (Nat.max 1 (List.length (split_on NEWLINE ocr_text)))))%Q
            (split_on NEWLINE ocr_text) 0).
  split; [reflexivity|]. split; [exact Htexts|]. split; [|split].
  - intros b Hb.
    assert (Ht : In (tb_text b)
                   (filter nonempty (map strip (split_on NEWLINE ocr_text)))).
    { rewrite <- Htexts. apply in_map, Hb. }
    apply filter_In in Ht. destruct Ht as [Ht1 Ht2].
    apply in_map_iff in Ht1. destruct Ht1 as (line & E & _).
    apply ocr_blocks_in in Hb.
    destruct Hb as (k & Hk & _ & _ & _ & _ & _ & Hl & Hp & Hf & Hbold & Hs).
    split; [destruct (tb_text b); [discriminate|discriminate]|].
    split; [rewrite <- E; apply strip_idempotent|]. auto.
  - apply ocr_blocks_ids.
  - intros (c & Hc & Hs) E.
    assert (Hcn : c <> NEWLINE) by (intros ->; discriminate).
    destruct (@split_on_in NEWLINE ocr_text c Hc Hcn) as (line & Hl & Hcl).
    assert (Hin : In (strip line)
                    (filter nonempty
                       (map strip (split_on NEWLINE ocr_text)))).
    { apply filter_In. split; [apply in_map, Hl|].
      pose proof (@strip_keeps line c Hcl Hs) as Hk.
      destruct (strip line); [destruct Hk|reflexivity]. }
    rewrite <- Htexts, E in Hin. destruct Hin.
Qed.


Lemma extract_text_line_based_ids (fitz_page : FitzPage Pixmap)
  (page_data : PageData) :
  NoDup (map tb_id (pd_text_blocks page_data)) ->
  NoDup (map tb_id
           (pd_text_blocks (extract_text_line_based fitz_page page_data))).
Proof.
  intros Hinit. unfold extract_text_line_based.
  destruct (get_text_dict fitz_page) as [blocks|e]; [|exact Hinit].
  cbn [set_text_blocks pd_text_blocks].
  apply (Permutation_NoDup
           (Permutation_map tb_id (sort_by_perm yx_lt _))).
  destruct (unique_blocks_sublist
              (build_line_blocks (pd_page_number page_data)
                 (map t_bbox (pd_tables page_data)) 0
                 (flat_map
                    (fun b => if (block_type b =? 0)%Z
                              then block_lines b else []) blocks)) [])
    as [d Hd].
  apply (NoDup_app_remove_r _ (map tb_id d)). rewrite <- map_app.
  apply (Permutation_NoDup (Permutation_map tb_id (Permutation_sym Hd))).
  apply build_line_blocks_ids.
Qed.

Lemma extract_text_enhanced_ids (fitz_page : FitzPage Pixmap)
  (page_data : PageData) :
  NoDup (map tb_id (pd_text_blocks page_data)) ->
  NoDup (map tb_id
           (pd_text_blocks
              (extract_text_enhanced preprocess image_to_string fitz_page
                 page_data))).
Proof.
  intros Hinit.
  unfold extract_text_enhanced.
  destruct (get_text_rawdict fitz_page) as [raw_blocks|e];
    [|apply extract_text_line_based_ids, Hinit].
  cbv zeta.
  assert (Hm : NoDup (map tb_id
            (sort_by round_yx_lt
               (merge_text_blocks
                  (build_text_blocks (pd_page_number page_data)
                     (map t_bbox (pd_tables page_data)) 0 raw_blocks))))).
  { apply (Permutation_NoDup
             (Permutation_map tb_id (sort_by_perm round_yx_lt _))).
    apply merge_text_blocks_ids, build_text_blocks_ids. }
  destruct (sort_by round_yx_lt _) as [|m ms] eqn:Es; [|exact Hm].
  destruct (extract_text_ocr preprocess image_to_string fitz_page)
    as [[|c t]|e];
    [exact Hm| |apply extract_text_line_based_ids; exact Hm].
  cbn [set_text_blocks pd_text_blocks pd_page_number pd_width pd_height].
  assert (Hb : build_text_blocks (pd_page_number page_data)
                 (map t_bbox (pd_tables page_data)) 0 raw_blocks = []).
  { apply merge_text_blocks_nil.
    apply length_zero_iff_nil.
    rewrite <- (sort_by_length round_yx_lt), Es. reflexivity. }
  rewrite Hb. cbn [app]. apply ocr_blocks_ids.
Qed.

(** X7: whichever of the three text paths is taken, the text blocks that
    [extract] records for a page have pairwise different ids, so that a
    [parent_id] names one block. *)
Theorem extract_page_ids_distinct (m : str -> bool)
  (plumber_page : PlumberPage) (fitz_page : FitzPage Pixmap)
  (page_number : nat) :
  NoDup (map tb_id
           (pd_text_blocks
              (extract_page m preprocess image_to_string plumber_page
                 fitz_page page_number))).
Proof.
  unfold extract_page. cbv zeta. cbn [set_text_blocks pd_text_blocks].
  apply (Permutation_NoDup (infer_hierarchy_ids _)).
  rewrite (proj1 (extract_tables_text_blocks _ _ _ _)).
  apply extract_text_enhanced_ids. constructor.
Qed.

End Paths.

(** X5 on the scanned page, read as two lines. *)
Lemma extract_text_enhanced_ocr_blocks_witness :
  map tb_text
    (pd_text_blocks
       (extract_text_enhanced Examples.preprocess_ok
          MoreExamples.tesseract_two_lines Examples.fitz_page_scanned
          MoreExamples.empty_page_data))
  = filter nonempty
      (map strip
         (split_on NEWLINE
            (lit "Invoice 42" ++ [NEWLINE] ++ lit "  Total 10 "
             ++ [NEWLINE]))).
Proof.
  apply (@extract_text_enhanced_ocr_blocks unit Examples.preprocess_ok
           MoreExamples.tesseract_two_lines Examples.fitz_page_scanned
           MoreExamples.empty_page_data []
           (lit "Invoice 42" ++ [NEWLINE] ++ lit "  Total 10 " ++ [NEWLINE])
           eq_refl (fun block (H : In block []) => False_ind _ H) eq_refl).
  vm_compute. discriminate.
Defined.


End TextPathFacts.

(* ================================================================== *)
(** * The hierarchy as a whole *)
(* ================================================================== *)

Module MoreHierarchyFacts.
Import Py Num NumFacts PdfToJson Spec HierarchyFacts.

(** ** Levels and parents *)

Lemma index_or_len_nonneg (x : Q) (l : list Q) : (0 <= index_or_len x l)%Z.
Proof.
  induction l as [|y t IH]; [simpl; lia|].
  rewrite index_or_len_cons. destruct (Qeq_bool y x); lia.
Qed.

Lemma size_level_nonneg (font_sizes : list Q) (block : TextBlock) :
  (0 <= size_level font_sizes block)%Z.
Proof.
  unfold size_level.
  assert (H : (0 <= match font_sizes with
                    | [] => 0
                    | _ :: _ => index_or_len (tb_size block) font_sizes
                    end)%Z).
  { destruct font_sizes; [lia|apply index_or_len_nonneg]. }
  destruct (tb_is_bold block); lia.
Qed.

(** What the loop keeps true: [last] is the block before the blocks of
    [out], with a level that is not negative. *)
Lemma infer_loop_links (font_sizes : list Q) (blocks : list TextBlock) :
  forall last : option TextBlock,
    match last with Some l => (0 <= tb_level l)%Z | None => True end ->
    forall (i : nat) (b : TextBlock),
      nth_error (infer_loop font_sizes last blocks) i = Some b ->
      (0 <= tb_level b)%Z
      /\ match tb_parent_id b with
         | None => True
         | Some p =>
             exists prev,
               match i with
               | O => last
               | S j => nth_error (infer_loop font_sizes last blocks) j
               end = Some prev
               /\ p = tb_id prev
               /\ tb_level b = (tb_level prev + 1)%Z
               /\ (tb_x0 prev + 5 < tb_x0 b)%Q
         end.
Proof.
  induction blocks as [|block rest IH]; intros last Hlast i b.
  - destruct i; discriminate.
  - cbn [infer_loop]. cbv zeta.
    set (block' := match last with
                   | Some l =>
                       if Qltb (tb_x0 l + 5) (tb_x0 block)
                       then set_hierarchy block (tb_level l + 1)
                              (Some (tb_id l))
                       else set_hierarchy block
                              (size_level font_sizes block) None
                   | None =>
                       set_hierarchy block (size_level font_sizes block) None
                   end).
    assert (Hb' : (0 <= tb_level block')%Z
                  /\ match tb_parent_id block' with
                     | None => True
                     | Some p =>
                         exists prev, last = Some prev /\ p = tb_id prev
                           /\ tb_level block' = (tb_level prev + 1)%Z
                           /\ (tb_x0 prev + 5 < tb_x0 block')%Q
                     end).
    { subst block'. pose proof (size_level_nonneg font_sizes block) as Hs.
      destruct last as [l|]; [|split; [exact Hs|exact I]].
      destruct (Qltb (tb_x0 l + 5) (tb_x0 block)) eqn:E.
      - cbn [set_hierarchy tb_level tb_parent_id tb_x0]. split; [lia|].
        exists l. repeat split. apply Qltb_lt, E.
      - split; [exact Hs|exact I]. }
    destruct i as [|i]; cbn [nth_error].
    + intros E. injection E as <-. exact Hb'.
    + intros Hi.
      destruct (IH (Some block') (proj1 Hb') i b Hi) as [H1 H2].
      split; [exact H1|].
      destruct (tb_parent_id b) as [p|]; [|exact I].
      destruct H2 as (prev & Hp & Hrest). exists prev. split; [|exact Hrest].
      destruct i; exact Hp.
Qed.

(** X8: in the hierarchy of a page no level is negative, whatever levels
    the blocks came with; the first block has no parent; and a block that
    has a parent has the block just before it as its parent, is one level
    below it and starts more than 5 units to its right. *)
Theorem infer_hierarchy_links (text_blocks : list TextBlock) :
  let out := infer_hierarchy text_blocks in
  (forall b, In b out -> (0 <= tb_level b)%Z)
  /\ (forall b, nth_error out 0 = Some b -> tb_parent_id b = None)
  /\ (forall i b p,
        nth_error out i = Some b -> tb_parent_id b = Some p ->
        exists j prev,
          i = S j /\ nth_error out j = Some prev /\ p = tb_id prev
          /\ tb_level b = (tb_level prev + 1)%Z
          /\ (tb_x0 prev + 5 < tb_x0 b)%Q).
Proof.
  intros out.
  assert (Hout : out = infer_loop (font_sizes_of (sort_by yx_lt text_blocks))
                         None (sort_by yx_lt text_blocks)).
  { subst out. unfold infer_hierarchy. destruct text_blocks; reflexivity. }
  assert (H : forall i b, nth_error out i = Some b ->
            (0 <= tb_level b)%Z
            /\ match tb_parent_id b with
               | None => True
               | Some p =>
                   exists prev,
                     match i with
                     | O => None
                     | S j => nth_error out j
                     end = Some prev
                     /\ p = tb_id prev
                     /\ tb_level b = (tb_level prev + 1)%Z
                     /\ (tb_x0 prev + 5 < tb_x0 b)%Q
               end).
  { rewrite Hout. intros i b. apply infer_loop_links. exact I. }
  split; [|split].
  - intros b Hb. apply In_nth_error in Hb. destruct Hb as [i Hi].
    apply (H i b Hi).
  - intros b Hb. destruct (H 0%nat b Hb) as [_ H2].
    destruct (tb_parent_id b); [|reflexivity].
    destruct H2 as (prev & E & _). discriminate.
  - intros i b p Hb Hp. destruct (H i b Hb) as [_ H2]. rewrite Hp in H2.
    destruct H2 as (prev & E & Hrest).
    destruct i as [|j]; [discriminate|]. exists j, prev. auto.
Qed.

(** ** Running the inference again *)

Lemma sort_by_sorted_id (A : Type) (lt : A -> A -> bool) (l : list A) :
  StronglySorted (fun a b => lt b a = false) l -> sort_by lt l = l.
Proof.
  induction 1 as [|x t Hs IH Hx]; [reflexivity|].
  cbn [sort_by]. rewrite IH. destruct t as [|y t']; [reflexivity|].
  cbn [insert_by]. inversion Hx as [|? ? Hy _]; subst. rewrite Hy.
  reflexivity.
Qed.

Lemma infer_loop_fields (font_sizes : list Q) (blocks : list TextBlock) :
  forall last : option TextBlock,
    Forall2 (fun o b => tb_x0 o = tb_x0 b /\ tb_y0 o = tb_y0 b
                        /\ tb_size o = tb_size b)
      (infer_loop font_sizes last blocks) blocks.
Proof.
  induction blocks as [|b rest IH]; intros last; [constructor|].
  cbn [infer_loop]. cbv zeta. constructor; [|apply IH].
  destruct last as [l|]; [destruct (Qltb _ _)|]; repeat split.
Qed.

Lemma yx_sorted_fields (o b : TextBlock) (out rest : list TextBlock) :
  tb_x0 o = tb_x0 b /\ tb_y0 o = tb_y0 b /\ tb_size o = tb_size b ->
  Forall2 (fun o b => tb_x0 o = tb_x0 b /\ tb_y0 o = tb_y0 b
                      /\ tb_size o = tb_size b) out rest ->
  Forall (fun c => yx_lt c b = false) rest ->
  Forall (fun c => yx_lt c o = false) out.
Proof.
  intros (Ex & Ey & _) HF. induction HF as [|o' c os cs (Ex' & Ey' & _) _ IH].
  - constructor.
  - intros Hc. inversion Hc as [|? ? Hc1 Hc2]; subst.
    constructor; [|apply IH, Hc2].
    unfold yx_lt in *. rewrite Ex, Ey, Ex', Ey'. exact Hc1.
Qed.

Lemma infer_loop_sorted (font_sizes : list Q) (blocks : list TextBlock) :
  StronglySorted (fun a b => yx_lt b a = false) blocks ->
  forall last : option TextBlock,
    StronglySorted (fun a b => yx_lt b a = false)
      (infer_loop font_sizes last blocks).
Proof.
  induction 1 as [|b rest Hs IH Hb]; intros last; [constructor|].
  pose proof (infer_loop_fields font_sizes (b :: rest) last) as HF.
  cbn [infer_loop] in *. cbv zeta in *.
  inversion HF as [|? ? ? ? Ho Hos]; subst.
  constructor; [apply IH|].
  eapply yx_sorted_fields; [exact Ho|exact Hos|exact Hb].
Qed.

Lemma infer_loop_sizes (font_sizes : list Q) (blocks : list TextBlock)
  (last : option TextBlock) :
  map tb_size (infer_loop font_sizes last blocks) = map tb_size blocks.
Proof.
  pose proof (infer_loop_fields font_sizes blocks last) as H.
  induction H as [|o b os bs (_ & _ & E) _ IH]; [reflexivity|].
  cbn [map]. rewrite E, IH. reflexivity.
Qed.

Lemma infer_loop_again (font_sizes : list Q) (blocks : list TextBlock) :
  forall last : option TextBlock,
    infer_loop font_sizes last (infer_loop font_sizes last blocks)
    = infer_loop font_sizes last blocks.
Proof.
  induction blocks as [|b rest IH]; intros last; [reflexivity|].
  cbn [infer_loop]. cbv zeta.
  set (b' := match last with
             | Some l =>
                 if Qltb (tb_x0 l + 5) (tb_x0 b)
                 then set_hierarchy b (tb_level l + 1) (Some (tb_id l))
                 else set_hierarchy b (size_level font_sizes b) None
             | None => set_hierarchy b (size_level font_sizes b) None
             end).
  assert (E : match last with
              | Some l =>
                  if Qltb (tb_x0 l + 5) (tb_x0 b')
                  then set_hierarchy b' (tb_level l + 1) (Some (tb_id l))
                  else set_hierarchy b' (size_level font_sizes b') None
              | None => set_hierarchy b' (size_level font_sizes b') None
              end = b').
  { subst b'. destruct last as [l|]; [|reflexivity].
    destruct (Qltb (tb_x0 l + 5) (tb_x0 b)) eqn:Eq;
      cbn [set_hierarchy tb_x0]; rewrite Eq; reflexivity. }
  rewrite E. f_equal. apply IH.
Qed.

(** X9: inferring the hierarchy of a list of blocks that already went
    through the inference changes nothing: the result is in the order of
    [(y0, x0)], and the levels and parents it holds are the ones that the
    inference gives again. *)
Theorem infer_hierarchy_idempotent (text_blocks : list TextBlock) :
  StronglySorted (fun a b => yx_lt b a = false) (infer_hierarchy text_blocks)
  /\ infer_hierarchy (infer_hierarchy text_blocks)
     = infer_hierarchy text_blocks.
Proof.
  assert (Hout : infer_hierarchy text_blocks
            = infer_loop (font_sizes_of (sort_by yx_lt text_blocks))
                None (sort_by yx_lt text_blocks)).
  { unfold infer_hierarchy. destruct text_blocks; reflexivity. }
  assert (Hs : StronglySorted (fun a b => yx_lt b a = false)
                 (infer_hierarchy text_blocks)).
  { rewrite Hout. apply infer_loop_sorted.
    apply (sort_by_sorted yx_lt_asym yx_lt_cotransitive). }
  split; [exact Hs|].
  assert (Hagain : forall l,
            infer_hierarchy l
            = infer_loop (font_sizes_of (sort_by yx_lt l)) None
                (sort_by yx_lt l)).
  { intros l. unfold infer_hierarchy. destruct l; reflexivity. }
  rewrite (Hagain (infer_hierarchy text_blocks)).
  rewrite (@sort_by_sorted_id _ yx_lt _ Hs).
  rewrite Hout at 1 2.
  unfold font_sizes_of at 1. rewrite infer_loop_sizes.
  fold (font_sizes_of (sort_by yx_lt text_blocks)).
  rewrite infer_loop_again. symmetry. exact Hout.
Qed.

End MoreHierarchyFacts.

(* ================================================================== *)
(** * Which caption is found *)
(* ================================================================== *)

Module MoreCaptionFacts.
Import Py Num NumFacts PdfToJson Spec ExtraSpec CaptionFacts.

(** ** Boxes *)

Lemma is_inside_bbox_spec (inner outer : BBox) :
  is_inside_bbox inner outer = true <-> inside inner outer.
Proof.
  destruct inner as [[[tx0 ty0] tx1] ty1], outer as [[[rx0 ry0] rx1] ry1].
  unfold is_inside_bbox, inside.
  rewrite !andb_true_iff, !Qle_bool_iff. tauto.
Qed.

(** X10: containment of boxes, as the extraction tests it, is reflexive and
    transitive, and two boxes that contain each other have equal
    coordinates. *)
Theorem is_inside_bbox_order (a b c : BBox) :
  is_inside_bbox a a = true
  /\ (is_inside_bbox a b = true -> is_inside_bbox b c = true ->
      is_inside_bbox a c = true)
  /\ (is_inside_bbox a b = true -> is_inside_bbox b a = true ->
      let '(ax0, ay0, ax1, ay1) := a in
      let '(bx0, by0, bx1, by1) := b in
      (ax0 == bx0 /\ ay0 == by0 /\ ax1 == bx1 /\ ay1 == by1)%Q).
Proof.
  rewrite !is_inside_bbox_spec.
  destruct a as [[[ax0 ay0] ax1] ay1], b as [[[bx0 by0] bx1] by1],
           c as [[[cx0 cy0] cx1] cy1].
  unfold inside. repeat split; try lra.
Qed.

(** ** The ranking of the candidates *)

Lemma first_min_least (A : Type) (lt : A -> A -> bool) (l : list A)
  (sel : A) :
  (forall a b, lt a b = true -> lt b a = false) ->
  first_min lt l sel ->
  In sel l /\ forall c, In c l -> lt c sel = false.
Proof.
  intros Hasym (pre & post & -> & Hpre & Hpost). split.
  - apply in_or_app. right. now left.
  - intros c Hc. apply in_app_or in Hc. destruct Hc as [Hc|[<-|Hc]].
    + apply Hasym, Hpre, Hc.
    + destruct (lt sel sel) eqn:E; [|reflexivity].
      rewrite (Hasym _ _ E) in E. discriminate.
    + apply Hpost, Hc.
Qed.

Lemma candidate_lt_asym (a b : Candidate) :
  candidate_lt a b = true -> candidate_lt b a = false.
Proof.
  unfold candidate_lt.
  destruct (Z.eqb_spec (c_priority a) (c_priority b)) as [E|E];
    destruct (Z.eqb_spec (c_priority b) (c_priority a)) as [E'|E'];
    try congruence; cbn [negb].
  - rewrite pair_ltb_spec, pair_ltb_false. intros [H|[H1 H2]].
    + left. exact H.
    + right. split; [symmetry; exact H1|apply Qlt_le_weak, H2].
  - rewrite Z.ltb_lt, Z.ltb_ge. lia.
Qed.

Lemma candidate_lt_false (a b : Candidate) :
  candidate_lt a b = false ->
  (c_priority b <= c_priority a)%Z
  /\ (c_priority a = c_priority b ->
      (c_distance b <= c_distance a)%Q
      /\ ((c_distance a == c_distance b)%Q ->
          (c_x_distance b <= c_x_distance a)%Q)).
Proof.
  unfold candidate_lt.
  destruct (Z.eqb_spec (c_priority a) (c_priority b)) as [E|E]; cbn [negb].
  - rewrite pair_ltb_false. intros H. split; [lia|]. intros _.
    destruct H as [H|[H1 H2]].
    + split; [apply Qlt_le_weak, H|]. intros E'. rewrite E' in H.
      exfalso. apply (Qlt_irrefl _ H).
    + split; [rewrite H1; apply Qle_refl|]. intros _. exact H2.
  - rewrite Z.ltb_ge. intros H. split; [exact H|]. intros E'. contradiction.
Qed.

Lemma image_candidate_lt_asym (a b : ImageCandidate) :
  image_candidate_lt a b = true -> image_candidate_lt b a = false.
Proof.
  unfold image_candidate_lt.
  destruct (Z.eqb_spec (ic_priority a) (ic_priority b)) as [E|E];
    destruct (Z.eqb_spec (ic_priority b) (ic_priority a)) as [E'|E'];
    try congruence; cbn [negb].
  - rewrite Qltb_lt, Qltb_ge. apply Qlt_le_weak.
  - rewrite Z.ltb_lt, Z.ltb_ge. lia.
Qed.

Lemma image_candidate_lt_false (a b : ImageCandidate) :
  image_candidate_lt a b = false ->
  (ic_priority b <= ic_priority a)%Z
  /\ (ic_priority a = ic_priority b -> (ic_distance b <= ic_distance a)%Q).
Proof.
  unfold image_candidate_lt.
  destruct (Z.eqb_spec (ic_priority a) (ic_priority b)) as [E|E]; cbn [negb].
  - rewrite Qltb_ge. intros H. split; [lia|]. intros _. exact H.
  - rewrite Z.ltb_ge. intros H. split; [exact H|]. intros E'. contradiction.
Qed.

(** ** Table captions *)

Section RoundedRanking.

(** The rounding of the arithmetic. *)
Variable fl : Q -> Q.

Lemma table_candidate_fields (m : str -> bool) (page_height : Q)
  (table_bbox : BBox) (block : TextBlock) (c : Candidate) :
  Rounded.table_candidate fl m page_height table_bbox block = Some c ->
  c_priority c = table_priority m block
  /\ c_distance c = RoundedSpec.y_distance fl table_bbox block.
Proof.
  destruct table_bbox as [[[x0 y0] x1] y1].
  unfold Rounded.table_candidate, table_priority, RoundedSpec.y_distance.
  destruct (strip (tb_text block)) as [|a t] eqn:Et; [discriminate|].
  destruct (Qle_bool (tb_y1 block) y0); cbn [negb]; [|discriminate].
  destruct (Qltb (fl (fl (x1 - x0) / 2)) _); [discriminate|].
  destruct (Qltb (fl (page_height * fl (15 # 100))) _); [discriminate|].
  intros H. injection H as <-. cbn [c_priority c_distance].
  split; [|reflexivity].
  destruct (m _), (tb_is_bold block); reflexivity.
Qed.

Lemma table_candidate_complete (m : str -> bool) (page_height : Q)
  (table_bbox : BBox) (block : TextBlock) :
  strip (tb_text block) <> [] ->
  RoundedSpec.above_table fl page_height table_bbox block ->
  exists c, Rounded.table_candidate fl m page_height table_bbox block = Some c.
Proof.
  intros Ht Ha.
  destruct (Rounded.table_candidate fl m page_height table_bbox block)
    as [c|] eqn:E; [exists c; reflexivity|].
  apply table_candidate_none in E. tauto.
Qed.

(** X11: a table gets a caption exactly when some block with text lies
    above it within the three bounds; the block whose text is returned has
    the least priority number among the blocks that qualify, a match of the
    caption pattern and a bold face each counting one step, whatever the
    distances, and among the blocks of that priority none has a smaller
    distance to the top of the table.  The bounds and the distances are the
    numbers that the program computes, whatever the rounding. *)
Theorem find_table_caption_ranked (m : str -> bool) (page_height : Q)
  (text_blocks : list TextBlock) (table_bbox : BBox) :
  (Rounded.find_table_caption fl m page_height text_blocks table_bbox
   <> None <->
   exists block,
     In block text_blocks /\ strip (tb_text block) <> []
     /\ RoundedSpec.above_table fl page_height table_bbox block)
  /\ (forall caption,
        Rounded.find_table_caption fl m page_height text_blocks table_bbox
        = Some caption ->
        exists sel,
          In sel text_blocks /\ caption = strip (tb_text sel)
          /\ RoundedSpec.above_table fl page_height table_bbox sel
          /\ forall block,
               In block text_blocks -> strip (tb_text block) <> [] ->
               RoundedSpec.above_table fl page_height table_bbox block ->
               (table_priority m sel <= table_priority m block)%Z
               /\ (table_priority m block = table_priority m sel ->
                   (RoundedSpec.y_distance fl table_bbox sel
                    <= RoundedSpec.y_distance fl table_bbox block)%Q)).
Proof.
  rewrite rounded_find_table_caption_eq.
  pose proof (py_min_first_min candidate_lt_transitive
                candidate_lt_cotransitive
                (Rounded.table_caption_candidates fl m page_height table_bbox
                   text_blocks)) as Hmin.
  destruct (py_min candidate_lt _) as [sel|]; cbn [option_map].
  - apply (first_min_least candidate_lt_asym) in Hmin.
    destruct Hmin as [Hin Hleast].
    apply in_table_caption_candidates in Hin.
    destruct Hin as (bsel & Hbsel & Hc).
    destruct (table_candidate_some _ _ _ _ _ Hc) as (Ht & Hne & Ha).
    destruct (table_candidate_fields _ _ _ _ Hc) as (Hp & Hd).
    split.
    + split; [|discriminate]. intros _. exists bsel. auto.
    + intros caption E. injection E as <-. exists bsel.
      split; [exact Hbsel|]. split; [exact Ht|]. split; [exact Ha|].
      intros block Hb Hbt Hba.
      destruct (@table_candidate_complete m page_height table_bbox block
                  Hbt Hba) as [c Hcb].
      destruct (table_candidate_fields _ _ _ _ Hcb) as (Hp' & Hd').
      assert (Hle : candidate_lt c sel = false).
      { apply Hleast. apply in_table_caption_candidates. exists block. auto. }
      apply candidate_lt_false in Hle. destruct Hle as [H1 H2].
      rewrite Hp, Hp' in *. split; [exact H1|].
      intros E. destruct (H2 E) as [H3 _].
      rewrite Hd, Hd' in H3. exact H3.
  - split; [|intros caption; discriminate]. split; [congruence|].
    intros (block & Hb & Hbt & Hba). exfalso.
    destruct (@table_candidate_complete m page_height table_bbox block
                  Hbt Hba) as [c Hcb].
    assert (Hin : In c (Rounded.table_caption_candidates fl m page_height
                          table_bbox text_blocks)).
    { apply in_table_caption_candidates. exists block. auto. }
    rewrite Hmin in Hin. destruct Hin.
Qed.

(** ** Image captions *)

Lemma image_candidate_spec (m : str -> bool) (page_height : Q)
  (table_bboxes : list BBox) (image_bbox : BBox) (block : TextBlock) :
  match Rounded.image_candidate fl m page_height table_bboxes image_bbox
          block with
  | Some c =>
      strip (tb_text block) <> []
      /\ RoundedSpec.near_image fl page_height table_bboxes image_bbox block
      /\ ic_text c = strip (tb_text block)
      /\ ic_priority c = (if m (strip (tb_text block)) then -1 else 0)%Z
      /\ ic_distance c = RoundedSpec.image_distance fl image_bbox block
  | None =>
      strip (tb_text block) = []
      \/ ~ RoundedSpec.near_image fl page_height table_bboxes image_bbox block
  end.
Proof.
  destruct image_bbox as [[[x0 y0] x1] y1].
  unfold Rounded.image_candidate, RoundedSpec.near_image,
    RoundedSpec.image_distance, RoundedSpec.share.
  destruct (strip (tb_text block)) as [|a t] eqn:Et; [now left|].
  destruct (existsb _ table_bboxes) eqn:Ex.
  { right. intros [H _]. apply existsb_exists in Ex.
    destruct Ex as (tb & Hin & Hi). apply is_inside_bbox_spec in Hi.
    exact (H tb Hin Hi). }
  assert (Hnot : forall table_bbox,
            In table_bbox table_bboxes -> ~ inside (bbox_of block) table_bbox).
  { intros tb Hin Hi. apply is_inside_bbox_spec in Hi.
    assert (existsb (is_inside_bbox
                       (tb_x0 block, tb_y0 block, tb_x1 block, tb_y1 block))
              table_bboxes = true)
      by (apply existsb_exists; exists tb; auto).
    congruence. }
  match goal with
  | |- context [negb ?b] => destruct b eqn:En
  end; cbn [negb].
  - split; [discriminate|]. split; [|repeat split].
    split; [exact Hnot|].
    rewrite orb_true_iff, !andb_true_iff, !Qle_bool_iff in En. exact En.
  - right. intros [_ H].
    rewrite <- !Qle_bool_iff, <- !andb_true_iff, <- orb_true_iff in H.
    congruence.
Qed.

Lemma in_image_caption_candidates (m : str -> bool) (page_height : Q)
  (table_bboxes : list BBox) (image_bbox : BBox)
  (text_blocks : list TextBlock) (c : ImageCandidate) :
  In c (Rounded.image_caption_candidates fl m page_height table_bboxes
          image_bbox text_blocks) <->
  exists block,
    In block text_blocks
    /\ Rounded.image_candidate fl m page_height table_bboxes image_bbox block
       = Some c.
Proof.
  induction text_blocks as [|b rest IH]; cbn [Rounded.image_caption_candidates].
  - split; [intros [] | intros (? & [] & _)].
  - destruct (Rounded.image_candidate fl m page_height table_bboxes
                image_bbox b) as [c0|] eqn:E.
    + cbn [In]. rewrite IH. split.
      * intros [<-|(blk & Hin & Hc)]; [exists b | exists blk];
          (split; [|assumption]); [now left|now right].
      * intros (blk & [<-|Hin] & Hc).
        -- left. congruence.
        -- right. exists blk. auto.
    + rewrite IH. split.
      * intros (blk & Hin & Hc). exists blk. split; [now right|exact Hc].
      * intros (blk & [<-|Hin] & Hc); [congruence|]. exists blk. auto.
Qed.

(** X12: an image gets a caption exactly when some block with text lies in
    no table and has its top or bottom edge within 10% of the page height
    of the vertical extent of the image; the text returned is the stripped
    text of such a block; a block that matches the caption pattern is
    preferred to any that does not, and among the blocks of the same kind
    none has a smaller distance to the image.  The band and the distances
    are the numbers that the program computes, whatever the rounding. *)
Theorem find_image_caption_ranked (m : str -> bool) (page_height : Q)
  (text_blocks : list TextBlock) (table_bboxes : list BBox)
  (image_bbox : BBox) :
  (Rounded.find_image_caption fl m page_height text_blocks table_bboxes
     image_bbox <> None <->
   exists block,
     In block text_blocks /\ strip (tb_text block) <> []
     /\ RoundedSpec.near_image fl page_height table_bboxes image_bbox block)
  /\ (forall caption,
        Rounded.find_image_caption fl m page_height text_blocks table_bboxes
          image_bbox = Some caption ->
        exists sel,
          In sel text_blocks /\ caption = strip (tb_text sel)
          /\ caption <> []
          /\ RoundedSpec.near_image fl page_height table_bboxes image_bbox sel
          /\ forall block,
               In block text_blocks -> strip (tb_text block) <> [] ->
               RoundedSpec.near_image fl page_height table_bboxes image_bbox
                 block ->
               (m (strip (tb_text block)) = true ->
                m (strip (tb_text sel)) = true)
               /\ (m (strip (tb_text block)) = m (strip (tb_text sel)) ->
                   (RoundedSpec.image_distance fl image_bbox sel
                    <= RoundedSpec.image_distance fl image_bbox block)%Q)).
Proof.
  rewrite rounded_find_image_caption_eq.
  pose proof (py_min_first_min image_candidate_lt_transitive
                image_candidate_lt_cotransitive
                (Rounded.image_caption_candidates fl m page_height
                   table_bboxes image_bbox text_blocks)) as Hmin.
  assert (Hcomplete : forall block,
            In block text_blocks -> strip (tb_text block) <> [] ->
            RoundedSpec.near_image fl page_height table_bboxes image_bbox
              block ->
            exists c,
              In c (Rounded.image_caption_candidates fl m page_height
                      table_bboxes image_bbox text_blocks)
              /\ ic_priority c
                 = (if m (strip (tb_text block)) then -1 else 0)%Z
              /\ ic_distance c
                 = RoundedSpec.image_distance fl image_bbox block).
  { intros block Hb Hbt Hbn.
    pose proof (image_candidate_spec m page_height table_bboxes image_bbox
                  block) as Hs.
    destruct (Rounded.image_candidate fl m page_height table_bboxes
                image_bbox block) as [c|] eqn:E; [|tauto].
    exists c. split.
    - apply in_image_caption_candidates. exists block. auto.
    - destruct Hs as (_ & _ & _ & Hp & Hd). split; [exact Hp|exact Hd]. }
  destruct (py_min image_candidate_lt _) as [sel|]; cbn [option_map].
  - apply (first_min_least image_candidate_lt_asym) in Hmin.
    destruct Hmin as [Hin Hleast].
    apply in_image_caption_candidates in Hin.
    destruct Hin as (bsel & Hbsel & Hc).
    pose proof (image_candidate_spec m page_height table_bboxes image_bbox
                  bsel) as Hs.
    rewrite Hc in Hs. destruct Hs as (Hne & Hnear & Ht & Hp & Hd).
    split.
    + split; [|discriminate]. intros _. exists bsel. auto.
    + intros caption E. injection E as <-. exists bsel.
      split; [exact Hbsel|]. split; [exact Ht|].
      split; [rewrite Ht; exact Hne|]. split; [exact Hnear|].
      intros block Hb Hbt Hbn.
      destruct (Hcomplete block Hb Hbt Hbn) as (c & Hcin & Hcp & Hcd).
      pose proof (Hleast c Hcin) as Hle.
      apply image_candidate_lt_false in Hle. destruct Hle as [H1 H2].
      rewrite Hp, Hcp in *. split.
      * intros Em. rewrite Em in H1.
        destruct (m (strip (tb_text bsel))); [reflexivity|lia].
      * intros Em. rewrite Em in H2. specialize (H2 eq_refl).
        rewrite Hcd, Hd in H2. exact H2.
  - split; [|intros caption; discriminate]. split; [congruence|].
    intros (block & Hb & Hbt & Hbn). exfalso.
    destruct (Hcomplete block Hb Hbt Hbn) as (c & Hcin & _).
    rewrite Hmin in Hcin. destruct Hcin.
Qed.

End RoundedRanking.

End MoreCaptionFacts.

(* ================================================================== *)
(** * What a sanitized file name is made of *)
(* ================================================================== *)

Module MoreSanitizeFacts.
Import Py PyFacts RunFacts PdfToJson Spec SanitizeFacts.

(** X13: whatever the caption, the file name made from it is not empty,
    has at most 50 characters, does not start with an underscore and holds
    only letters, digits, underscores and hyphens: no whitespace, none of
    the characters that a file system refuses, no dot, no path separator
    and no control character.  No letter or digit outside ASCII is taken to
    be whitespace. *)
Theorem sanitize_filename_safe (isalnum_nonascii : N -> bool) (s : str) :
  (forall c, (0x80 <= c)%N -> isalnum_nonascii c = true ->
             isspace c = false) ->
  let o := sanitize_filename isalnum_nonascii s in
  o <> []
  /\ (List.length o <= 50)%nat
  /\ (forall d, hd d o <> UNDERSCORE)
  /\ (forall c, In c o ->
        (isword isalnum_nonascii c = true \/ c = HYPHEN)
        /\ isspace c = false
        /\ in_chars c unsafe_chars = false
        /\ (0x20 < c)%N /\ c <> 0x2E%N /\ c <> 0x2F%N /\ c <> 0x5C%N
        /\ c <> 0x7F%N).
Proof.
  intros Hal o.
  destruct (sanitize_filename_sanitized isalnum_nonascii s)
    as [Hsafe Hhead Hlen].
  fold o in Hsafe, Hhead, Hlen.
  split; [destruct o; [destruct Hhead|discriminate]|].
  split; [exact Hlen|]. split.
  { intros d. destruct o; [destruct Hhead|exact Hhead]. }
  intros c Hc. specialize (Hsafe c Hc).
  split.
  { unfold safe in Hsafe. apply orb_true_iff in Hsafe.
    destruct Hsafe as [H|H]; [now left|right; apply N.eqb_eq, H]. }
  split; [apply (@safe_not_space isalnum_nonascii Hal), Hsafe|].
  split; [apply (@safe_not_unsafe isalnum_nonascii), Hsafe|].
  destruct (N.lt_ge_cases c 0x80) as [Hlt|Hge].
  - apply (@safe_ascii isalnum_nonascii c Hlt) in Hsafe. lia.
  - lia.
Qed.

(** The theorem at a caption that tries to leave the directory; the table
    of letters is the one of ASCII. *)
Lemma sanitize_filename_safe_witness :
  sanitize_filename ascii_only_alnum (lit "../../etc/passwd: Table 1") <> []
  /\ (List.length
        (sanitize_filename ascii_only_alnum (lit "../../etc/passwd: Table 1"))
      <= 50)%nat.
Proof.
  pose proof (@sanitize_filename_safe ascii_only_alnum
                (lit "../../etc/passwd: Table 1")
                (fun c _ (H : ascii_only_alnum c = true) =>
                   False_ind _ (Bool.diff_false_true H))) as H.
  exact (conj (proj1 H) (proj1 (proj2 H))).
Defined.

End MoreSanitizeFacts.

(* ================================================================== *)
(** * The drawing operations of a page *)
(* ================================================================== *)

Module MoreRenderFacts.
Import Py PyFacts Num NumFacts Exc JsonToPdf RenderSpec ExtraSpec.
Import JsonImages JsonPages PageSpec JsonToPdfFacts.

(** ** Cleaning a cleaned text *)

Lemma sub_runs_single_spaces (s : str) :
  (forall c, In c s -> isspace c = true -> c = SP) ->
  adjacent SP s = false ->
  forall in_run : bool,
    (in_run = true -> starts_with_space s = false) ->
    sub_runs isspace [SP] in_run s = s.
Proof.
  induction s as [|c t IH]; intros Hsp Hadj in_run Hrun; [reflexivity|].
  assert (Hsp' : forall d, In d t -> isspace d = true -> d = SP)
    by (intros d Hd; apply Hsp; now right).
  assert (Hadj' : adjacent SP t = false).
  { cbn [adjacent] in Hadj. destruct t as [|y t']; [reflexivity|].
    apply orb_false_iff in Hadj. tauto. }
  cbn [sub_runs]. destruct (isspace c) eqn:Ec.
  - destruct in_run; [specialize (Hrun eq_refl); cbn in Hrun; congruence|].
    assert (E : c = SP) by (apply Hsp; [now left|exact Ec]). subst c.
    cbn [app]. f_equal. apply IH; [exact Hsp'|exact Hadj'|].
    intros _. destruct t as [|y t']; [reflexivity|].
    cbn [adjacent] in Hadj. apply orb_false_iff in Hadj.
    destruct Hadj as [Hadj _]. rewrite N.eqb_refl in Hadj. cbn [andb] in Hadj.
    cbn [starts_with_space]. destruct (isspace y) eqn:Ey; [|reflexivity].
    assert (y = SP) by (apply Hsp'; [now left|exact Ey]). subst y.
    rewrite N.eqb_refl in Hadj. discriminate.
  - f_equal. apply IH; [exact Hsp'|exact Hadj'|discriminate].
Qed.

Lemma cleaned_chars_fixed (s : str) :
  (forall c, In c s -> ~ (0xD800 <= c <= 0xDFFF)%N /\ (0x20 <= c)%N) ->
  cleaned_chars s = s.
Proof.
  induction s as [|a t IH]; intros H; [reflexivity|].
  rewrite cleaned_chars_cons.
  destruct (H a (or_introl eq_refl)) as [H1 H2].
  destruct ((0xD800 <=? a)%N && (a <=? 0xDFFF)%N) eqn:Es.
  { apply andb_true_iff in Es. rewrite !N.leb_le in Es. tauto. }
  assert (El : (a <? 32)%N = false) by (apply N.ltb_ge; exact H2).
  rewrite El. cbn [andb]. f_equal. apply IH.
  intros c Hc. apply H. now right.
Qed.

Lemma clean_text_chars (text : str) (c : N) :
  In c (clean_text_for_pdf text) ->
  c <> 0x00%N /\ ~ (0xD800 <= c <= 0xDFFF)%N /\ (0x20 <= c)%N
  /\ (isspace c = true -> c = SP).
Proof.
  rewrite clean_text_for_pdf_eq. intros Hc. apply in_join_split in Hc.
  destruct Hc as [->|[Hin Hsp]].
  - split; [discriminate|]. split; [|split].
    + intros [H _]. vm_compute in H. apply H. reflexivity.
    + vm_compute. discriminate.
    + reflexivity.
  - apply cleaned_chars_in in Hin. destruct Hin as (Hin & Hs & Hlow).
    apply re_remove_in in Hin. destruct Hin as [_ H0].
    apply N.eqb_neq in H0.
    split; [congruence|]. split; [exact Hs|]. split.
    + destruct (N.lt_ge_cases c 32) as [Hlt|Hge]; [|exact Hge].
      apply Hlow in Hlt. destruct Hlt as [E|[E|E]]; subst c; discriminate Hsp.
    + rewrite Hsp. discriminate.
Qed.

(** X14: cleaning a text that was cleaned changes nothing. *)
Theorem clean_text_for_pdf_idempotent (text : str) :
  clean_text_for_pdf (clean_text_for_pdf text) = clean_text_for_pdf text.
Proof.
  pose proof (clean_text_chars text) as Hin.
  assert (Hadj : adjacent SP (clean_text_for_pdf text) = false)
    by (rewrite clean_text_for_pdf_eq; apply join_split_shape).
  pose proof (strip_clean_text text) as Hstrip.
  destruct (clean_text_for_pdf text) as [|a t] eqn:E; [reflexivity|].
  unfold clean_text_for_pdf at 1.
  assert (Hnul : re_remove (N.eqb 0x00) (a :: t) = a :: t).
  { unfold re_remove. apply SanitizeFacts.filter_all. intros c Hc.
    apply negb_true_iff. destruct (Hin c Hc) as [H0 _].
    apply N.eqb_neq. congruence. }
  rewrite Hnul.
  rewrite cleaned_chars_fixed
    by (intros c Hc; destruct (Hin c Hc) as (_ & H1 & H2 & _); auto).
  unfold re_sub_plus. rewrite lit_space.
  rewrite sub_runs_single_spaces;
    [exact Hstrip| |exact Hadj|discriminate].
  intros c Hc. apply (Hin c Hc).
Qed.

(** ** The order of the operations *)

Section PageOrder.

Variable fl : Q -> Q.
Variable open_table_image : str -> Result (Z * Z).
Variable open_image : str -> Result (Z * Z).

Lemma render_text_loop_order (tb cb ib : list (list Q))
  (blocks : list BlockInfo) :
  forall k : nat,
    let ops := render_text_loop fl tb cb ib k blocks in
    Forall (fun op => exists i,
              block_index op = Some i
              /\ (k <= i < k + List.length blocks)%nat) ops
    /\ increasing
         (flat_map (fun op => match block_index op with
                              | Some i => [i]
                              | None => []
                              end) ops).
Proof.
  induction blocks as [|blk rest IH]; intros k.
  - split; constructor.
  - cbn [render_text_loop List.length]. cbv zeta.
    destruct (IH (S k)) as [H1 H2].
    assert (Hrest :
      Forall (fun op => exists i,
                block_index op = Some i
                /\ (k <= i < k + S (List.length rest))%nat)
        (render_text_loop fl tb cb ib (S k) rest)
      /\ increasing
           (flat_map (fun op => match block_index op with
                                | Some i => [i]
                                | None => []
                                end)
              (render_text_loop fl tb cb ib (S k) rest))).
    { split; [|exact H2]. eapply Forall_impl; [|exact H1].
      intros op (i & E & Hi). exists i. split; [exact E|lia]. }
    destruct (blk_text blk); [exact Hrest|].
    destruct (is_inside_any_table_or_image_or_cell _ _ _ _ _ _ _ _);
      [exact Hrest|].
    destruct (strip _); [exact Hrest|].
    split.
    + constructor; [exists k; split; [reflexivity|lia]|apply Hrest].
    + cbn [flat_map block_index app]. constructor; [exact H2|].
      apply Forall_forall. intros i Hi. apply in_flat_map in Hi.
      destruct Hi as (op & Hop & Hi).
      rewrite Forall_forall in H1. destruct (H1 op Hop) as (j & E & Hj).
      rewrite E in Hi. destruct Hi as [<-|[]]. unfold Nat.lt. lia.
Qed.

Lemma render_image_index (page_w page_h : Q) (table_boxes : list (list Q))
  (idx : nat) (img : ImageEntry) (op : ImageOp) (box : list Q) :
  render_image fl open_image page_w page_h table_boxes idx img
  = Some (op, box) ->
  image_index op = idx.
Proof.
  unfold render_image.
  destruct (ie_base64 img); [discriminate|].
  destruct (ie_bbox img) as [|x0 [|y0 [|x1 [|y1 rest]]]]; try discriminate.
  destruct (if Qltb x1 x0 then (x1, x0) else (x0, x1)) as [X0 X1].
  destruct (if Qltb y1 y0 then (y1, y0) else (y0, y1)) as [Y0 Y1].
  cbv zeta.
  destruct (Qle_bool (fl (X1 - X0)) 0 || Qle_bool (fl (Y1 - Y0)) 0);
    (destruct (is_inside_any_table _ _ _ _ _ _); [discriminate|];
     destruct (open_image _) as [[ow oh]|e]; [|discriminate];
     destruct ((ow <=? 0)%Z || (oh <=? 0)%Z); [discriminate|];
     match goal with
     | |- (if ?c then _ else _) = _ -> _ => destruct c; [discriminate|]
     end;
     intros H; injection H as <- _; reflexivity).
Qed.

Lemma render_images_loop_order (page_w page_h : Q)
  (table_boxes : list (list Q)) (images : list ImageEntry) :
  forall idx : nat,
    let ops :=
      fst (render_images_loop fl open_image page_w page_h table_boxes idx
             images) in
    Forall (fun op =>
              (idx <= image_index op < idx + List.length images)%nat) ops
    /\ increasing (map image_index ops).
Proof.
  induction images as [|img rest IH]; intros idx.
  - split; constructor.
  - cbn [render_images_loop List.length]. cbv zeta.
    destruct (IH (S idx)) as [H1 H2].
    destruct (render_images_loop fl open_image page_w page_h table_boxes
                (S idx) rest) as [ops boxes].
    cbn [fst] in H1, H2.
    assert (Hrest :
      Forall (fun op =>
                (idx <= image_index op < idx + S (List.length rest))%nat)
        ops).
    { eapply Forall_impl; [|exact H1]. intros op Hop. cbv beta in *. lia. }
    destruct (render_image fl open_image page_w page_h table_boxes idx img)
      as [[op box]|] eqn:E; cbn [fst].
    + apply render_image_index in E. split.
      * constructor; [lia|exact Hrest].
      * cbn [map]. constructor; [exact H2|].
        apply Forall_forall. intros i Hi. apply in_map_iff in Hi.
        destruct Hi as (op' & <- & Hop').
        rewrite Forall_forall in H1. specialize (H1 op' Hop').
        cbv beta in H1. unfold Nat.lt. lia.
    + split; [exact Hrest|exact H2].
Qed.

(** X17: the operations of a page are those of the tables, followed by
    those of the images, followed by those of the text blocks, so that an
    image lies over the tables and the text over both.  No operation of a
    table draws a text block; the images are drawn in the order of the
    list, none of them twice, and so are the text blocks. *)
Theorem convert_page_order (page : Page) :
  let page_w := page_width page in
  let page_h := page_height page in
  let tables :=
    draw_tables_enhanced fl open_table_image (page_info_of page) page_w
      page_h in
  exists table_ops image_ops text_ops,
    convert_page fl open_table_image open_image page
    = map Drawn table_ops ++ map DrawnImage image_ops ++ map Drawn text_ops
    /\ table_ops = fst tables
    /\ image_ops
       = fst (render_images_enhanced fl open_image (page_images page) page_w
                page_h (snd tables))
    /\ text_ops = render_text_enhanced fl (page_info_of page) (snd tables)
    /\ Forall (fun op => block_index op = None) table_ops
    /\ Forall (fun op =>
                 (image_index op < List.length (page_images page))%nat)
         image_ops
    /\ increasing (map image_index image_ops)
    /\ Forall (fun op => exists i,
                 block_index op = Some i
                 /\ (i < List.length (page_text_blocks page))%nat)
         text_ops
    /\ increasing
         (flat_map (fun op => match block_index op with
                              | Some i => [i]
                              | None => []
                              end) text_ops).
Proof.
  intros page_w page_h tables. subst tables.
  unfold convert_page, draw_tables_enhanced. fold page_w page_h.
  pose proof (@draw_tables_loop_ops fl open_table_image page_w page_h
                (pg_tables (page_info_of page)) 0%nat) as Ht.
  destruct (draw_tables_loop fl open_table_image page_w page_h 0
              (pg_tables (page_info_of page))) as [[ops rendered] cells].
  cbn [fst snd] in *.
  unfold render_images_enhanced.
  destruct (render_images_loop_order page_w page_h rendered
              (page_images page) 0) as [Hi1 Hi2].
  destruct (render_images_loop fl open_image page_w page_h rendered 0
              (page_images page)) as [iops iboxes].
  cbn [fst] in *.
  exists ops, iops,
    (render_text_enhanced fl (page_info_of page) (rendered, cells)).
  split; [reflexivity|]. split; [reflexivity|]. split; [reflexivity|].
  split; [reflexivity|]. split.
  { apply Forall_forall. intros op Hop. specialize (Ht op Hop).
    destruct op; [reflexivity|reflexivity|discriminate]. }
  split.
  { eapply Forall_impl; [|exact Hi1]. intros op Hop. cbv beta in Hop. lia. }
  split; [exact Hi2|].
  unfold render_text_enhanced.
  destruct (render_text_loop_order rendered cells
              (image_boxes_of (pg_images (page_info_of page)))
              (pg_text_blocks (page_info_of page)) 0) as [H1 H2].
  split; [|exact H2].
  eapply Forall_impl; [|exact H1].
  intros op (i & E & Hi). exists i. split; [exact E|].
  cbn [page_info_of pg_text_blocks] in Hi. lia.
Qed.

End PageOrder.

(** ** The image of a table and the page *)

(** X15: the cut of the width does not keep the image of a table on the
    page.  For the table at [(300, 0, 400, 100)] on a page of 200 by 200,
    whose image is scaled to 100 by 50, the right edge of the image would be
    at 400, beyond the page, and the width is set to the page width less the
    left edge less 5, which is negative: the image is drawn at 300, to the
    right of the page, with the width -105, and the box recorded for the
    table has its right edge, 195, to the left of its left edge. *)
Theorem table_image_beyond_page :
  draw_table Binary64.round64 Examples.wide_image 200 200 0
    MoreExamples.outside_table
  = ([TableImage 0 300 100 (-105) 50], [[300; 0; 195; 50]%Q], []).
Proof.
  vm_compute. reflexivity.
Qed.

(** The rounding decides: on a page of 595 by 842, a table at
    [(196.9, 279.4, 595, 289.4)] with a picture of 2680 by 52 pixels.  The
    width of the box, 398.1, divided by 2680 and multiplied by 2680 again,
    is rounded to a number above it, the image would cross the right edge
    of the page by that, and its width is cut to 393.1, which is 5 less
    than the room on the page.  With the exact arithmetic the width is that
    of the box. *)
Example rounding_cuts_the_table_image :
  let d := Binary64.round64 in
  let flat_picture (base64_str : str) : Result (Z * Z) := Ok (2680, 52)%Z in
  let tbl :=
    mkTableInfo Examples.png_100_by_50
      (Some (d (1969 # 10), d (2794 # 10), 595, d (2894 # 10))%Q) [] in
  (exists h,
     fst (fst (draw_table d flat_picture 595 842 0 tbl))
     = [TableImage 0 (d (1969 # 10)) (d (5526 # 10)) (d (3931 # 10)) h])
  /\ (exists y w h,
        fst (fst (draw_table Binary64.exact flat_picture 595 842 0 tbl))
        = [TableImage 0 (d (1969 # 10)) y w h]
        /\ (w == 595 - d (1969 # 10))%Q).
Proof.
  split.
  - eexists. vm_compute. reflexivity.
  - do 3 eexists. split; [vm_compute; reflexivity|]. vm_compute. reflexivity.
Qed.

(** ** The cells of a table *)

(** X29: of the cells of a table, every cell with text gives its box, or
    the box of the table when it has none, to the boxes that keep text
    blocks away, in the order of the cells, whether its text is drawn or
    not; the text of a cell is drawn only when the cell has text, its box
    has a positive width and height and the cleaned text is not empty, and
    what is drawn is the cleaned text. *)
Theorem draw_cells_boxes (tbl_idx : nat) (table_bbox : Rect)
  (cells : list CellInfo) (cell_idx : nat) :
  let box_of cell :=
    match cell_bbox cell with
    | Some b => b
    | None => table_bbox
    end in
  snd (draw_cells tbl_idx table_bbox cell_idx cells)
  = map (fun cell => RoundTrip.box_list (box_of cell))
      (filter (fun cell => nonempty (cell_text cell)) cells)
  /\ forall op,
       In op (fst (draw_cells tbl_idx table_bbox cell_idx cells)) ->
       exists i cell,
         (cell_idx <= i)%nat
         /\ nth_error cells (i - cell_idx) = Some cell
         /\ op = CellText tbl_idx i (clean_text_for_pdf (cell_text cell))
         /\ cell_text cell <> []
         /\ clean_text_for_pdf (cell_text cell) <> []
         /\ (let '(cx0, cy0, cx1, cy1) := box_of cell in
             (cx0 < cx1)%Q /\ (cy0 < cy1)%Q).
Proof.
  intros box_of. revert cell_idx.
  induction cells as [|cell rest IH]; intros cell_idx.
  - split; [reflexivity|intros op []].
  - cbn [draw_cells filter].
    destruct (IH (S cell_idx)) as [IH1 IH2].
    destruct (draw_cells tbl_idx table_bbox (S cell_idx) rest)
      as [ops boxes].
    cbn [fst snd] in IH1, IH2.
    assert (Hrest : forall op, In op ops ->
              exists i cell0,
                (cell_idx <= i)%nat
                /\ nth_error (cell :: rest) (i - cell_idx) = Some cell0
                /\ op = CellText tbl_idx i
                          (clean_text_for_pdf (cell_text cell0))
                /\ cell_text cell0 <> []
                /\ clean_text_for_pdf (cell_text cell0) <> []
                /\ (let '(cx0, cy0, cx1, cy1) := box_of cell0 in
                    (cx0 < cx1)%Q /\ (cy0 < cy1)%Q)).
    { intros op Hop. destruct (IH2 op Hop) as (i & c & Hi & Hn & H).
      exists i, c. split; [lia|]. split; [|exact H].
      replace (i - cell_idx)%nat with (S (i - S cell_idx)) by lia.
      exact Hn. }
    destruct (cell_text cell) as [|a t] eqn:Et; cbn [nonempty].
    { split; [exact IH1|exact Hrest]. }
    assert (Hbox : box_of cell
                   = match cell_bbox cell with
                     | Some b => b
                     | None => table_bbox
                     end) by reflexivity.
    destruct (match cell_bbox cell with Some b => b | None => table_bbox end)
      as [[[cx0 cy0] cx1] cy1].
    cbv zeta. cbn [map]. rewrite Hbox. cbn [RoundTrip.box_list].
    destruct (Qle_bool (cx1 - cx0) 0 || Qle_bool (cy1 - cy0) 0) eqn:Ed.
    { cbn [fst snd]. split; [rewrite IH1; reflexivity|exact Hrest]. }
    pose proof (strip_clean_text (a :: t)) as Hs.
    destruct (strip (clean_text_for_pdf (a :: t))) as [|c0 s0] eqn:Es.
    { cbn [fst snd]. split; [rewrite IH1; reflexivity|exact Hrest]. }
    cbn [fst snd]. split; [rewrite IH1; reflexivity|].
    intros op [<-|Hop]; [|exact (Hrest op Hop)].
    exists cell_idx, cell. split; [lia|]. rewrite Nat.sub_diag.
    split; [reflexivity|]. rewrite Et. split; [reflexivity|].
    split; [discriminate|]. split; [rewrite <- Hs; discriminate|].
    rewrite Hbox. apply orb_false_iff in Ed. destruct Ed as [E1 E2].
    apply not_true_iff_false in E1. apply not_true_iff_false in E2.
    rewrite Qle_bool_iff in E1, E2.
    apply Qnot_le_lt in E1. apply Qnot_le_lt in E2. split; lra.
Qed.

End MoreRenderFacts.

(* ================================================================== *)
(** * The images that the extraction records *)
(* ================================================================== *)

Module PdfImagesFacts.
Import Py Num NumFacts Exc PdfToJson PdfImages ExtraSpec TextPathFacts.

Lemma Qmax_least (a b : Q) : (0 < b)%Q -> (0 < Qmax a b)%Q.
Proof.
  intros Hb. apply Qlt_le_trans with b; [exact Hb|apply Q.le_max_r].
Qed.

Lemma least_size_proper (x0 x1 top bottom : Q) :
  let '(box, w, h) :=
    if Qle_bool (x1 - x0) 0 || Qle_bool (bottom - top) 0
    then
      ((x0, top, (x0 + Qmax (x1 - x0) 10)%Q,
        (top + Qmax (bottom - top) 10)%Q),
       Qmax (x1 - x0) 10, Qmax (bottom - top) 10)
    else ((x0, top, x1, bottom), (x1 - x0)%Q, (bottom - top)%Q) in
  proper_box box
  /\ (0 < w)%Q /\ (0 < h)%Q
  /\ (let '(x0, top, x1, bottom) := box in
      (x1 - x0 == w)%Q /\ (bottom - top == h)%Q)
  /\ (rect_is_empty box || negb (rect_is_valid box)) = false.
Proof.
  assert (Hbox : forall a b c d : Q,
            (a < c)%Q -> (b < d)%Q ->
            (rect_is_empty (a, b, c, d) || negb (rect_is_valid (a, b, c, d)))
            = false).
  { intros a b c d Hac Hbd. unfold rect_is_empty, rect_is_valid.
    apply orb_false_iff. split.
    - apply orb_false_iff. split; apply not_true_iff_false;
        rewrite Qle_bool_iff; lra.
    - apply negb_false_iff, andb_true_iff. split; apply Qle_bool_iff; lra. }
  destruct (Qle_bool (x1 - x0) 0 || Qle_bool (bottom - top) 0) eqn:Ec.
  - pose proof (@Qmax_least (x1 - x0) 10 eq_refl) as Hw.
    pose proof (@Qmax_least (bottom - top) 10 eq_refl) as Hh.
    unfold proper_box.
    split; [split; lra|]. split; [exact Hw|]. split; [exact Hh|].
    split; [split; ring|]. apply Hbox; lra.
  - apply orb_false_iff in Ec. destruct Ec as [Ew Eh].
    apply not_true_iff_false in Ew. apply not_true_iff_false in Eh.
    rewrite Qle_bool_iff in Ew, Eh.
    apply Qnot_le_lt in Ew. apply Qnot_le_lt in Eh.
    unfold proper_box.
    split; [split; lra|]. split; [exact Ew|]. split; [exact Eh|].
    split; [split; reflexivity|]. apply Hbox; lra.
Qed.

(** The box of an image has an interior, whatever pdfplumber reported; its
    width and height are those of the box; it passes the test of the clip
    rectangle. *)
Lemma image_box_proper (img : PlumberImage) :
  let '(box, w, h) := image_box img in
  proper_box box
  /\ (0 < w)%Q /\ (0 < h)%Q
  /\ (let '(x0, top, x1, bottom) := box in
      (x1 - x0 == w)%Q /\ (bottom - top == h)%Q)
  /\ (rect_is_empty box || negb (rect_is_valid box)) = false.
Proof.
  unfold image_box.
  destruct (Qltb (pi_x1 img) (pi_x0 img));
    destruct (Qltb (pi_bottom img) (pi_top img));
    cbv zeta; apply least_size_proper.
Qed.


Section ImageRecords.

Variable isalnum_nonascii : N -> bool.
Variable image_caption_match : str -> bool.
Variable render_clip : BBox -> Result str.
Variable save_file : str -> Result str.

Lemma extract_image_some (page_data : PageData) (idx : nat)
  (img : PlumberImage) (image : ImageRecord) :
  extract_image isalnum_nonascii image_caption_match render_clip save_file
    page_data idx img = Some image ->
  (im_bbox image, im_width image, im_height image) = image_box img
  /\ im_image_id image
     = lit "img_" ++ of_nat (pd_page_number page_data) ++ lit "_"
       ++ of_nat idx
  /\ im_caption image
     = find_image_caption image_caption_match (pd_height page_data)
         (pd_text_blocks page_data) (map t_bbox (pd_tables page_data))
         (im_bbox image)
  /\ exists b64_str,
       render_clip (im_bbox image) = Ok b64_str
       /\ im_base64 image = lit "data:image/png;base64," ++ b64_str.
Proof.
  unfold extract_image.
  destruct (image_box img) as [[box w] h].
  destruct (rect_is_empty box || negb (rect_is_valid box)); [discriminate|].
  destruct (render_clip box) as [b64|e] eqn:Er; [|discriminate].
  match goal with
  | |- context [match ?saved with Ok _ => _ | Raise _ => None end] =>
      destruct saved as [path|e]; [|discriminate]
  end.
  intros E. injection E as <-. cbn.
  repeat split. exists b64. auto.
Qed.







End ImageRecords.

End PdfImagesFacts.

(* ================================================================== *)
(** * The images that the reconstruction draws *)
(* ================================================================== *)

Module JsonImagesFacts.
Import Py Num NumFacts Exc JsonImages ExtraSpec.

Section DrawnImages.

(** The rounding of the arithmetic. *)
Variable fl : Q -> Q.

Variable open_image : str -> Result (Z * Z).

Lemma render_image_drawn (page_w page_h : Q) (table_boxes : list (list Q))
  (idx : nat) (img : ImageEntry) (k : nat) (x y w h : Q) (box : list Q) :
  render_image fl open_image page_w page_h table_boxes idx img
  = Some (DrawImage k x y w h, box) ->
  k = idx
  /\ (0 <= x)%Q /\ (0 <= y)%Q
  /\ (fl (x + w) <= page_w)%Q /\ (fl (y + h) <= page_h)%Q
  /\ (20 <= w)%Q /\ (20 <= h)%Q
  /\ ie_base64 img <> [] /\ (4 <= List.length (ie_bbox img))%nat
  /\ List.length box = 4%nat.
Proof.
  unfold render_image.
  destruct (ie_base64 img) as [|c0 s0]; [discriminate|].
  destruct (ie_bbox img) as [|x0 [|y0 [|x1 [|y1 rest]]]]; try discriminate.
  destruct (if Qltb x1 x0 then (x1, x0) else (x0, x1)) as [X0 X1].
  destruct (if Qltb y1 y0 then (y1, y0) else (y0, y1)) as [Y0 Y1].
  cbv zeta.
  destruct (if Qle_bool (fl (X1 - X0)) 0 || Qle_bool (fl (Y1 - Y0)) 0
            then _ else _) as [[[[w0 h0] x1'] y1'] y_new].
  destruct (is_inside_any_table fl table_boxes X0 Y0 x1' y1'); [discriminate|].
  destruct (open_image _) as [[orig_w orig_h]|e]; [|discriminate].
  destruct ((orig_w <=? 0)%Z || (orig_h <=? 0)%Z); [discriminate|].
  match goal with
  | |- context [if ?c then None else _] => destruct c eqn:Eb; [discriminate|]
  end.
  intros E. injection E as <- <- <- <- <- <-.
  apply orb_false_iff in Eb. destruct Eb as [Eb E4].
  apply orb_false_iff in Eb. destruct Eb as [Eb E3].
  apply orb_false_iff in Eb. destruct Eb as [E1 E2].
  apply Qltb_ge in E1, E2, E3, E4.
  split; [reflexivity|]. split; [exact E1|]. split; [exact E2|].
  split; [exact E3|]. split; [exact E4|].
  split; [apply Q.le_max_r|]. split; [apply Q.le_max_r|].
  split; [discriminate|]. split; [cbn [List.length]; lia|reflexivity].
Qed.

Lemma render_images_loop_in (page_w page_h : Q)
  (table_boxes : list (list Q)) (images : list ImageEntry) :
  forall (idx : nat) (op : ImageOp),
    In op (fst (render_images_loop fl open_image page_w page_h table_boxes idx
                  images)) ->
    exists k img box,
      (idx <= k)%nat /\ nth_error images (k - idx) = Some img
      /\ render_image fl open_image page_w page_h table_boxes k img
         = Some (op, box).
Proof.
  induction images as [|img rest IH]; intros idx op; [intros []|].
  cbn [render_images_loop].
  destruct (render_images_loop fl open_image page_w page_h table_boxes (S idx)
              rest) as [ops boxes] eqn:El.
  specialize (IH (S idx) op). rewrite El in IH. cbn [fst] in IH.
  assert (Hrest : In op ops ->
            exists k img0 box,
              (idx <= k)%nat /\ nth_error (img :: rest) (k - idx) = Some img0
              /\ render_image fl open_image page_w page_h table_boxes k img0
                 = Some (op, box)).
  { intros H. destruct (IH H) as (k & img0 & box & Hk & Hn & Hr).
    exists k, img0, box. split; [lia|]. split; [|exact Hr].
    replace (k - idx)%nat with (S (k - S idx)) by lia. exact Hn. }
  destruct (render_image fl open_image page_w page_h table_boxes idx img)
    as [[op0 box0]|] eqn:Er; [|exact Hrest].
  cbn [fst]. intros [<-|H]; [|exact (Hrest H)].
  exists idx, img, box0. split; [lia|]. rewrite Nat.sub_diag. auto.
Qed.

Lemma render_images_loop_lengths (page_w page_h : Q)
  (table_boxes : list (list Q)) (images : list ImageEntry) :
  forall idx : nat,
    let '(ops, boxes) :=
      render_images_loop fl open_image page_w page_h table_boxes idx images in
    List.length ops = List.length boxes
    /\ (List.length ops <= List.length images)%nat.
Proof.
  induction images as [|img rest IH]; intros idx; [split; reflexivity|].
  cbn [render_images_loop]. specialize (IH (S idx)).
  destruct (render_images_loop fl open_image page_w page_h table_boxes (S idx)
              rest) as [ops boxes].
  destruct IH as [H1 H2].
  destruct (render_image fl open_image page_w page_h table_boxes idx img)
    as [[op0 box0]|]; cbn [List.length]; split; lia.
Qed.

(** X20: every image that the reconstruction draws has passed the test of
    the page bounds and is at least 20 wide and 20 high: its lower left
    corner has no negative coordinate, and the sums of its left edge and its
    width and of its lower edge and its height, as the program computes
    them, whatever the rounding, are not beyond the page width and the page
    height.  It is an image of the page that has data and a box of four
    numbers at least; there is one recorded box for each image drawn, and
    no more images are drawn than the page has. *)
Theorem images_within_page (images : list ImageEntry) (page_w page_h : Q)
  (rendered_tables : list (list Q) * list (list Q)) :
  let '(ops, boxes) :=
    render_images_enhanced fl open_image images page_w page_h rendered_tables in
  (forall k x y w h,
     In (DrawImage k x y w h) ops ->
     (0 <= x)%Q /\ (0 <= y)%Q
     /\ (fl (x + w) <= page_w)%Q /\ (fl (y + h) <= page_h)%Q
     /\ (20 <= w)%Q /\ (20 <= h)%Q
     /\ exists img,
          nth_error images k = Some img
          /\ ie_base64 img <> [] /\ (4 <= List.length (ie_bbox img))%nat)
  /\ List.length ops = List.length boxes
  /\ (List.length ops <= List.length images)%nat.
Proof.
  unfold render_images_enhanced. destruct rendered_tables as [table_boxes cb].
  pose proof (render_images_loop_in page_w page_h table_boxes images 0)
    as Hin.
  pose proof (render_images_loop_lengths page_w page_h table_boxes images 0)
    as Hlen.
  destruct (render_images_loop fl open_image page_w page_h table_boxes 0 images)
    as [ops boxes].
  cbn [fst] in Hin. split; [|exact Hlen].
  intros k x y w h Hop.
  destruct (Hin _ Hop) as (k' & img & box & _ & Hn & Hr).
  rewrite Nat.sub_0_r in Hn.
  apply render_image_drawn in Hr.
  destruct Hr as (-> & H1 & H2 & H3 & H4 & H5 & H6 & H7 & H8 & _).
  repeat (split; [assumption|]). exists img. auto.
Qed.

End DrawnImages.

(** The rounding decides: on a page of 595 by 842, an image at
    [(201.4, 0, 595, 219.8)] whose picture of 800 by 2989 pixels fills the
    height of its box.  The height of the box, divided by 2989 and
    multiplied by 2989 again, is rounded to a number above the height, the
    upper edge of the picture comes to lie above the page, and the image
    is not drawn.  With the exact arithmetic it is drawn. *)
Example rounding_skips_the_image :
  let d := Binary64.round64 in
  let tall_picture (base64_str : str) : Result (Z * Z) := Ok (800, 2989)%Z in
  let img :=
    mkImageEntry Examples.png_100_by_50
      [d (2014 # 10); 0; 595; d (2198 # 10)]%Q in
  render_image d tall_picture 595 842 [] 0 img = None
  /\ render_image Binary64.exact tall_picture 595 842 [] 0 img <> None.
Proof.
  split; vm_compute; [reflexivity|discriminate].
Qed.

End JsonImagesFacts.

(* ================================================================== *)
(** * The font of a text *)
(* ================================================================== *)

Module FontFacts.
Import Py Num Exc Fonts.

Lemma str_eqb_eq (a b : str) : str_eqb a b = true <-> a = b.
Proof.
  unfold str_eqb. destruct (list_eq_dec N.eq_dec a b); split;
    congruence.
Qed.

Section FontSelection.

Variable symbol_category : N -> bool.
Variable fonts_registered : Registered.

(** X22: asked with the default font Helvetica, [get_font_for_text] returns
    one of six names.  For a text with Korean letters, special characters
    or symbols it is the first registered of NotoSansKR and MalgunGothic, in
    its bold face exactly when bold is asked for and that face is
    registered, and Helvetica when neither is registered: a Korean font
    that is not registered is never chosen for such a text.  For any other
    text the registry is not consulted: the answer is Helvetica, in bold
    when bold is asked for or the block names Arial.Bold, except for
    Gulim.Regular, which is sent to NotoSansKR whether it is registered or
    not. *)
Theorem get_font_for_text_cases (font_name text : str) (is_bold : bool) :
  let font :=
    get_font_for_text symbol_category fonts_registered font_name text is_bold
      (lit "Helvetica") in
  let needs_unicode_font :=
    is_korean_text text || has_special_characters text
    || has_cjk_symbols symbol_category text in
  In font [lit "NotoSansKR-Bold"; lit "NotoSansKR"; lit "MalgunGothic-Bold";
           lit "MalgunGothic"; lit "Helvetica-Bold"; lit "Helvetica"]
  /\ (needs_unicode_font = true ->
      (font = lit "NotoSansKR-Bold" ->
       NotoSansKR fonts_registered = true
       /\ NotoSansKR_Bold fonts_registered = true /\ is_bold = true)
      /\ (font = lit "NotoSansKR" ->
          NotoSansKR fonts_registered = true
          /\ (is_bold = true -> NotoSansKR_Bold fonts_registered = false))
      /\ (font = lit "MalgunGothic-Bold" ->
          NotoSansKR fonts_registered = false
          /\ MalgunGothic fonts_registered = true
          /\ MalgunGothic_Bold fonts_registered = true /\ is_bold = true)
      /\ (font = lit "MalgunGothic" ->
          NotoSansKR fonts_registered = false
          /\ MalgunGothic fonts_registered = true
          /\ (is_bold = true -> MalgunGothic_Bold fonts_registered = false))
      /\ (font = lit "Helvetica-Bold" \/ font = lit "Helvetica" ->
          NotoSansKR fonts_registered = false
          /\ MalgunGothic fonts_registered = false
          /\ font = if is_bold then lit "Helvetica-Bold"
                    else lit "Helvetica"))
  /\ (needs_unicode_font = false ->
      font = if str_eqb font_name (lit "Gulim.Regular")
             then lit "NotoSansKR"
             else if is_bold || str_eqb font_name (lit "Arial.Bold")
                  then lit "Helvetica-Bold" else lit "Helvetica").
Proof.
  intros font needs_unicode_font. subst font.
  unfold get_font_for_text. fold needs_unicode_font.
  destruct needs_unicode_font.
  - destruct (NotoSansKR fonts_registered),
             (NotoSansKR_Bold fonts_registered),
             (MalgunGothic fonts_registered),
             (MalgunGothic_Bold fonts_registered), is_bold; cbn [andb];
      (split; [cbn [In]; tauto|]);
      (split; [|discriminate]); intros _;
      repeat split; try reflexivity; try discriminate;
      try (intros [E|E]; discriminate E);
      repeat match goal with
             | H : _ \/ _ |- _ => destruct H
             end;
      match goal with
      | H : lit _ = lit _ |- _ => discriminate H
      end.
  - unfold font_map_get.
    destruct (str_eqb font_name (lit "Arial.Bold")) eqn:E1.
    { apply str_eqb_eq in E1. subst font_name.
      destruct is_bold; (split; [cbn [In]; tauto|]);
        (split; [discriminate|]); intros _; reflexivity. }
    destruct (str_eqb font_name (lit "Arial.Regular")) eqn:E2.
    { apply str_eqb_eq in E2. subst font_name.
      destruct is_bold; (split; [cbn [In]; tauto|]);
        (split; [discriminate|]); intros _; reflexivity. }
    destruct (str_eqb font_name (lit "Gulim.Regular")) eqn:E3.
    { destruct is_bold; (split; [cbn [In]; tauto|]);
        (split; [discriminate|]); intros _; reflexivity. }
    destruct is_bold; (split; [cbn [In]; tauto|]);
      (split; [discriminate|]); intros _; reflexivity.
Qed.

Variable compatible : str -> bool.

Lemma find_first (A : Type) (p : A -> bool) (l : list A) (x : A) :
  find p l = Some x ->
  exists pre post,
    l = pre ++ x :: post /\ p x = true
    /\ forall y, In y pre -> p y = false.
Proof.
  induction l as [|a t IH]; [discriminate|].
  cbn [find]. destruct (p a) eqn:E.
  - intros H. injection H as <-. exists [], t. split; [reflexivity|].
    split; [exact E|]. intros y [].
  - intros H. destruct (IH H) as (pre & post & -> & Hx & Hpre).
    exists (a :: pre), post. split; [reflexivity|]. split; [exact Hx|].
    intros y [<-|Hy]; [exact E|apply Hpre, Hy].
Qed.

Lemma default_is_candidate (is_bold : bool) :
  In (if is_bold then lit "Helvetica-Bold" else lit "Helvetica")
    (font_candidates fonts_registered is_bold).
Proof.
  unfold font_candidates. apply in_or_app. right. apply in_or_app. right.
  now left.
Qed.

(** X23: the font with which a text is set passes the compatibility test,
    unless the first choice and every fall-back candidate fail it, in which
    case it is Helvetica, bold as asked.  When the first choice fails, the
    font is the first candidate that passes, in the order NotoSansKR,
    MalgunGothic, Helvetica, Times, Courier, a Korean font being a candidate
    only when it is registered; the fall-back is always one of the
    candidates. *)
Theorem select_font_compatible (font_name text : str) (is_bold : bool) :
  let first_choice :=
    get_font_for_text symbol_category fonts_registered font_name text is_bold
      (lit "Helvetica") in
  let candidates := font_candidates fonts_registered is_bold in
  let font :=
    select_font symbol_category fonts_registered compatible font_name text
      is_bold in
  (compatible first_choice = true -> font = first_choice)
  /\ (compatible first_choice = false ->
      In font candidates
      /\ ((exists pre post,
             candidates = pre ++ font :: post /\ compatible font = true
             /\ forall f, In f pre -> compatible f = false)
          \/ ((forall f, In f candidates -> compatible f = false)
              /\ font = if is_bold then lit "Helvetica-Bold"
                        else lit "Helvetica")))
  /\ (compatible font = false ->
      compatible first_choice = false
      /\ forall f, In f candidates -> compatible f = false)
  /\ (forall f, In f candidates ->
        (f = lit "NotoSansKR-Bold" \/ f = lit "NotoSansKR" ->
         NotoSansKR fonts_registered = true)
        /\ (f = lit "MalgunGothic-Bold" \/ f = lit "MalgunGothic" ->
            MalgunGothic fonts_registered = true)).
Proof.
  intros first_choice candidates font.
  assert (Hfall : compatible first_choice = false ->
            font = get_fallback_font_for_special_chars fonts_registered
                     compatible is_bold).
  { intros E. subst font. unfold select_font. fold first_choice.
    rewrite E. reflexivity. }
  assert (Hcases : compatible first_choice = false ->
      In font candidates
      /\ ((exists pre post,
             candidates = pre ++ font :: post /\ compatible font = true
             /\ forall f, In f pre -> compatible f = false)
          \/ ((forall f, In f candidates -> compatible f = false)
              /\ font = if is_bold then lit "Helvetica-Bold"
                        else lit "Helvetica"))).
  { intros E. rewrite (Hfall E).
    unfold get_fallback_font_for_special_chars. fold candidates.
    destruct (find compatible candidates) as [f|] eqn:Ef.
    - destruct (find_first _ _ Ef) as (pre & post & Ec & Hf & Hpre).
      split.
      + rewrite Ec. apply in_or_app. right. now left.
      + left. exists pre, post. auto.
    - split; [apply default_is_candidate|]. right.
      split; [|reflexivity]. intros f Hf.
      apply (find_none _ _ Ef f Hf). }
  split.
  { intros E. subst font. unfold select_font. fold first_choice.
    rewrite E. reflexivity. }
  split; [exact Hcases|]. split.
  { intros Hbad. destruct (compatible first_choice) eqn:E.
    - exfalso. subst font. unfold select_font in Hbad.
      fold first_choice in Hbad. rewrite E in Hbad. congruence.
    - split; [reflexivity|].
      destruct (Hcases eq_refl) as [_ [(pre & post & _ & Hok & _)|[H _]]];
        [congruence|exact H]. }
  intros f Hf. subst candidates. unfold font_candidates in Hf.
  destruct (NotoSansKR fonts_registered),
           (MalgunGothic fonts_registered),
           (NotoSansKR_Bold fonts_registered),
           (MalgunGothic_Bold fonts_registered), is_bold;
    cbn [andb app In] in Hf;
    repeat (destruct Hf as [<-|Hf]);
    try (destruct Hf);
    (split; [intros [E|E]|intros [E|E]]);
    try reflexivity; try discriminate E.
Qed.

End FontSelection.

End FontFacts.

(* ================================================================== *)
(** * The font of a text block *)
(* ================================================================== *)

Module SpanFacts.
Import Py Num NumFacts PdfToJson Spec ExtraSpec CaptionFacts MoreCaptionFacts.
Import FontFacts.

(** ** [_get_main_font] *)

Lemma str_eqb_refl (a : str) : str_eqb a a = true.
Proof. apply str_eqb_eq. reflexivity. Qed.

Lemma str_eqb_neq (a b : str) : str_eqb a b = false <-> a <> b.
Proof.
  split.
  - intros H E. apply str_eqb_eq in E. congruence.
  - intros H. destruct (str_eqb a b) eqn:E; [|reflexivity].
    apply str_eqb_eq in E. contradiction.
Qed.

Lemma add_count_count (font g : str) (n : nat) (counts : list (str * nat)) :
  count_of g (add_count font n counts)
  = if str_eqb font g then (count_of g counts + n)%nat
    else count_of g counts.
Proof.
  unfold count_of. induction counts as [|[f k] t IH]; cbn [add_count find].
  - cbn [fst snd]. destruct (str_eqb font g); reflexivity.
  - destruct (str_eqb f font) eqn:Ef.
    + apply str_eqb_eq in Ef. subst f. cbn [find fst snd].
      destruct (str_eqb font g); reflexivity.
    + cbn [find fst]. destruct (str_eqb f g) eqn:Eg.
      * apply str_eqb_eq in Eg. subst f.
        apply str_eqb_neq in Ef.
        assert (E : str_eqb font g = false)
          by (apply str_eqb_neq; congruence).
        rewrite E. reflexivity.
      * exact IH.
Qed.

Lemma add_count_keys (font : str) (n : nat) (counts : list (str * nat)) :
  NoDup (map fst counts) ->
  NoDup (map fst (add_count font n counts))
  /\ forall g, In g (map fst (add_count font n counts)) <->
               g = font \/ In g (map fst counts).
Proof.
  induction counts as [|[f k] t IH]; intros Hn; cbn [add_count map fst].
  - split; [constructor; [intros []|constructor]|].
    intros g. cbn [In]. intuition congruence.
  - inversion Hn as [|? ? Hf Ht]; subst.
    destruct (IH Ht) as [IH1 IH2].
    destruct (str_eqb f font) eqn:Ef.
    + apply str_eqb_eq in Ef. subst f. cbn [map fst]. split; [exact Hn|].
      intros g. cbn [In]. intuition congruence.
    + cbn [map fst]. split.
      * constructor; [|exact IH1]. intros Hin. apply IH2 in Hin.
        apply str_eqb_neq in Ef. destruct Hin as [E|Hin];
          [congruence|contradiction].
      * intros g. cbn [In]. rewrite IH2. tauto.
Qed.

Lemma fold_counts (spans : list Span) :
  forall counts : list (str * nat),
    NoDup (map fst counts) ->
    let result :=
      fold_left
        (fun counts span =>
           add_count (span_font span) (List.length (span_text span)) counts)
        spans counts in
    NoDup (map fst result)
    /\ (forall g, count_of g result
                  = (count_of g counts + chars_in_font g spans)%nat)
    /\ (forall g, In g (map fst result) <->
                  In g (map fst counts) \/ In g (map span_font spans)).
Proof.
  induction spans as [|span rest IH]; intros counts Hn; cbn [fold_left].
  - split; [exact Hn|]. split; [intros g; cbn; lia|].
    intros g. cbn [map In]. tauto.
  - destruct (@add_count_keys (span_font span)
                (List.length (span_text span)) counts Hn) as [Hn' Hk].
    destruct (IH _ Hn') as (R1 & R2 & R3).
    split; [exact R1|]. split.
    + intros g. rewrite R2, add_count_count.
      cbn [chars_in_font fold_right]. fold (chars_in_font g rest).
      destruct (str_eqb (span_font span) g); lia.
    + intros g. rewrite R3, Hk. cbn [map In]. intuition congruence.
Qed.

Lemma count_of_in (counts : list (str * nat)) (g : str) (k : nat) :
  NoDup (map fst counts) -> In (g, k) counts -> count_of g counts = k.
Proof.
  unfold count_of. induction counts as [|[f j] t IH]; [intros _ []|].
  intros Hn Hin. inversion Hn as [|? ? Hf Ht]; subst. cbn [find fst].
  destruct Hin as [E|Hin].
  - injection E as -> ->. rewrite str_eqb_refl. reflexivity.
  - destruct (str_eqb f g) eqn:E.
    + apply str_eqb_eq in E. subst f. exfalso. apply Hf.
      apply in_map_iff. exists (g, k). auto.
    + apply IH; assumption.
Qed.

Lemma count_lt_transitive :
  transitive (fun a b : str * nat => (snd b <? snd a)%nat).
Proof.
  intros a b c. rewrite !Nat.ltb_lt. lia.
Qed.

Lemma count_lt_cotransitive :
  cotransitive (fun a b : str * nat => (snd b <? snd a)%nat).
Proof.
  intros a b c. rewrite !Nat.ltb_lt, Nat.ltb_ge. lia.
Qed.

(** X25: the font of a text block is the font of one of its spans, and no
    font sets more characters of these spans than it does; without spans it
    is Unknown. *)
Theorem get_main_font_most (spans_info : list Span) :
  (spans_info = [] -> get_main_font spans_info = lit "Unknown")
  /\ (spans_info <> [] ->
      (exists span,
         In span spans_info /\ span_font span = get_main_font spans_info)
      /\ forall font,
           (chars_in_font font spans_info
            <= chars_in_font (get_main_font spans_info) spans_info)%nat).
Proof.
  split; [intros ->; reflexivity|]. intros Hne.
  destruct (@fold_counts spans_info [] (NoDup_nil _)) as (Hn & Hc & Hk).
  fold (font_counts spans_info) in Hn, Hc, Hk.
  unfold get_main_font.
  pose proof (py_min_first_min count_lt_transitive count_lt_cotransitive
                (font_counts spans_info)) as Hmin.
  destruct (py_min _ (font_counts spans_info)) as [[f kf]|].
  - apply first_min_least in Hmin;
      [|intros a b; rewrite Nat.ltb_lt, Nat.ltb_ge; lia].
    destruct Hmin as [Hin Hleast].
    assert (Hf : count_of f (font_counts spans_info) = kf)
      by (apply count_of_in; assumption).
    split.
    + assert (Hkey : In f (map fst (font_counts spans_info))).
      { apply in_map_iff. exists (f, kf). auto. }
      apply Hk in Hkey. destruct Hkey as [[]|Hkey].
      apply in_map_iff in Hkey. destruct Hkey as (span & E & Hs).
      exists span. auto.
    + intros g.
      assert (Eg : chars_in_font g spans_info
                   = count_of g (font_counts spans_info))
        by (rewrite Hc; reflexivity).
      assert (Ef : chars_in_font f spans_info
                   = count_of f (font_counts spans_info))
        by (rewrite Hc; reflexivity).
      rewrite Eg, Ef, Hf.
      unfold count_of.
      destruct (find (fun p => str_eqb (fst p) g) (font_counts spans_info))
        as [[g' k]|] eqn:Efind; [|cbn; lia].
      apply find_some in Efind. destruct Efind as [Hgin _].
      specialize (Hleast _ Hgin). cbn [snd] in Hleast |- *.
      apply Nat.ltb_ge in Hleast. exact Hleast.
  - exfalso. destruct spans_info as [|span rest]; [congruence|].
    assert (Hkey : In (span_font span)
                     (map fst (font_counts (span :: rest)))).
    { apply Hk. right. now left. }
    rewrite Hmin in Hkey. destruct Hkey.
Qed.

End SpanFacts.

(* ================================================================== *)
(** * The tables that the extraction records *)
(* ================================================================== *)

Module TablesFacts.
Import Py Num NumFacts Exc PdfToJson ExtraSpec MoreTableFacts TextPathFacts.

Section TableRecords.

Variable table_caption_match : str -> bool.




End TableRecords.


End TablesFacts.

(* ================================================================== *)
(** * A page that goes through both programs *)
(* ================================================================== *)

Module RoundTripFacts.
Import Py Num NumFacts Exc JsonToPdf RenderSpec ExtraSpec RoundTrip.
Import JsonPages PageSpec.
Import JsonToPdfFacts TextPathFacts PdfImagesFacts.

Section Pages.

Variable fl : Q -> Q.
Variable open_table_image : str -> Result (Z * Z).
Variable open_image : str -> Result (Z * Z).

Lemma draw_table_without_image (page_w page_h : Q) (tbl_idx : nat)
  (t : PdfToJson.Table) :
  draw_table fl open_table_image page_w page_h tbl_idx (table_info_of t)
  = ([], [], []).
Proof.
  unfold draw_table, table_info_of. cbn [tbl_bbox tbl_base64 tbl_cells].
  destruct (PdfToJson.t_bbox t) as [[[x0 y0] x1] y1]. cbv zeta.
  destruct (Qle_bool (fl (Qmax x0 x1 - Qmin x0 x1)) 0);
    destruct (Qle_bool (fl (Qmax y0 y1 - Qmin y0 y1)) 0); reflexivity.
Qed.

Lemma draw_tables_loop_without_images (page_w page_h : Q)
  (tables : list PdfToJson.Table) :
  forall tbl_idx : nat,
    draw_tables_loop fl open_table_image page_w page_h tbl_idx
      (map table_info_of tables)
    = ([], [], []).
Proof.
  induction tables as [|t rest IH]; intros tbl_idx; [reflexivity|].
  cbn [map draw_tables_loop].
  rewrite draw_table_without_image, IH. reflexivity.
Qed.

Lemma image_boxes_of_records (images : list PdfImages.ImageRecord) :
  image_boxes_of
    (map (fun img => mkImageInfo (JsonImages.ie_bbox img))
       (map image_entry_of images))
  = map (fun image => box_list (PdfImages.im_bbox image)) images.
Proof.
  unfold image_boxes_of. induction images as [|image rest IH];
    [reflexivity|].
  cbn [map filter img_bbox image_entry_of JsonImages.ie_bbox].
  destruct (PdfImages.im_bbox image) as [[[x0 y0] x1] y1].
  cbn [box_list List.length Nat.eqb]. f_equal. exact IH.
Qed.

Lemma render_text_loop_only_text (tb cb ib : list (list Q))
  (blocks : list BlockInfo) :
  forall (n : nat) (op : DrawOp),
    In op (render_text_loop fl tb cb ib n blocks) ->
    exists i text, op = BlockText i text.
Proof.
  induction blocks as [|blk rest IH]; intros n op; [intros []|].
  cbn [render_text_loop]. cbv zeta.
  destruct (blk_text blk); [apply IH|].
  destruct (is_inside_any_table_or_image_or_cell _ _ _ _ _ _ _ _);
    [apply IH|].
  destruct (strip _); [apply IH|].
  intros [<-|H]; [eexists; eexists; reflexivity|exact (IH _ _ H)].
Qed.

(** X27: of a page that the extraction wrote, the reconstruction draws no
    table image and no cell text, since the tables are written without the
    keys that it reads, and it records no box of a table: every operation of
    the page draws an image of the page or a text block, the images first.
    A text block is drawn exactly when it has text, its cleaned text is not
    empty, and the test of its box against the boxes of the images of the
    page, drawn or not, fails.  The tables of the page are of no account
    here. *)
Theorem extracted_page_without_tables (page_data : PdfToJson.PageData)
  (images : list PdfImages.ImageRecord) :
  let page := page_of page_data images in
  let page_w := PdfToJson.pd_width page_data in
  let page_h := PdfToJson.pd_height page_data in
  let ops := convert_page fl open_table_image open_image page in
  let image_boxes :=
    map (fun image => box_list (PdfImages.im_bbox image)) images in
  draw_tables_enhanced fl open_table_image (page_info_of page) page_w page_h
  = ([], ([], []))
  /\ ops
     = map DrawnImage
         (fst (JsonImages.render_images_enhanced fl open_image
                 (map image_entry_of images) page_w page_h ([], [])))
       ++ map Drawn
            (render_text_loop fl [] [] image_boxes 0
               (map block_info_of (PdfToJson.pd_text_blocks page_data)))
  /\ (forall op, In op ops ->
        (exists image_op, op = DrawnImage image_op)
        \/ (exists i text, op = Drawn (BlockText i text)))
  /\ (forall i b,
        nth_error (PdfToJson.pd_text_blocks page_data) i = Some b ->
        (text_drawn ops i <->
         PdfToJson.tb_text b <> []
         /\ clean_text_for_pdf (PdfToJson.tb_text b) <> []
         /\ is_inside_any_table_or_image_or_cell fl [] [] image_boxes
              (PdfToJson.tb_x0 b) (PdfToJson.tb_y0 b) (PdfToJson.tb_x1 b)
              (PdfToJson.tb_y1 b) = false)).
Proof.
  intros page page_w page_h ops image_boxes.
  assert (Ht : draw_tables_enhanced fl open_table_image (page_info_of page)
                 page_w page_h = ([], ([], []))).
  { unfold draw_tables_enhanced. subst page.
    cbn [page_of page_info_of pg_tables page_tables].
    rewrite draw_tables_loop_without_images. reflexivity. }
  assert (Hops : ops
     = map DrawnImage
         (fst (JsonImages.render_images_enhanced fl open_image
                 (map image_entry_of images) page_w page_h ([], [])))
       ++ map Drawn
            (render_text_loop fl [] [] image_boxes 0
               (map block_info_of (PdfToJson.pd_text_blocks page_data)))).
  { subst ops. unfold convert_page.
    change (page_width page) with page_w.
    change (page_height page) with page_h.
    rewrite Ht.
    change (page_images page) with (map image_entry_of images).
    destruct (JsonImages.render_images_enhanced fl open_image
                (map image_entry_of images) page_w page_h ([], []))
      as [image_ops boxes].
    cbn [map app fst]. f_equal.
    unfold render_text_enhanced. subst page.
    cbn [page_of page_info_of pg_images pg_text_blocks page_images
         page_text_blocks].
    rewrite image_boxes_of_records. reflexivity. }
  split; [exact Ht|]. split; [exact Hops|]. split.
  - rewrite Hops. intros op Hop. apply in_app_or in Hop.
    destruct Hop as [Hop|Hop]; apply in_map_iff in Hop;
      destruct Hop as (o & <- & Ho).
    + left. exists o. reflexivity.
    + right. apply render_text_loop_only_text in Ho.
      destruct Ho as (i & text & ->). exists i, text. reflexivity.
  - intros i b Hb. unfold text_drawn. rewrite Hops.
    assert (Hin : forall t,
      In (Drawn (BlockText i t))
        (map DrawnImage
           (fst (JsonImages.render_images_enhanced fl open_image
                   (map image_entry_of images) page_w page_h ([], [])))
         ++ map Drawn
              (render_text_loop fl [] [] image_boxes 0
                 (map block_info_of (PdfToJson.pd_text_blocks page_data))))
      <-> In (BlockText i t)
            (render_text_loop fl [] [] image_boxes 0
               (map block_info_of (PdfToJson.pd_text_blocks page_data)))).
    { intros t. rewrite in_app_iff, !in_map_iff. split.
      - intros [(o & E & _)|(o & E & Ho)]; [discriminate|].
        injection E as ->. exact Ho.
      - intros H. right. exists (BlockText i t). auto. }
    split.
    + intros (t & H). apply Hin in H. apply render_text_loop_in in H.
      destruct H as (blk & _ & Hn & H1 & H2 & -> & H4).
      rewrite Nat.sub_0_r, nth_error_map, Hb in Hn. injection Hn as <-.
      cbn [block_info_of blk_text blk_x0 blk_y0 blk_x1 blk_y1] in *.
      rewrite strip_clean_text in H4. auto.
    + intros (H1 & H2 & H3).
      exists (clean_text_for_pdf (PdfToJson.tb_text b)).
      apply Hin. apply render_text_loop_in. exists (block_info_of b).
      split; [lia|]. rewrite Nat.sub_0_r, nth_error_map, Hb.
      cbn [option_map block_info_of blk_text blk_x0 blk_y0 blk_x1 blk_y1].
      rewrite strip_clean_text. auto.
Qed.

End Pages.

(** ** The data of an image *)

Lemma split_on_app (sep : N) (pre b : str) :
  PdfToJson.split_on sep (pre ++ sep :: b)
  = PdfToJson.split_on sep pre ++ PdfToJson.split_on sep b.
Proof.
  induction pre as [|c t IH]; cbn [app PdfToJson.split_on].
  - rewrite N.eqb_refl. reflexivity.
  - destruct (c =? sep)%N; [rewrite IH; reflexivity|].
    rewrite IH. pose proof (@split_on_not_nil sep t) as Hne.
    destruct (PdfToJson.split_on sep t) as [|w ws]; [congruence|].
    reflexivity.
Qed.

Lemma split_on_none (sep : N) (b : str) :
  (forall c, In c b -> c <> sep) -> PdfToJson.split_on sep b = [b].
Proof.
  induction b as [|c t IH]; intros H; [reflexivity|].
  cbn [PdfToJson.split_on].
  destruct (N.eqb_spec c sep) as [E|_];
    [exfalso; exact (H c (or_introl eq_refl) E)|].
  rewrite IH by (intros d Hd; apply H; now right). reflexivity.
Qed.

Lemma base64_clean_data_url (b64_str : str) :
  (forall c, In c b64_str -> c <> JsonImages.COMMA /\ isspace c = false) ->
  JsonImages.base64_clean (lit "data:image/png;base64," ++ b64_str)
  = b64_str.
Proof.
  intros H. unfold JsonImages.base64_clean.
  change (lit "data:image/png;base64,")
    with (lit "data:image/png;base64" ++ [JsonImages.COMMA]).
  rewrite <- app_assoc. cbn [app].
  assert (Hin : in_chars JsonImages.COMMA
                  (lit "data:image/png;base64"
                   ++ JsonImages.COMMA :: b64_str) = true).
  { unfold in_chars. apply existsb_exists. exists JsonImages.COMMA.
    split; [apply in_or_app; right; now left|apply N.eqb_refl]. }
  rewrite Hin, split_on_app.
  rewrite (@split_on_none JsonImages.COMMA b64_str)
    by (intros c Hc; apply (H c Hc)).
  rewrite last_last. unfold re_remove. apply SanitizeFacts.filter_all.
  intros c Hc. apply negb_true_iff. apply (H c Hc).
Qed.

Section ImageData.

Variable isalnum_nonascii : N -> bool.
Variable image_caption_match : str -> bool.
Variable render_clip : PdfToJson.BBox -> Result str.
Variable save_file : str -> Result str.

(** X28: the reconstruction reads back what the extraction wrote of an
    image: the text after the prefix of the data URL is the base64 text of
    the rasterised clip, when that text has no comma and no whitespace, as
    base64 text has none; and the box is a list of four numbers with the
    corners in order and an interior, so that the reconstruction neither
    exchanges the corners nor enlarges the box. *)
Theorem extracted_image_read_back (page_data : PdfToJson.PageData)
  (idx : nat) (img_info : PdfImages.PlumberImage)
  (image : PdfImages.ImageRecord) (b64_str : str) :
  PdfImages.extract_image isalnum_nonascii image_caption_match render_clip
    save_file page_data idx img_info = Some image ->
  render_clip (PdfImages.im_bbox image) = Ok b64_str ->
  (forall c, In c b64_str -> c <> JsonImages.COMMA /\ isspace c = false) ->
  JsonImages.base64_clean (JsonImages.ie_base64 (image_entry_of image))
  = b64_str
  /\ exists x0 y0 x1 y1,
       JsonImages.ie_bbox (image_entry_of image) = [x0; y0; x1; y1]
       /\ (x0 < x1)%Q /\ (y0 < y1)%Q
       /\ Qltb x1 x0 = false /\ Qltb y1 y0 = false
       /\ Qle_bool (x1 - x0) 0 || Qle_bool (y1 - y0) 0 = false.
Proof.
  intros He Hr Hb.
  destruct (PdfImagesFacts.extract_image_some _ _ _ _ _ _ _ He)
    as (Hbox & _ & _ & b64 & Hr' & E64).
  rewrite Hr in Hr'. injection Hr' as <-.
  split.
  - cbn [image_entry_of JsonImages.ie_base64]. rewrite E64.
    apply base64_clean_data_url, Hb.
  - pose proof (image_box_proper img_info) as Hp. rewrite <- Hbox in Hp.
    destruct Hp as (Hpr & _ & _ & _ & _).
    cbn [image_entry_of JsonImages.ie_bbox].
    destruct (PdfImages.im_bbox image) as [[[x0 y0] x1] y1].
    destruct Hpr as [Hx Hy]. exists x0, y0, x1, y1.
    split; [reflexivity|]. split; [exact Hx|]. split; [exact Hy|].
    split; [apply Qltb_ge; lra|]. split; [apply Qltb_ge; lra|].
    apply orb_false_iff. split; apply not_true_iff_false;
      rewrite Qle_bool_iff; lra.
Qed.

End ImageData.

(** X28 on the image that pdfplumber reports with its corners exchanged. *)
Lemma extracted_image_read_back_witness :
  exists image,
    PdfImages.extract_image PdfToJson.ascii_only_alnum
      PdfToJson.ascii_image_caption_match MoreExamples.render_ok
      MoreExamples.save_ok MoreExamples.empty_page_data 0
      MoreExamples.flipped_image = Some image
    /\ JsonImages.base64_clean (JsonImages.ie_base64 (image_entry_of image))
       = Examples.png_100_by_50.
Proof.
  eexists. split; [reflexivity|].
  apply (@extracted_image_read_back PdfToJson.ascii_only_alnum
           PdfToJson.ascii_image_caption_match MoreExamples.render_ok
           MoreExamples.save_ok MoreExamples.empty_page_data 0%nat
           MoreExamples.flipped_image _ Examples.png_100_by_50 eq_refl
           eq_refl).
  intros c Hc. vm_compute in Hc.
  repeat (destruct Hc as [<-|Hc]; [split; [discriminate|reflexivity]|]).
  destruct Hc.
Defined.

End RoundTripFacts.
